(** * ARES scene graph: transforms, scene tree and render traversal

    A shallow embedding of the linear-algebra layer
    ([ares/glutils/LinearAlgebra.hpp], [LinearAlgebra.cpp]), of the scene
    graph ([Node], [Scene], [PerspectiveCamera]) and of the renderer
    ([Renderer::render], [Renderer::renderNode]).

    Conventions of the embedding:
    - a C++ [float] is a real number ([R]); [cosf], [sinf] and [tanf] are
      [cos], [sin] and [tan].  Rounding, infinities and NaN are outside the
      model, every statement below is about exact arithmetic;
    - [Mat<4>] keeps the storage of the source, [m_data[c][r]] (column
      first); a [float m[4][4]] literal is an array of rows and the
      constructor transposes it into the storage;
    - shared pointers are handles into a store; a null pointer is [None];
      a weak pointer locks to [None] once its target left the store. *)

From Stdlib Require Import Reals Lra Lia List String Bool.
From stdpp Require Import list gmap.
Import ListNotations.

#[local] Open Scope R_scope.

(** ** Linear algebra *)

Module glutils.

(** Values of the loop counters [c], [r], [i] of the source, which range
    over [0 .. N-1] with [N = 4]. *)
Inductive idx : Type := i0 | i1 | i2 | i3.

Definition all_idx : list idx := [i0; i1; i2; i3].

Definition idx_eqb (a b : idx) : bool :=
  match a, b with
  | i0, i0 | i1, i1 | i2, i2 | i3, i3 => true
  | _, _ => false
  end.

(** [Vec<3>] and [Vec<4>]: [float m_data[N]]. *)
Record Vec3 : Type := mkVec3 { x3 : R; y3 : R; z3 : R }.
Record Vec4 : Type := mkVec4 { e0 : R; e1 : R; e2 : R; e3 : R }.

(** [Vec::operator[]] *)
Definition vget (v : Vec4) (i : idx) : R :=
  match i with i0 => e0 v | i1 => e1 v | i2 => e2 v | i3 => e3 v end.

(** A vector filled entry by entry, as the source's loops over [i] do. *)
Definition vmk (f : idx -> R) : Vec4 := mkVec4 (f i0) (f i1) (f i2) (f i3).

(** [Vec::operator/=(float)] *)
Definition vdiv (v : Vec4) (rhs : R) : Vec4 := vmk (fun i => vget v i / rhs).

(** [Mat<4>]: [float m_data[4][4]], first index the column. *)
Record Mat4 : Type := mkMat4 { c0 : Vec4; c1 : Vec4; c2 : Vec4; c3 : Vec4 }.

(** [m_data[c][r]] *)
Definition mget (M : Mat4) (c r : idx) : R :=
  vget (match c with i0 => c0 M | i1 => c1 M | i2 => c2 M | i3 => c3 M end) r.

(** A matrix filled by the double loop [for c ... for r ... m_data[c][r] = f c r]. *)
Definition mmk (f : idx -> idx -> R) : Mat4 :=
  mkMat4 (vmk (f i0)) (vmk (f i1)) (vmk (f i2)) (vmk (f i3)).

(** The entry in row [r] and column [c] of the matrix a [Mat4] stands for. *)
Definition entry (M : Mat4) (r c : idx) : R := mget M c r.

(** [m_data[c][r] = v] *)
Definition mset (M : Mat4) (c r : idx) (v : R) : Mat4 :=
  mmk (fun c' r' => if idx_eqb c c' && idx_eqb r r' then v else mget M c' r').

(** [Mat::Mat()]: [memset(m_data, 0, sizeof(m_data))]. *)
Definition Mat4_zero : Mat4 := mmk (fun _ _ => 0).

(** A [float m[4][4]] initialiser: four rows of four floats. *)
Record Arr44 : Type := mkArr { row0 : Vec4; row1 : Vec4; row2 : Vec4; row3 : Vec4 }.

(** [m[r][c]] *)
Definition aget (m : Arr44) (r c : idx) : R :=
  vget (match r with i0 => row0 m | i1 => row1 m | i2 => row2 m | i3 => row3 m end) c.

(** One row of such an initialiser. *)
#[local] Notation "[| a , b , c , d |]" := (mkVec4 a b c d)
  (at level 0, a at level 99, b at level 99, c at level 99, d at level 99).

(** [Mat::Mat(const float m[N][N])] and [operator=(const float m[N][N])]:
    [m_data[c][r] = m[r][c]]. *)
Definition Mat4_of_array (m : Arr44) : Mat4 := mmk (fun c r => aget m r c).

(** [Mat::setIdentity] *)
Definition setIdentity (_ : Mat4) : Mat4 :=
  mmk (fun c r => if idx_eqb c r then 1 else 0).

Definition identity : Mat4 := setIdentity Mat4_zero.

(** The accumulation [acc += f i] for [i = 0 .. 3], started from the
    zero the destination was cleared to. *)
Definition accumulate (f : idx -> R) : R :=
  fold_left (fun acc i => acc + f i) all_idx 0.

(** [Mat::operator*(const Mat&)]:
    [res.m_data[c][r] += m_data[i][r] * rhs.m_data[c][i]]. *)
Definition mmul (lhs rhs : Mat4) : Mat4 :=
  mmk (fun c r => accumulate (fun i => mget lhs i r * mget rhs c i)).

(** [Mat::operator*=(const Mat&)]: the receiver is copied to [tmp], cleared,
    and refilled with [tmp.m_data[i][r] * rhs.m_data[c][i]]. *)
Definition mmul_assign (this rhs : Mat4) : Mat4 :=
  let tmp := this in
  mmk (fun c r => accumulate (fun i => mget tmp i r * mget rhs c i)).

(** [Mat::operator*(const Vec&)]: [res[r] += m_data[c][r] * rhs[c]]. *)
Definition mvmul (M : Mat4) (rhs : Vec4) : Vec4 :=
  vmk (fun r => accumulate (fun c => mget M c r * vget rhs c)).

(** [Mat::transpose]: [m_data[c][r] = tmp.m_data[r][c]]. *)
Definition transpose (M : Mat4) : Mat4 :=
  let tmp := M in mmk (fun c r => mget tmp r c).

(** [Mat4::translation] *)
Definition translation (M : Mat4) : Vec3 :=
  mkVec3 (mget M i3 i0) (mget M i3 i1) (mget M i3 i2).

(** *** The elementary transforms: the [float m[4][4]] literal of each helper *)

Definition translate_array (x y z : R) : Arr44 :=
  mkArr [| 1, 0, 0, x |]
        [| 0, 1, 0, y |]
        [| 0, 0, 1, z |]
        [| 0, 0, 0, 1 |].

Definition translateLocalXZ_array (x z : R) : Arr44 :=
  mkArr [| 1, 0, 0, x |]
        [| 0, 1, 0, 0 |]
        [| 0, 0, 1, z |]
        [| 0, 0, 0, 1 |].

Definition rotateX_array (x : R) : Arr44 :=
  let cosx := cos x in
  let sinx := sin x in
  mkArr [| 1, 0, 0, 0 |]
        [| 0, cosx, - sinx, 0 |]
        [| 0, sinx, cosx, 0 |]
        [| 0, 0, 0, 1 |].

Definition rotateY_array (y : R) : Arr44 :=
  let cosy := cos y in
  let siny := sin y in
  mkArr [| cosy, 0, siny, 0 |]
        [| 0, 1, 0, 0 |]
        [| - siny, 0, cosy, 0 |]
        [| 0, 0, 0, 1 |].

Definition rotateZ_array (z : R) : Arr44 :=
  let cosz := cos z in
  let sinz := sin z in
  mkArr [| cosz, - sinz, 0, 0 |]
        [| sinz, cosz, 0, 0 |]
        [| 0, 0, 1, 0 |]
        [| 0, 0, 0, 1 |].

Definition rotateXYZ_array (x y z : R) : Arr44 :=
  let cx := cos x in
  let sx := sin x in
  let cy := cos y in
  let sy := sin y in
  let cz := cos z in
  let sz := sin z in
  mkArr [| cz * cy, cz * sy * sx - sz * cx, cz * sy * cx + sz * sx, 0 |]
        [| sz * cy, sz * sy * sx + cz * cx, sz * sy * cx - cz * sx, 0 |]
        [| - sy, cy * sx, cy * cx, 0 |]
        [| 0, 0, 0, 1 |].

Definition rotateXYZW_array (x y z w : R) : Arr44 :=
  let x2 := x * x in
  let y2 := y * y in
  let z2 := z * z in
  let w2 := w * w in
  mkArr [| 1 - 2 * y2 - 2 * z2, 2 * x * y - 2 * z * w, 2 * x * z + 2 * y * w, 0 |]
        [| 2 * x * y + 2 * z * w, 1 - 2 * x2 - 2 * z2, 2 * y * z - 2 * x * w, 0 |]
        [| 2 * x * z - 2 * y * w, 2 * y * z + 2 * x * w, 1 - 2 * x2 - 2 * y2, 0 |]
        [| 0, 0, 0, 1 |].

Definition scale_array (x y z : R) : Arr44 :=
  mkArr [| x, 0, 0, 0 |]
        [| 0, y, 0, 0 |]
        [| 0, 0, z, 0 |]
        [| 0, 0, 0, 1 |].

(** *** The composition helpers: [Mat4 tmp(m); *this = tmp * *this;] *)

Definition translate (x y z : R) (this : Mat4) : Mat4 :=
  let tmp := Mat4_of_array (translate_array x y z) in
  mmul tmp this.

(** [float y = m_data[3][1]; *this = *this * tmp; m_data[3][1] = y;] *)
Definition translateLocalXZ (x z : R) (this : Mat4) : Mat4 :=
  let tmp := Mat4_of_array (translateLocalXZ_array x z) in
  let y := mget this i3 i1 in
  let this' := mmul this tmp in
  mset this' i3 i1 y.

Definition rotateX (x : R) (this : Mat4) : Mat4 :=
  let tmp := Mat4_of_array (rotateX_array x) in
  mmul tmp this.

Definition rotateY (y : R) (this : Mat4) : Mat4 :=
  let tmp := Mat4_of_array (rotateY_array y) in
  mmul tmp this.

Definition rotateZ (z : R) (this : Mat4) : Mat4 :=
  let tmp := Mat4_of_array (rotateZ_array z) in
  mmul tmp this.

Definition rotateXYZ (x y z : R) (this : Mat4) : Mat4 :=
  let tmp := Mat4_of_array (rotateXYZ_array x y z) in
  mmul tmp this.

Definition rotateXYZW (x y z w : R) (this : Mat4) : Mat4 :=
  let tmp := Mat4_of_array (rotateXYZW_array x y z w) in
  mmul tmp this.

Definition scale (x y z : R) (this : Mat4) : Mat4 :=
  let tmp := Mat4_of_array (scale_array x y z) in
  mmul tmp this.

(** *** [Mat4::invert] *)

(** The local [res] of [Mat4::invert] once its sixteen assignments ran. *)
Definition invert_res (M : Mat4) : Mat4 :=
  let m := mget M in
  mmk (fun c r =>
  match c, r with
  (* res.m_data[0][0] *)
  | i0, i0 =>
      m i1 i1 * m i2 i2 * m i3 i3
      - m i1 i1 * m i2 i3 * m i3 i2
      - m i2 i1 * m i1 i2 * m i3 i3
      + m i2 i1 * m i1 i3 * m i3 i2
      + m i3 i1 * m i1 i2 * m i2 i3
      - m i3 i1 * m i1 i3 * m i2 i2
  (* res.m_data[1][0] *)
  | i1, i0 =>
      - m i1 i0 * m i2 i2 * m i3 i3
      + m i1 i0 * m i2 i3 * m i3 i2
      + m i2 i0 * m i1 i2 * m i3 i3
      - m i2 i0 * m i1 i3 * m i3 i2
      - m i3 i0 * m i1 i2 * m i2 i3
      + m i3 i0 * m i1 i3 * m i2 i2
  (* res.m_data[2][0] *)
  | i2, i0 =>
      m i1 i0 * m i2 i1 * m i3 i3
      - m i1 i0 * m i2 i3 * m i3 i1
      - m i2 i0 * m i1 i1 * m i3 i3
      + m i2 i0 * m i1 i3 * m i3 i1
      + m i3 i0 * m i1 i1 * m i2 i3
      - m i3 i0 * m i1 i3 * m i2 i1
  (* res.m_data[3][0] *)
  | i3, i0 =>
      - m i1 i0 * m i2 i1 * m i3 i2
      + m i1 i0 * m i2 i2 * m i3 i1
      + m i2 i0 * m i1 i1 * m i3 i2
      - m i2 i0 * m i1 i2 * m i3 i1
      - m i3 i0 * m i1 i1 * m i2 i2
      + m i3 i0 * m i1 i2 * m i2 i1
  (* res.m_data[0][1] *)
  | i0, i1 =>
      - m i0 i1 * m i2 i2 * m i3 i3
      + m i0 i1 * m i2 i3 * m i3 i2
      + m i2 i1 * m i0 i2 * m i3 i3
      - m i2 i1 * m i0 i3 * m i3 i2
      - m i3 i1 * m i0 i2 * m i2 i3
      + m i3 i1 * m i0 i3 * m i2 i2
  (* res.m_data[1][1] *)
  | i1, i1 =>
      m i0 i0 * m i2 i2 * m i3 i3
      - m i0 i0 * m i2 i3 * m i3 i2
      - m i2 i0 * m i0 i2 * m i3 i3
      + m i2 i0 * m i0 i3 * m i3 i2
      + m i3 i0 * m i0 i2 * m i2 i3
      - m i3 i0 * m i0 i3 * m i2 i2
  (* res.m_data[2][1] *)
  | i2, i1 =>
      - m i0 i0 * m i2 i1 * m i3 i3
      + m i0 i0 * m i2 i3 * m i3 i1
      + m i2 i0 * m i0 i1 * m i3 i3
      - m i2 i0 * m i0 i3 * m i3 i1
      - m i3 i0 * m i0 i1 * m i2 i3
      + m i3 i0 * m i0 i3 * m i2 i1
  (* res.m_data[3][1] *)
  | i3, i1 =>
      m i0 i0 * m i2 i1 * m i3 i2
      - m i0 i0 * m i2 i2 * m i3 i1
      - m i2 i0 * m i0 i1 * m i3 i2
      + m i2 i0 * m i0 i2 * m i3 i1
      + m i3 i0 * m i0 i1 * m i2 i2
      - m i3 i0 * m i0 i2 * m i2 i1
  (* res.m_data[0][2] *)
  | i0, i2 =>
      m i0 i1 * m i1 i2 * m i3 i3
      - m i0 i1 * m i1 i3 * m i3 i2
      - m i1 i1 * m i0 i2 * m i3 i3
      + m i1 i1 * m i0 i3 * m i3 i2
      + m i3 i1 * m i0 i2 * m i1 i3
      - m i3 i1 * m i0 i3 * m i1 i2
  (* res.m_data[1][2] *)
  | i1, i2 =>
      - m i0 i0 * m i1 i2 * m i3 i3
      + m i0 i0 * m i1 i3 * m i3 i2
      + m i1 i0 * m i0 i2 * m i3 i3
      - m i1 i0 * m i0 i3 * m i3 i2
      - m i3 i0 * m i0 i2 * m i1 i3
      + m i3 i0 * m i0 i3 * m i1 i2
  (* res.m_data[2][2] *)
  | i2, i2 =>
      m i0 i0 * m i1 i1 * m i3 i3
      - m i0 i0 * m i1 i3 * m i3 i1
      - m i1 i0 * m i0 i1 * m i3 i3
      + m i1 i0 * m i0 i3 * m i3 i1
      + m i3 i0 * m i0 i1 * m i1 i3
      - m i3 i0 * m i0 i3 * m i1 i1
  (* res.m_data[3][2] *)
  | i3, i2 =>
      - m i0 i0 * m i1 i1 * m i3 i2
      + m i0 i0 * m i1 i2 * m i3 i1
      + m i1 i0 * m i0 i1 * m i3 i2
      - m i1 i0 * m i0 i2 * m i3 i1
      - m i3 i0 * m i0 i1 * m i1 i2
      + m i3 i0 * m i0 i2 * m i1 i1
  (* res.m_data[0][3] *)
  | i0, i3 =>
      - m i0 i1 * m i1 i2 * m i2 i3
      + m i0 i1 * m i1 i3 * m i2 i2
      + m i1 i1 * m i0 i2 * m i2 i3
      - m i1 i1 * m i0 i3 * m i2 i2
      - m i2 i1 * m i0 i2 * m i1 i3
      + m i2 i1 * m i0 i3 * m i1 i2
  (* res.m_data[1][3] *)
  | i1, i3 =>
      m i0 i0 * m i1 i2 * m i2 i3
      - m i0 i0 * m i1 i3 * m i2 i2
      - m i1 i0 * m i0 i2 * m i2 i3
      + m i1 i0 * m i0 i3 * m i2 i2
      + m i2 i0 * m i0 i2 * m i1 i3
      - m i2 i0 * m i0 i3 * m i1 i2
  (* res.m_data[2][3] *)
  | i2, i3 =>
      - m i0 i0 * m i1 i1 * m i2 i3
      + m i0 i0 * m i1 i3 * m i2 i1
      + m i1 i0 * m i0 i1 * m i2 i3
      - m i1 i0 * m i0 i3 * m i2 i1
      - m i2 i0 * m i0 i1 * m i1 i3
      + m i2 i0 * m i0 i3 * m i1 i1
  (* res.m_data[3][3] *)
  | i3, i3 =>
      m i0 i0 * m i1 i1 * m i2 i2
      - m i0 i0 * m i1 i2 * m i2 i1
      - m i1 i0 * m i0 i1 * m i2 i2
      + m i1 i0 * m i0 i2 * m i2 i1
      + m i2 i0 * m i0 i1 * m i1 i2
      - m i2 i0 * m i0 i2 * m i1 i1
  end).

(** [float det = m_data[0][0] * res.m_data[0][0] + m_data[0][1] * res.m_data[1][0]
               + m_data[0][2] * res.m_data[2][0] + m_data[0][3] * res.m_data[3][0];] *)
Definition invert_det (M : Mat4) : R :=
  let res := invert_res M in
  mget M i0 i0 * mget res i0 i0 + mget M i0 i1 * mget res i1 i0
  + mget M i0 i2 * mget res i2 i0 + mget M i0 i3 * mget res i3 i0.

(** [if (det != 0.F) { det = 1.F / det; m_data[c][r] = res.m_data[c][r] * det; }
    return *this;] *)
Definition invert (M : Mat4) : Mat4 :=
  let res := invert_res M in
  let det := invert_det M in
  if Req_dec_T det 0 then M
  else
    let det' := 1 / det in
    mmk (fun c r => mget res c r * det').

(** [eulerToQuaternion] *)
Definition eulerToQuaternion (euler : Vec3) : Vec4 :=
  let halfX := x3 euler / 2 in
  let halfY := y3 euler / 2 in
  let halfZ := z3 euler / 2 in
  let cosHalfX := cos halfX in
  let cosHalfY := cos halfY in
  let cosHalfZ := cos halfZ in
  let sinHalfX := sin halfX in
  let sinHalfY := sin halfY in
  let sinHalfZ := sin halfZ in
  mkVec4 (sinHalfX * cosHalfY * cosHalfZ - cosHalfX * sinHalfY * sinHalfZ)
         (cosHalfX * sinHalfY * cosHalfZ + sinHalfX * cosHalfY * sinHalfZ)
         (cosHalfX * cosHalfY * sinHalfZ - sinHalfX * sinHalfY * cosHalfZ)
         (cosHalfX * cosHalfY * cosHalfZ + sinHalfX * sinHalfY * sinHalfZ).

(** [Vec::dot]: [res += m_data[i] * rhs.m_data[i]], from [0.f]. *)
Definition dot (this rhs : Vec4) : R :=
  accumulate (fun i => vget this i * vget rhs i).

(** [Vec::length] *)
Definition Vec_length (this : Vec4) : R := sqrt (dot this this).

(** [Vec::normalize]: [m_data[i] /= len]. *)
Definition normalize (this : Vec4) : Vec4 :=
  let len := Vec_length this in
  vmk (fun i => vget this i / len).

(** [RGBAColor] *)
Record RGBAColor : Type := mkRGBA { m_red : R; m_green : R; m_blue : R; m_alpha : R }.

(** [RGBAColor::RGBAColor()] *)
Definition RGBAColor_new : RGBAColor := mkRGBA 0 0 0 0.

End glutils.

(** ** Scene graph, cameras and renderer *)

Module core.
Import glutils.

#[local] Notation "[| a , b , c , d |]" := (mkVec4 a b c d)
  (at level 0, a at level 99, b at level 99, c at level 99, d at level 99).

(** [Node::Type] *)
Module NodeType.

Inductive t : Type := Empty | Mesh | Camera | Light.

Definition eqb (a b : t) : bool :=
  match a, b with
  | Empty, Empty | Mesh, Mesh | Camera, Camera | Light, Light => true
  | _, _ => false
  end.

End NodeType.

(** What a [NodePtr] points to when it is not null: a cell of the store. *)
Abbreviation NodeId := nat (only parsing).

(** A [MeshPtr] target.  What a mesh holds (primitives, materials) belongs
    to the graphics backend. *)
Abbreviation MeshId := nat (only parsing).

(** [Light::Type] and [Light] *)
Inductive LightType : Type := Invalid | Point | Directional | Spotlight.
Record Light : Type := mkLight { light_type : LightType }.

(** [Camera]: the state every camera shares is its projection matrix. *)
Record Camera : Type := mkCamera { projectionMatrix : Mat4 }.

(** [PerspectiveCamera : public Camera] *)
Record PerspectiveCamera : Type := mkPerspectiveCamera {
  pc_Camera : Camera;
  m_aspectRatio : R;
  m_yfov : R;
  m_znear : R;
  m_zfar : R
}.

(** [PerspectiveCamera::updateProjectionMatrix] *)
Definition updateProjectionMatrix (this : PerspectiveCamera) : PerspectiveCamera :=
  let store (m : Arr44) :=
    mkPerspectiveCamera (mkCamera (Mat4_of_array m))
      (m_aspectRatio this) (m_yfov this) (m_znear this) (m_zfar this) in
  if Rlt_dec 0 (m_zfar this) then
    (* Finite perspective *)
    let tanHalfFov := tan (m_yfov this * 0.5) in
    let nminusf := m_znear this - m_zfar this in
    store
      (mkArr
         [| 1 / (m_aspectRatio this * tanHalfFov), 0, 0, 0 |]
         [| 0, 1 / tanHalfFov, 0, 0 |]
         [| 0, 0, (m_zfar this + m_znear this) / nminusf,
                  (2 * m_zfar this * m_znear this) / nminusf |]
         [| 0, 0, -1, 0 |])
  else
    (* Infinite perspective *)
    let tanHalfFov := tan (m_yfov this * 0.5) in
    store
      (mkArr
         [| 1 / (m_aspectRatio this * tanHalfFov), 0, 0, 0 |]
         [| 0, 1 / tanHalfFov, 0, 0 |]
         [| 0, 0, -1, -2 * m_znear this |]
         [| 0, 0, -1, 0 |]).

(** [PerspectiveCamera::PerspectiveCamera]: the base [Camera()] leaves the
    default (all zero) matrix, then the projection is computed. *)
Definition PerspectiveCamera_new (aspectRatio yfov znear zfar : R) : PerspectiveCamera :=
  updateProjectionMatrix
    (mkPerspectiveCamera (mkCamera Mat4_zero) aspectRatio yfov znear zfar).

(** The members the classes derived from [Node] add. *)
Inductive Derived : Type :=
| IsNode
| IsMeshNode (m_mesh : option MeshId)
| IsCameraNode (m_camera : option Camera)
| IsLightNode (m_light : option Light) (m_lightPosition : Vec3).

(** [Node].  [m_parent] is the [std::weak_ptr], [m_children] the vector of
    shared pointers.  [recomputations] is a ghost counter, absent from the
    source: it counts the runs of [updateTransformMatrix]. *)
Record Node : Type := mkNode {
  m_name : string;
  m_type : NodeType.t;
  m_position : Vec3;
  m_rotation : Vec4;
  m_scaling : Vec3;
  m_transformMatrix : Mat4;
  m_parent : option NodeId;
  m_children : list (option NodeId);
  derived : Derived;
  recomputations : nat
}.

Definition with_type (n : Node) (t : NodeType.t) (d : Derived) : Node :=
  mkNode (m_name n) t (m_position n) (m_rotation n) (m_scaling n)
         (m_transformMatrix n) (m_parent n) (m_children n) d (recomputations n).

Definition with_derived (n : Node) (d : Derived) : Node :=
  with_type n (m_type n) d.

Definition with_position (n : Node) (p : Vec3) : Node :=
  mkNode (m_name n) (m_type n) p (m_rotation n) (m_scaling n)
         (m_transformMatrix n) (m_parent n) (m_children n) (derived n) (recomputations n).

Definition with_rotation (n : Node) (q : Vec4) : Node :=
  mkNode (m_name n) (m_type n) (m_position n) q (m_scaling n)
         (m_transformMatrix n) (m_parent n) (m_children n) (derived n) (recomputations n).

Definition with_scaling (n : Node) (s : Vec3) : Node :=
  mkNode (m_name n) (m_type n) (m_position n) (m_rotation n) s
         (m_transformMatrix n) (m_parent n) (m_children n) (derived n) (recomputations n).

Definition with_children (n : Node) (cs : list (option NodeId)) : Node :=
  mkNode (m_name n) (m_type n) (m_position n) (m_rotation n) (m_scaling n)
         (m_transformMatrix n) (m_parent n) cs (derived n) (recomputations n).

(** [Node::setTransformMatrix] *)
Definition setTransformMatrix (transformMatrix : Mat4) (n : Node) : Node :=
  mkNode (m_name n) (m_type n) (m_position n) (m_rotation n) (m_scaling n)
         transformMatrix (m_parent n) (m_children n) (derived n) (recomputations n).

(** [Node::Node(name, parent)] *)
Definition Node_new (name : string) (parent : option NodeId) : Node :=
  let m_transformMatrix := Mat4_zero in
  mkNode name NodeType.Empty (mkVec3 0 0 0) (mkVec4 0 0 0 1) (mkVec3 1 1 1)
         (* Initialize transform to an identity *)
         (setIdentity m_transformMatrix)
         parent [] IsNode 0.

(** [Node::updateTransformMatrix] *)
Definition updateTransformMatrix (n : Node) : Node :=
  (* Apply TRS *)
  let m := setIdentity (m_transformMatrix n) in
  let m := scale (x3 (m_scaling n)) (y3 (m_scaling n)) (z3 (m_scaling n)) m in
  let m := rotateXYZW (e0 (m_rotation n)) (e1 (m_rotation n)) (e2 (m_rotation n))
                      (e3 (m_rotation n)) m in
  let m := translate (x3 (m_position n)) (y3 (m_position n)) (z3 (m_position n)) m in
  mkNode (m_name n) (m_type n) (m_position n) (m_rotation n) (m_scaling n)
         m (m_parent n) (m_children n) (derived n) (S (recomputations n)).

(** [Node::setPosition] *)
Definition setPosition (x y z : R) (n : Node) : Node :=
  (* Store value and update matrix *)
  updateTransformMatrix (with_position n (mkVec3 x y z)).

(** [Node::setRotationEuler] *)
Definition setRotationEuler (x y z : R) (n : Node) : Node :=
  updateTransformMatrix (with_rotation n (eulerToQuaternion (mkVec3 x y z))).

(** [Node::setRotationQuaternion] *)
Definition setRotationQuaternion (x y z w : R) (n : Node) : Node :=
  updateTransformMatrix (with_rotation n (mkVec4 x y z w)).

(** [Node::setScaling] *)
Definition setScaling (x y z : R) (n : Node) : Node :=
  updateTransformMatrix (with_scaling n (mkVec3 x y z)).

(** [Node::addChild] *)
Definition addChild (node : option NodeId) (n : Node) : Node :=
  with_children n (m_children n ++ [node]).

(** The four setters as data, to speak about sequences of calls. *)
Inductive Setter : Type :=
| SetPosition (x y z : R)
| SetRotationEuler (x y z : R)
| SetRotationQuaternion (x y z w : R)
| SetScaling (x y z : R).

Definition call (s : Setter) (n : Node) : Node :=
  match s with
  | SetPosition x y z => setPosition x y z n
  | SetRotationEuler x y z => setRotationEuler x y z n
  | SetRotationQuaternion x y z w => setRotationQuaternion x y z w n
  | SetScaling x y z => setScaling x y z n
  end.

Definition calls (ss : list Setter) (n : Node) : Node :=
  fold_left (fun n s => call s n) ss n.

(** Modelled from the spec: the constructors of [MeshNode], [CameraNode] and
    [LightNode], whose definitions are not among the sources.  Each runs
    [Node(name, parent)], fixes the node type and leaves its payload null. *)
Inductive NodeClass : Type := CNode | CMeshNode | CCameraNode | CLightNode.

Definition construct (T : NodeClass) (name : string) (parent : option NodeId) : Node :=
  let base := Node_new name parent in
  match T with
  | CNode => base
  | CMeshNode => with_type base NodeType.Mesh (IsMeshNode None)
  | CCameraNode => with_type base NodeType.Camera (IsCameraNode None)
  | CLightNode => with_type base NodeType.Light (IsLightNode None (mkVec3 0 0 0))
  end.

(** [MeshNode::setMesh], [CameraNode::setCamera], [LightNode::setLight],
    [LightNode::setLightPosition].  On a node of another class the call
    does not type check in the source; the model leaves such a node alone. *)
Definition setMesh (mesh : option MeshId) (n : Node) : Node :=
  match derived n with IsMeshNode _ => with_derived n (IsMeshNode mesh) | _ => n end.

Definition setCamera (camera : option Camera) (n : Node) : Node :=
  match derived n with IsCameraNode _ => with_derived n (IsCameraNode camera) | _ => n end.

Definition setLight (light : option Light) (n : Node) : Node :=
  match derived n with IsLightNode _ p => with_derived n (IsLightNode light p) | _ => n end.

Definition setLightPosition (lightPosition : Vec3) (n : Node) : Node :=
  match derived n with IsLightNode l _ => with_derived n (IsLightNode l lightPosition) | _ => n end.

(** *** The store *)

(** Every node object ever allocated has a cell; a destroyed object leaves
    [None] behind, so that handles are never reused. *)
Abbreviation Store := (list (option Node)) (only parsing).

(** The object behind a handle, if it is still alive. *)
Definition deref (st : Store) (id : NodeId) : option Node :=
  match st !! id with
  | Some (Some n) => Some n
  | _ => None
  end.

(** [std::weak_ptr::lock] *)
Definition lock (st : Store) (w : option NodeId) : option NodeId :=
  match w with
  | Some p => match deref st p with Some _ => Some p | None => None end
  | None => None
  end.

(** [Node::parent] *)
Definition parent (st : Store) (n : Node) : option NodeId := lock st (m_parent n).

(** A method that mutates the object behind [id]. *)
Definition update (id : NodeId) (f : Node -> Node) (st : Store) : Store :=
  match deref st id with
  | Some n => <[id := Some (f n)]> st
  | None => st
  end.


(** [Node::totalTransformMatrix].  The recursion climbs the parent chain;
    [fuel] bounds its depth and [None] means the bound was too small. *)
Fixpoint totalTransformMatrix (fuel : nat) (st : Store) (id : NodeId) : option Mat4 :=
  match fuel with
  | O => None
  | S fuel =>
    match deref st id with
    | None => None
    | Some this =>
      (* Start from current transform *)
      let retval := m_transformMatrix this in
      (* Get parent if any *)
      match parent st this with
      | Some parentNode =>
        (* Apply parent transform *)
        match totalTransformMatrix fuel st parentNode with
        | Some ptotal => Some (mmul ptotal retval)
        | None => None
        end
      | None => Some retval
      end
    end
  end.

(** *** Outcomes *)

Inductive Res (A : Type) : Type :=
| Ok (a : A)
| Throw (what : string)
| NoBehaviour.
Arguments Ok {A} a.
Arguments Throw {A} what.
Arguments NoBehaviour {A}.

(** *** Scene *)

(** [DrawingContext], seen from the scene graph: whether its device is open. *)
Record DrawingContext : Type := mkDrawingContext { isDeviceOpen : bool }.

Record Scene : Type := mkScene {
  scene_name : string;
  m_drawingContext : option DrawingContext;
  m_rootNode : option NodeId;
  m_activeCameraNode : option NodeId
}.

(** [Scene::Scene]: the root is [Node(std::string(), nullptr)]. *)
Definition Scene_new (name : string) (drawingContext : option DrawingContext)
    (st : Store) : Res (Scene * Store) :=
  let m_rootNode := Some (length st) in
  let st := st ++ [Some (Node_new EmptyString None)] in
  match drawingContext with
  | None => Throw "Invalid drawing context"
  | Some _ => Ok (mkScene name drawingContext m_rootNode None, st)
  end.

(** [Scene::setActiveCameraNode] *)
Definition setActiveCameraNode (cameraNode : option NodeId) (s : Scene) : Scene :=
  mkScene (scene_name s) (m_drawingContext s) (m_rootNode s) cameraNode.

(** [Scene::createNode<T>].  The new object gets the next free handle; the
    scene itself is not consulted. *)
Definition createNode (T : NodeClass) (this : Scene) (name : string)
    (parent : option NodeId) (st : Store) : Res (NodeId * Store) :=
  match parent with
  | None =>
    (* Check parent pointer validity *)
    Throw "Invalid node parent"
  | Some p =>
    match deref st p with
    | None => NoBehaviour
    | Some _ =>
      (* Create node *)
      let newNode := length st in
      let st := st ++ [Some (construct T name parent)] in
      (* Add to parent *)
      let st := update p (addChild (Some newNode)) st in
      Ok (newNode, st)
    end
  end.

(** [Scene::parseNodeForLight]: a null node is skipped, a light node is
    cast to [LightNode] and pushed, then the children are parsed. *)
Fixpoint parseNodeForLight (fuel : nat) (st : Store) (node : option NodeId)
    (lightVec : list (option NodeId)) : option (list (option NodeId)) :=
  match fuel with
  | O => None
  | S fuel =>
    match node with
    | None => Some lightVec
    | Some id =>
      match deref st id with
      | None => None
      | Some n =>
        let lightVec :=
          if NodeType.eqb NodeType.Light (m_type n) then
            lightVec ++ [match derived n with IsLightNode _ _ => Some id | _ => None end]
          else lightVec in
        fold_left
          (fun acc child =>
             match acc with
             | Some lightVec => parseNodeForLight fuel st child lightVec
             | None => None
             end)
          (m_children n) (Some lightVec)
      end
    end
  end.

(** [Scene::getLightNodes] *)
Definition getLightNodes (fuel : nat) (st : Store) (this : Scene)
    : option (list (option NodeId)) :=
  parseNodeForLight fuel st (m_rootNode this) [].

(** *** Renderer *)

(** What a frame asks of the graphics backend, in the order it is asked.
    The calls themselves are outside the model and taken to succeed. *)
Inductive Event : Type :=
| EvActivate
| EvGlState
| EvClear (bgColor : RGBAColor)
| EvDraw (mesh : MeshId) (mvMatrix projMatrix normalMatrix : Mat4)
         (lightVec : list (option NodeId))
| EvPresent.

Record Renderer : Type := mkRenderer {
  m_viewMatrix : Mat4;
  m_projectionMatrix : Mat4;
  m_bgColor : RGBAColor
}.

(** [Renderer::Renderer] *)
Definition Renderer_new : Renderer := mkRenderer Mat4_zero Mat4_zero RGBAColor_new.

(** [Renderer::setBgColor] *)
Definition setBgColor (bgColor : RGBAColor) (this : Renderer) : Renderer :=
  mkRenderer (m_viewMatrix this) (m_projectionMatrix this) bgColor.

(** The effects of a piece of the traversal and how it ended.  After a
    [Throw] the events already issued stay issued. *)
Definition Trace : Type := (list Event * Res unit)%type.

(** Sequencing: [k] runs only if the first part returned. *)
Definition andThen (m : Trace) (k : unit -> Trace) : Trace :=
  match m with
  | (evs, Ok tt) => let '(evs', r) := k tt in (evs ++ evs', r)
  | (evs, Throw what) => (evs, Throw what)
  | (evs, NoBehaviour) => (evs, NoBehaviour)
  end.

(** [for (auto& x : xs) body(x);] *)
Fixpoint forEach {A : Type} (xs : list A) (body : A -> Trace) : Trace :=
  match xs with
  | [] => ([], Ok tt)
  | x :: xs => andThen (body x) (fun _ => forEach xs body)
  end.

(** The part of [Renderer::renderNode] between the world transform and the
    recursion: a node of type [Mesh] is cast to [MeshNode] and, if it has a
    mesh, the mesh is drawn. *)
Definition drawMesh (this : Renderer) (n : Node) (modelMatrix : Mat4)
    (lightVec : list (option NodeId)) : Trace :=
  (* Check for mesh type *)
  if NodeType.eqb NodeType.Mesh (m_type n) then
    match derived n with
    | IsMeshNode (Some mesh) =>
      (* Calculate model-view matrix *)
      let mvMatrix := m_viewMatrix this in
      let mvMatrix := mmul_assign mvMatrix modelMatrix in
      (* Calculate normal matrix *)
      let normalMatrix := modelMatrix in
      let normalMatrix := invert normalMatrix in
      let normalMatrix := transpose normalMatrix in
      (* Draw mesh *)
      ([EvDraw mesh mvMatrix (m_projectionMatrix this) normalMatrix lightVec], Ok tt)
    | IsMeshNode None => ([], Ok tt)
    | _ => ([], NoBehaviour)
    end
  else ([], Ok tt).

(** [Renderer::renderNode] *)
Fixpoint renderNode (fuel : nat) (st : Store) (this : Renderer) (node : option NodeId)
    (parentXform : Mat4) (lightVec : list (option NodeId)) : Trace :=
  match fuel with
  | O => ([], NoBehaviour)
  | S fuel =>
    (* Check for valid node *)
    match node with
    | Some id =>
      match deref st id with
      | None => ([], NoBehaviour)
      | Some n =>
        (* Get world transform *)
        let modelMatrix := mmul parentXform (m_transformMatrix n) in
        andThen (drawMesh this n modelMatrix lightVec) (fun _ =>
        (* Recursion on children *)
        forEach (m_children n) (fun childNode =>
          renderNode fuel st this childNode modelMatrix lightVec))
      end
    | None => ([], Throw "Found null node during rendering")
    end
  end.

(** [cameraNode->camera()] on a [CameraNodePtr]. *)
Definition camera (st : Store) (cameraNode : NodeId) : Res (option Camera) :=
  match deref st cameraNode with
  | Some n => match derived n with IsCameraNode c => Ok c | _ => NoBehaviour end
  | None => NoBehaviour
  end.

(** The loop of [Renderer::render] over the light vector. *)
Definition placeLight (fuel : nat) (this : Renderer) (st : Store)
    (lightNode : option NodeId) : option Store :=
  match lightNode with
  | None => None
  | Some id =>
    match totalTransformMatrix fuel st id with
    | None => None
    | Some total =>
      (* Apply view matrix to total light node transform (i.e. model matrix) *)
      let lightMVMx := m_viewMatrix this in
      let lightMVMx := mmul_assign lightMVMx total in
      (* Transform light node local origin with model-view matrix *)
      let lightPos := mkVec4 0 0 0 1 in
      let lightPos := mvmul lightMVMx lightPos in
      let lightPos := vdiv lightPos (vget lightPos i3) in
      (* Set light position in the view coordinate system *)
      Some (update id
              (setLightPosition
                 (mkVec3 (vget lightPos i0) (vget lightPos i1) (vget lightPos i2)))
              st)
    end
  end.

Definition placeLights (fuel : nat) (this : Renderer) (lightVec : list (option NodeId))
    (st : Store) : option Store :=
  fold_left
    (fun acc lightNode =>
       match acc with
       | Some st => placeLight fuel this st lightNode
       | None => None
       end)
    lightVec (Some st).

(** The state a call of [Renderer::render] leaves behind. *)
Record Frame : Type := mkFrame {
  f_renderer : Renderer;
  f_store : Store;
  f_events : list Event;
  f_result : Res unit
}.

(** [Renderer::render] *)
Definition render (fuel : nat) (this : Renderer) (scene : option Scene) (st : Store)
    : Frame :=
  (* Check for valid scene *)
  match scene with
  | None => mkFrame this st [] (Throw "Invalid scene")
  | Some scene =>
  (* Check for valid drawing context *)
  match m_drawingContext scene with
  | None => mkFrame this st [] (Throw "Invalid drawing context")
  | Some drawingContext =>
  (* Do nothing if device is not open *)
  if negb (isDeviceOpen drawingContext) then mkFrame this st [] (Ok tt)
  else
  (* Activate the scene *)
  let evs := [EvActivate] in
  (* Check for valid active camera *)
  match m_activeCameraNode scene with
  | None => mkFrame this st evs (Throw "Invalid camera node")
  | Some cameraNode =>
  (* Get view matrix as inverse of camera node transform *)
  match totalTransformMatrix fuel st cameraNode with
  | None => mkFrame this st evs NoBehaviour
  | Some total =>
  let this := mkRenderer (invert total) (m_projectionMatrix this) (m_bgColor this) in
  (* Check for valid camera *)
  match camera st cameraNode with
  | NoBehaviour | Throw _ => mkFrame this st evs NoBehaviour
  | Ok None => mkFrame this st evs (Throw "Invalid camera")
  | Ok (Some cam) =>
  (* Get projection matrix from camera *)
  let this := mkRenderer (m_viewMatrix this) (projectionMatrix cam) (m_bgColor this) in
  (* Get light vector from scene and set their position in the view *)
  match getLightNodes fuel st scene with
  | None => mkFrame this st evs NoBehaviour
  | Some lightVec =>
  match placeLights fuel this lightVec st with
  | None => mkFrame this st evs NoBehaviour
  | Some st =>
  (* Culling, depth test, clear *)
  let evs := evs ++ [EvGlState; EvClear (m_bgColor this)] in
  (* Render nodes starting from root *)
  let ident := setIdentity Mat4_zero in
  match renderNode fuel st this (m_rootNode scene) ident lightVec with
  | (draws, Ok tt) =>
    (* Finalize the draw *)
    mkFrame this st (evs ++ draws ++ [EvPresent]) (Ok tt)
  | (draws, r) => mkFrame this st (evs ++ draws) r
  end
  end end end end end end end.

(** Whether a frame issued a draw call. *)
Definition is_draw (e : Event) : bool :=
  match e with EvDraw _ _ _ _ _ => true | _ => false end.

Definition draws (evs : list Event) : list Event := List.filter is_draw evs.

End core.

(** ** Events *)

Module port.

(** [Event::EventType], an enumeration over [uint32_t].  Filters are built
    by or-ing the values, so a value of the type is any 32-bit word. *)
Abbreviation EventType := Z (only parsing).

Definition NoEvent : Z := 0x0.
Definition CloseEv : Z := 0x1.
Definition AllSystemEvents : Z := 0xF.
Definition KeyPressEv : Z := 0x10.
Definition KeyReleaseEv : Z := 0x20.
Definition AllKeyEvents : Z := 0xF0.
Definition TouchPressEv : Z := 0x100.
Definition TouchReleaseEv : Z := 0x200.
Definition TouchMoveEv : Z := 0x300.
Definition AllTouchEvents : Z := 0xF00.
Definition Custom0Ev : Z := 0x1000.
Definition Custom1Ev : Z := 0x2000.
Definition Custom2Ev : Z := 0x3000.
Definition Custom3Ev : Z := 0x4000.
Definition Custom4Ev : Z := 0x5000.
Definition Custom5Ev : Z := 0x6000.
Definition Custom6Ev : Z := 0x7000.
Definition Custom7Ev : Z := 0x8000.
Definition Custom8Ev : Z := 0x9000.
Definition Custom9Ev : Z := 0xA000.
Definition Custom10Ev : Z := 0xB000.
Definition Custom11Ev : Z := 0xC000.
Definition Custom12Ev : Z := 0xD000.
Definition Custom13Ev : Z := 0xE000.
Definition AllCustomEvents : Z := 0xF000.
Definition AllEvents : Z := 0xFFFF.

(** The enumerators that name one event, as opposed to a group. *)
Definition single_events : list Z :=
  [CloseEv; KeyPressEv; KeyReleaseEv; TouchPressEv; TouchReleaseEv; TouchMoveEv;
   Custom0Ev; Custom1Ev; Custom2Ev; Custom3Ev; Custom4Ev; Custom5Ev; Custom6Ev;
   Custom7Ev; Custom8Ev; Custom9Ev; Custom10Ev; Custom11Ev; Custom12Ev; Custom13Ev].

(** [KeyEvent::KeyType] *)
Inductive KeyType : Type :=
| KeyInvalid
| KeyA | KeyB | KeyC | KeyD | KeyE | KeyF | KeyG | KeyH | KeyI | KeyJ | KeyK | KeyL
| KeyM | KeyN | KeyO | KeyP | KeyQ | KeyR | KeyS | KeyT | KeyU | KeyV | KeyW | KeyX
| KeyY | KeyZ
| Key0 | Key1 | Key2 | Key3 | Key4 | Key5 | Key6 | Key7 | Key8 | Key9
| KeyLeft | KeyRight | KeyUp | KeyDown | KeyEsc.

(** [TouchEvent::TouchType] *)
Inductive TouchType : Type :=
| TouchInvalid | TouchLeft | TouchMiddle | TouchRight | TouchScrollUp | TouchScrollDown.

(** The dynamic class of an event object and the members it adds:
    [Event], [SystemEvent], [KeyEvent] with its key, [TouchEvent] with its
    button and the [int32_t] coordinates. *)
Inductive EventClass : Type :=
| IsEvent
| IsSystemEvent
| IsKeyEvent (m_key : KeyType)
| IsTouchEvent (m_touchType : TouchType) (m_x m_y : Z).

Record Event : Type := mkEvent { event_type : Z; event_class : EventClass }.

(** [Event::getEvent<KeyEvent>]: the dynamic cast, null on another class. *)
Definition getKeyEvent (ev : Event) : option KeyType :=
  match event_class ev with IsKeyEvent k => Some k | _ => None end.

(** [Event::getEvent<TouchEvent>] *)
Definition getTouchEvent (ev : Event) : option (Z * Z) :=
  match event_class ev with IsTouchEvent _ x y => Some (x, y) | _ => None end.

(** The values of an [int32_t]. *)
Definition in_int32 (z : Z) : bool := (-2147483648 <=? z)%Z && (z <=? 2147483647)%Z.

End port.

(** ** Event dispatcher *)

Module dispatcher.
Import port.

Section Dispatcher.

(** What a [std::function<void(port::EventPtr)>] holds when it is not empty. *)
Context {Clbk : Type}.

(** [EventDispatcher]: the next handle and the map from handles to
    (callback, filter) pairs.  An empty [std::function] is [None].  The
    input device is left to [processEvents]. *)
Record EventDispatcher : Type := mkDispatcher {
  m_nextHandle : Z;
  m_clbkMap : gmap Z (option Clbk * Z)
}.

(** [EventDispatcher::EventDispatcher] *)
Definition EventDispatcher_new : EventDispatcher := mkDispatcher 0 ∅.

(** [EventDispatcher::createHandle]: [emplace] leaves an entry that is
    already there alone.  Incrementing the largest [int32_t] is undefined
    and gives [None]. *)
Definition createHandle (this : EventDispatcher) : option (Z * EventDispatcher) :=
  let handle := m_nextHandle this in
  if in_int32 (handle + 1) then
    let m :=
      match m_clbkMap this !! handle with
      | Some _ => m_clbkMap this
      | None => <[handle := (None, NoEvent)]> (m_clbkMap this)
      end in
    Some (handle, mkDispatcher (handle + 1) m)
  else None.

(** [EventDispatcher::destroyHandle] *)
Definition destroyHandle (handle : Z) (this : EventDispatcher) : EventDispatcher :=
  match m_clbkMap this !! handle with
  | Some _ => mkDispatcher (m_nextHandle this) (delete handle (m_clbkMap this))
  | None => this
  end.

(** [EventDispatcher::registerHandler] *)
Definition registerHandler (handle : Z) (clbk : option Clbk) (filter : Z)
    (this : EventDispatcher) : EventDispatcher :=
  mkDispatcher (m_nextHandle this) (<[handle := (clbk, filter)]> (m_clbkMap this)).

(** [EventDispatcher::unregisterHandler] *)
Definition unregisterHandler (handle : Z) (this : EventDispatcher) : EventDispatcher :=
  mkDispatcher (m_nextHandle this) (<[handle := (None, NoEvent)]> (m_clbkMap this)).

(** The test of [dispatchEvent] on one entry of the map:
    [(func) && (0 != (evType & filter))]. *)
Definition wants (evType : Z) (entry : option Clbk * Z) : option Clbk :=
  match fst entry with
  | Some func => if negb (Z.land evType (snd entry) =? 0)%Z then Some func else None
  | None => None
  end.

(** [EventDispatcher::dispatchEvent]: the callbacks it calls with the
    event, in the order the map is iterated (which [std::unordered_map]
    leaves open). *)
Definition dispatchEvent (event : option Event) (this : EventDispatcher)
    : list (Clbk * Event) :=
  match event with
  | Some ev =>
    let evType := event_type ev in
    omap (fun '(_, entry) =>
            match wants evType entry with
            | Some func => Some (func, ev)
            | None => None
            end)
         (map_to_list (m_clbkMap this))
  | None => []
  end.

End Dispatcher.

Arguments EventDispatcher : clear implicits.

End dispatcher.

(** ** First-person camera controller *)

Module controller.
Import glutils core port dispatcher.

(** [FPSCameraController].  The dispatcher is a shared object and is
    passed where it is used. *)
Record FPSCameraController : Type := mkController {
  m_cameraNode : nat;
  m_handle : Z;
  m_fwdPressed : bool;
  m_backPressed : bool;
  m_leftPressed : bool;
  m_rightPressed : bool;
  m_lastX : Z;
  m_lastY : Z;
  m_nextX : Z;
  m_nextY : Z;
  m_rotation : Vec3
}.

(** [FPSCameraController::FPSCameraController].  [self] stands for the
    bound member function [BIND_CALLBACK(&FPSCameraController::eventCallback)]. *)
Definition FPSCameraController_new {Clbk : Type} (self : Clbk)
    (dispatcher : option (EventDispatcher Clbk)) (node : option nat)
    : Res (FPSCameraController * EventDispatcher Clbk) :=
  match dispatcher, node with
  | Some d, Some cameraNode =>
    (* Register event callback *)
    let filter := Z.lor AllKeyEvents AllTouchEvents in
    match createHandle d with
    | Some (handle, d) =>
      let d := registerHandler handle (Some self) filter d in
      Ok (mkController cameraNode handle false false false false 0 0 0 0
            (mkVec3 0 0 0), d)
    | None => NoBehaviour
    end
  | _, _ => Throw "Invalid dispatcher or node"
  end.

(** [FPSCameraController::~FPSCameraController] *)
Definition FPSCameraController_delete {Clbk : Type} (this : FPSCameraController)
    (d : EventDispatcher Clbk) : EventDispatcher Clbk :=
  destroyHandle (m_handle this) (unregisterHandler (m_handle this) d).

Definition with_keys (this : FPSCameraController) (fwd back left right : bool)
    : FPSCameraController :=
  mkController (m_cameraNode this) (m_handle this) fwd back left right
    (m_lastX this) (m_lastY this) (m_nextX this) (m_nextY this) (m_rotation this).

Definition with_pointer (this : FPSCameraController) (lastX lastY nextX nextY : Z)
    : FPSCameraController :=
  mkController (m_cameraNode this) (m_handle this)
    (m_fwdPressed this) (m_backPressed this) (m_leftPressed this) (m_rightPressed this)
    lastX lastY nextX nextY (m_rotation this).

(** [FPSCameraController::eventCallback].  [s_first] is the function's
    [static bool], one for the whole program.  A key or pointer-move type on
    an object of another class makes the cast null and its use undefined:
    [None]. *)
Definition eventCallback (event : option Event)
    (state : bool * FPSCameraController) : option (bool * FPSCameraController) :=
  let '(s_first, this) := state in
  match event with
  | None => Some state
  | Some ev =>
    if ((event_type ev =? KeyPressEv) || (event_type ev =? KeyReleaseEv))%Z then
      (* Key event, update direction flags *)
      match getKeyEvent ev with
      | None => None
      | Some key =>
        let pressed := (KeyPressEv =? event_type ev)%Z in
        Some (s_first,
              match key with
              | KeyW => with_keys this pressed (m_backPressed this)
                          (m_leftPressed this) (m_rightPressed this)
              | KeyA => with_keys this (m_fwdPressed this) (m_backPressed this)
                          pressed (m_rightPressed this)
              | KeyS => with_keys this (m_fwdPressed this) pressed
                          (m_leftPressed this) (m_rightPressed this)
              | KeyD => with_keys this (m_fwdPressed this) (m_backPressed this)
                          (m_leftPressed this) pressed
              | _ => this
              end)
      end
    else if (event_type ev =? TouchMoveEv)%Z then
      (* Touch event, store coordinates *)
      match getTouchEvent ev with
      | None => None
      | Some (x, y) =>
        (* If these are the first coordinates, save previous as well *)
        let lastX := if s_first then x else m_lastX this in
        let lastY := if s_first then y else m_lastY this in
        (* Save coordinates *)
        Some (false, with_pointer this lastX lastY x y)
      end
    else Some state
  end.

(** [std::min(std::max(v, lo), hi)] *)
Definition clamp (v lo hi : R) : R := Rmin (Rmax v lo) hi.

(** [FPSCameraController::process].  The differences of the coordinates
    are [int32_t]; one that does not fit is undefined, as is a camera node
    that is gone: [None]. *)
Definition process (this : FPSCameraController) (st : list (option Node))
    : option (FPSCameraController * list (option Node)) :=
  let PI2 := PI / 2 in
  match deref st (m_cameraNode this) with
  | None => None
  | Some node =>
    (* Get camera transform *)
    let xform := m_transformMatrix node in
    let translation := translation xform in
    (* Reset *)
    let xform := setIdentity xform in
    (* Get delta from previous position *)
    let deltaX := (m_nextX this - m_lastX this)%Z in
    let deltaY := (m_nextY this - m_lastY this)%Z in
    if negb (in_int32 deltaX && in_int32 deltaY) then None
    else
      (* Convert into some rotation angles *)
      let angY := IZR deltaX / 1000 * PI in
      let angX := IZR deltaY / 400 * PI in
      (* Update rotation angles, clamping rotation on X between -PI/2 and PI/2 *)
      let rot0 := clamp (x3 (m_rotation this) - angX) (- PI2) PI2 in
      let rot1 := y3 (m_rotation this) - angY in
      (* Rotate (YXZ order) and restore translation *)
      let xform := rotateX rot0 xform in
      let xform := rotateY rot1 xform in
      let xform := translate (x3 translation) (y3 translation) (z3 translation) xform in
      (* Determine direction based on pressed keys *)
      let moveZ := 0 in
      let moveZ := moveZ + (if m_fwdPressed this then - 0.05 else 0) in
      let moveZ := moveZ + (if m_backPressed this then 0.05 else 0) in
      let moveX := 0 in
      let moveX := moveX + (if m_leftPressed this then - 0.05 else 0) in
      let moveX := moveX + (if m_rightPressed this then 0.05 else 0) in
      (* Translate in the local coordinate system (i.e. after previous transforms) *)
      let xform := translateLocalXZ moveX moveZ xform in
      (* Apply new transform to camera node *)
      Some (mkController (m_cameraNode this) (m_handle this)
              (m_fwdPressed this) (m_backPressed this)
              (m_leftPressed this) (m_rightPressed this)
              (m_nextX this) (m_nextY this) (m_nextX this) (m_nextY this)
              (mkVec3 rot0 rot1 (z3 (m_rotation this))),
            update (m_cameraNode this) (setTransformMatrix xform) st)
  end.

End controller.

(** ** Reference definitions the theorems compare the code with *)

Module Spec.
Import glutils.

(** A matrix as mathematics has it: the entry of row [r] and column [c]. *)
Definition Matrix : Type := idx -> idx -> R.

(** The row-by-column product. *)
Definition product (A B : Matrix) : Matrix :=
  fun r c => A r i0 * B i0 c + A r i1 * B i1 c + A r i2 * B i2 c + A r i3 * B i3 c.

(** The matrix a [float m[4][4]] literal denotes, read row by row. *)
Definition of_array (m : Arr44) : Matrix := fun r c => aget m r c.

(** The three indices left when [i] is struck out, in increasing order. *)
Definition others (i : idx) : idx * idx * idx :=
  match i with
  | i0 => (i1, i2, i3)
  | i1 => (i0, i2, i3)
  | i2 => (i0, i1, i3)
  | i3 => (i0, i1, i2)
  end.

Definition position (i : idx) : nat :=
  match i with i0 => 0 | i1 => 1 | i2 => 2 | i3 => 3 end.

(** The 3x3 determinant of the minor that strikes row [r] and column [c]. *)
Definition minor (A : Matrix) (r c : idx) : R :=
  let '(ra, rb, rc) := others r in
  let '(ca, cb, cc) := others c in
  A ra ca * (A rb cb * A rc cc - A rb cc * A rc cb)
  - A ra cb * (A rb ca * A rc cc - A rb cc * A rc ca)
  + A ra cc * (A rb ca * A rc cb - A rb cb * A rc ca).

(** The cofactor of the entry in row [r] and column [c]. *)
Definition cofactor (A : Matrix) (r c : idx) : R :=
  (if Nat.even (position r + position c) then 1 else -1) * minor A r c.

(** The determinant, expanded along the first row. *)
Definition det (A : Matrix) : R :=
  A i0 i0 * cofactor A i0 i0 + A i0 i1 * cofactor A i0 i1
  + A i0 i2 * cofactor A i0 i2 + A i0 i3 * cofactor A i0 i3.

(** The adjugate: the transposed matrix of cofactors. *)
Definition adjugate (A : Matrix) : Matrix := fun r c => cofactor A c r.

(** The elementary transforms as [Mat4] values. *)
Definition Translate (p : Vec3) : Mat4 :=
  Mat4_of_array (translate_array (x3 p) (y3 p) (z3 p)).

Definition Rotate (q : Vec4) : Mat4 :=
  Mat4_of_array (rotateXYZW_array (e0 q) (e1 q) (e2 q) (e3 q)).

Definition Scale (s : Vec3) : Mat4 :=
  Mat4_of_array (scale_array (x3 s) (y3 s) (z3 s)).

(** Translation, then rotation, then scale innermost. *)
Definition TRS (p : Vec3) (q : Vec4) (s : Vec3) : Mat4 :=
  mmul (Translate p) (mmul (Rotate q) (Scale s)).

End Spec.

(** ** The elementary transforms as maps of space

    What a translation, a scaling and a rotation do to a point, and the
    matrices of these maps in homogeneous coordinates.  Nothing here is
    taken from the program. *)

Module Geometry.
Import glutils Spec.

Definition add3 (u v : Vec3) : Vec3 := mkVec3 (x3 u + x3 v) (y3 u + y3 v) (z3 u + z3 v).

Definition scale3 (k : R) (v : Vec3) : Vec3 := mkVec3 (k * x3 v) (k * y3 v) (k * z3 v).

Definition dot3 (u v : Vec3) : R := x3 u * x3 v + y3 u * y3 v + z3 u * z3 v.

Definition cross3 (u v : Vec3) : Vec3 :=
  mkVec3 (y3 u * z3 v - z3 u * y3 v)
         (z3 u * x3 v - x3 u * z3 v)
         (x3 u * y3 v - y3 u * x3 v).

Definition zero3 : Vec3 := mkVec3 0 0 0.

(** The coordinate of a vector of space along one of the first three
    indices. *)
Definition coordinate (v : Vec3) (i : idx) : R :=
  match i with i0 => x3 v | i1 => y3 v | i2 => z3 v | i3 => 0 end.

(** The unit vectors of the X, Y and Z axes. *)
Definition axis (i : idx) : Vec3 :=
  match i with
  | i0 => mkVec3 1 0 0
  | i1 => mkVec3 0 1 0
  | i2 => mkVec3 0 0 1
  | i3 => zero3
  end.

(** A point of space in homogeneous coordinates. *)
Definition point (p : Vec3) : Vec4 := mkVec4 (x3 p) (y3 p) (z3 p) 1.

(** The identity matrix. *)
Definition unit_matrix : Matrix := fun r c => if idx_eqb r c then 1 else 0.

Definition transposed (A : Matrix) : Matrix := fun r c => A c r.

(** The matrix of the map [p |-> L p + t] for a linear [L]: the first
    three columns are the images of the axes, the last column is [t], the
    last row is (0, 0, 0, 1). *)
Definition homogeneous (L : Vec3 -> Vec3) (t : Vec3) : Matrix :=
  fun r c =>
    match r, c with
    | i3, i3 => 1
    | i3, _ => 0
    | _, i3 => coordinate t r
    | _, _ => coordinate (L (axis c)) r
    end.

(** Translation: [p |-> p + t]. *)
Definition translation_by (t : Vec3) : Matrix := homogeneous (fun p => p) t.

(** Scaling: each coordinate is multiplied by its own factor. *)
Definition stretch (s p : Vec3) : Vec3 := mkVec3 (x3 s * x3 p) (y3 s * y3 p) (z3 s * z3 p).

Definition scaling_by (s : Vec3) : Matrix := homogeneous (stretch s) zero3.

(** The rotation by the angle [a] about the unit vector [u], counter-clockwise
    when seen against [u] (Rodrigues' formula). *)
Definition turn (u : Vec3) (a : R) (p : Vec3) : Vec3 :=
  add3 (scale3 (cos a) p)
       (add3 (scale3 (sin a) (cross3 u p))
             (scale3 ((1 - cos a) * dot3 u p) u)).

Definition rotation_about (u : Vec3) (a : R) : Matrix := homogeneous (turn u a) zero3.

(** Rotations about the X axis, then the Y axis, then the Z axis. *)
Definition rotation_euler (x y z : R) : Matrix :=
  product (rotation_about (axis i2) z)
          (product (rotation_about (axis i1) y) (rotation_about (axis i0) x)).

(** The vector part of a quaternion [(x, y, z, w)]. *)
Definition vector_part (q : Vec4) : Vec3 := mkVec3 (e0 q) (e1 q) (e2 q).

(** The rotation of a unit quaternion with vector part [u] and scalar part
    [w], written without the norm: [p + 2w (u x p) + 2 u x (u x p)]. *)
Definition turn_by_quaternion (q : Vec4) (p : Vec3) : Vec3 :=
  let u := vector_part q in
  add3 p (add3 (scale3 (2 * e3 q) (cross3 u p)) (scale3 2 (cross3 u (cross3 u p)))).

Definition rotation_by_quaternion (q : Vec4) : Matrix :=
  homogeneous (turn_by_quaternion q) zero3.

(** Hamilton's product of quaternions and the conjugate. *)
Definition hamilton (p q : Vec4) : Vec4 :=
  let pv := vector_part p in
  let qv := vector_part q in
  let v := add3 (add3 (scale3 (e3 p) qv) (scale3 (e3 q) pv)) (cross3 pv qv) in
  mkVec4 (x3 v) (y3 v) (z3 v) (e3 p * e3 q - dot3 pv qv).

Definition conjugate (q : Vec4) : Vec4 := mkVec4 (- e0 q) (- e1 q) (- e2 q) (e3 q).

(** The rotation a unit quaternion stands for: [p |-> q p q*]. *)
Definition conjugation (q : Vec4) (p : Vec3) : Vec3 :=
  vector_part (hamilton (hamilton q (mkVec4 (x3 p) (y3 p) (z3 p) 0)) (conjugate q)).

(** The quaternion of three Euler angles, by the half-angle products
    [w = cx cy cz + sx sy sz], [x = sx cy cz - cx sy sz],
    [y = cx sy cz + sx cy sz], [z = cx cy sz - sx sy cz]. *)
Definition euler_quaternion (x y z : R) : Vec4 :=
  let cx := cos (x / 2) in
  let sx := sin (x / 2) in
  let cy := cos (y / 2) in
  let sy := sin (y / 2) in
  let cz := cos (z / 2) in
  let sz := sin (z / 2) in
  let w := cx * cy * cz + sx * sy * sz in
  let qx := sx * cy * cz - cx * sy * sz in
  let qy := cx * sy * cz + sx * cy * sz in
  let qz := cx * cy * sz - sx * sy * cz in
  mkVec4 qx qy qz w.

(** [B] is the inverse of [A]: both products are the identity. *)
Definition inverse_of (A B : Matrix) : Prop :=
  forall r c, product B A r c = unit_matrix r c /\ product A B r c = unit_matrix r c.

End Geometry.

Module NodeSpec.
Import glutils core Spec Geometry.

(** What a setter call stores: its own component takes the arguments (for
    Euler angles, their quaternion) and the other two components stay. *)
Definition stores (s : Setter) (n n' : Node) : Prop :=
  match s with
  | SetPosition x y z =>
    m_position n' = mkVec3 x y z
    /\ m_rotation n' = m_rotation n /\ m_scaling n' = m_scaling n
  | SetRotationEuler x y z =>
    m_rotation n' = euler_quaternion x y z
    /\ m_position n' = m_position n /\ m_scaling n' = m_scaling n
  | SetRotationQuaternion x y z w =>
    m_rotation n' = mkVec4 x y z w
    /\ m_position n' = m_position n /\ m_scaling n' = m_scaling n
  | SetScaling x y z =>
    m_scaling n' = mkVec3 x y z
    /\ m_position n' = m_position n /\ m_rotation n' = m_rotation n
  end.

(** The node between the two steps of a setter: the component is stored,
    the cached matrix and the count of recomputations are still the old
    ones. *)
Definition stored_only (s : Setter) (n m : Node) : Prop :=
  stores s n m
  /\ m_transformMatrix m = m_transformMatrix n
  /\ recomputations m = recomputations n.

End NodeSpec.

Module SceneSpec.
Import glutils core Spec.

(** A parent was allocated before its children: the factory receives the
    parent as an argument, so the parent has the smaller handle. *)
Definition parents_older (st : Store) : Prop :=
  forall id n p, deref st id = Some n -> m_parent n = Some p -> (p < id)%nat.

(** Children are alive (they are owned through shared pointers), were
    allocated after the node that owns them, and a node of type [Mesh] is a
    [MeshNode]. *)
Definition children_newer (st : Store) : Prop :=
  forall id n, deref st id = Some n ->
    (forall c, In (Some c) (m_children n) ->
       (id < c)%nat /\ exists cn, deref st c = Some cn)
    /\ (m_type n = NodeType.Mesh -> exists mesh, derived n = IsMeshNode mesh).

Definition wf_store (st : Store) : Prop := parents_older st /\ children_newer st.

(** A method that leaves the links and the class of a node alone. *)
Definition keeps_links (f : Node -> Node) : Prop :=
  forall n,
    m_parent (f n) = m_parent n
    /\ m_children (f n) = m_children n
    /\ m_type (f n) = m_type n
    /\ ((exists mesh, derived n = IsMeshNode mesh) ->
        exists mesh, derived (f n) = IsMeshNode mesh).

(** [Visits st root P d dn Md]: a traversal started at [root] with the
    accumulated transform [P] reaches the node [d], whose object is [dn],
    with the model matrix [Md].  The model matrix of a node is the
    accumulated transform times its local transform, and it is the
    accumulated transform of its children. *)
Inductive Visits (st : Store) : NodeId -> Mat4 -> NodeId -> Node -> Mat4 -> Prop :=
| Visits_here (id : NodeId) (P : Mat4) (n : Node) :
    deref st id = Some n ->
    Visits st id P id n (mmul P (m_transformMatrix n))
| Visits_below (id : NodeId) (P : Mat4) (n : Node) (c d : NodeId) (dn : Node) (Md : Mat4) :
    deref st id = Some n ->
    In (Some c) (m_children n) ->
    Visits st c (mmul P (m_transformMatrix n)) d dn Md ->
    Visits st id P d dn Md.

(** The reasons the claim about [render] lists for a fatal error. *)
Definition listed_failure (scene : option Scene) (st : Store) : Prop :=
  match scene with
  | None => True
  | Some s =>
    m_drawingContext s = None
    \/ m_activeCameraNode s = None
    \/ exists c, m_activeCameraNode s = Some c /\ camera st c = Ok None
  end.

Definition throws (fr : Frame) : Prop := exists what, f_result fr = Throw what.

End SceneSpec.

Module RenderSpec.
Import glutils core Spec Geometry SceneSpec.

(** [C] is the product [A * B]. *)
Definition product_of (A B C : Mat4) : Prop :=
  forall r c, entry C r c = product (entry A) (entry B) r c.

(** [N] is the normal matrix of the model matrix [M]: the transpose of the
    inverse of [M], that is, [N] transposed is the inverse of [M].  A matrix
    with determinant zero has no inverse. *)
Definition transposed_inverse (M N : Mat4) : Prop :=
  det (entry M) <> 0 /\ inverse_of (entry M) (transposed (entry N)).

(** [N] is the transpose of [M]. *)
Definition transpose_of (M N : Mat4) : Prop :=
  forall r c, entry N r c = entry M c r.

(** The draw call of a mesh whose node has the model matrix [model]: the
    model-view matrix is [view * model]; the normal matrix is the transpose
    of the inverse of [model] and, where [model] has no inverse, the
    transpose of [model] itself. *)
Definition draw_of (view proj : Mat4) (lightVec : list (option NodeId))
    (mesh : MeshId) (model : Mat4) (e : Event) : Prop :=
  exists modelView normal,
    e = EvDraw mesh modelView proj normal lightVec
    /\ product_of view model modelView
    /\ (det (entry model) <> 0 -> transposed_inverse model normal)
    /\ (det (entry model) = 0 -> transpose_of model normal).

(** No node of the store has a null child. *)
Definition no_null_children (st : Store) : Prop :=
  forall id n, deref st id = Some n -> ~ In None (m_children n).

(** A node of type [Light] is a [LightNode]. *)
Definition lights_are_LightNodes (st : Store) : Prop :=
  forall id n, deref st id = Some n -> m_type n = NodeType.Light ->
    exists light p, derived n = IsLightNode light p.

(** What [render] needs to go through a frame: an open device, a live
    root, an active camera node with a camera, and a store as the factory
    builds it. *)
Definition renderable (s : Scene) (st : Store) : Prop :=
  (exists dc, m_drawingContext s = Some dc /\ isDeviceOpen dc = true)
  /\ (exists root rn, m_rootNode s = Some root /\ deref st root = Some rn)
  /\ (exists c cam, m_activeCameraNode s = Some c /\ camera st c = Ok (Some cam))
  /\ wf_store st /\ lights_are_LightNodes st.

End RenderSpec.

(** ** Concrete scenes *)

Module Examples.
Import glutils core Spec.

Definition value {A : Type} (default : A) (r : Res A) : A :=
  match r with Ok a => a | _ => default end.

Definition no_scene : Scene := mkScene EmptyString None None None.

Definition openContext : DrawingContext := mkDrawingContext true.
Definition closedContext : DrawingContext := mkDrawingContext false.

(** A scene with nothing but its root, on an open device. *)
Definition empty_scene : Scene * Store :=
  value (no_scene, []) (Scene_new "scene" (Some openContext) []).

(** The same on a device that is not open, with no active camera. *)
Definition closed_scene : Scene * Store :=
  value (no_scene, []) (Scene_new "scene" (Some closedContext) []).

(** Two nodes created under the root with the same name. *)
Definition twice_a_1 : Res (NodeId * Store) :=
  createNode CNode (fst empty_scene) "a" (m_rootNode (fst empty_scene)) (snd empty_scene).

Definition twice_a_2 : Res (NodeId * Store) :=
  createNode CNode (fst empty_scene) "a" (m_rootNode (fst empty_scene))
    (snd (value (0%nat, []) twice_a_1)).

(** root -> CameraNode at (0,0,5), the active camera; root -> MeshNode with
    a mesh and the local transform it was created with. *)
Definition theMesh : MeshId := 7%nat.

Definition theCamera : Camera := pc_Camera (PerspectiveCamera_new 1 (PI / 2) 0.1 100).

Definition camera_mesh_scene : Scene * Store :=
  let '(scene, st) := empty_scene in
  let '(cameraNode, st) :=
    value (0%nat, []) (createNode CCameraNode scene "cameraNode" (m_rootNode scene) st) in
  let st := update cameraNode (setPosition 0 0 5) st in
  let st := update cameraNode (setCamera (Some theCamera)) st in
  let '(meshNode, st) :=
    value (0%nat, []) (createNode CMeshNode scene "meshNode" (m_rootNode scene) st) in
  let st := update meshNode (setMesh (Some theMesh)) st in
  (setActiveCameraNode (Some cameraNode) scene, st).


(** The object behind a handle of a concrete store. *)
Definition node_at (st : Store) (id : NodeId) : Node :=
  match deref st id with Some n => n | None => Node_new EmptyString None end.

(** A matrix with determinant 6 and one with determinant 0. *)
Definition sample : Mat4 :=
  Mat4_of_array
    (mkArr (mkVec4 2 0 0 1)
           (mkVec4 0 3 0 2)
           (mkVec4 1 0 1 3)
           (mkVec4 0 0 0 1)).

Definition all_ones : Mat4 := mmk (fun _ _ => 1).

End Examples.

(** ** Further reference definitions *)

Module ExtraSpec.
Import glutils core Spec SceneSpec.

(** A quaternion of norm one. *)
Definition unit_quaternion (q : Vec4) : Prop :=
  e0 q * e0 q + e1 q * e1 q + e2 q * e2 q + e3 q * e3 q = 1.

(** A matrix whose last row is (0, 0, 0, 1). *)
Definition affine (M : Mat4) : Prop :=
  entry M i3 i0 = 0 /\ entry M i3 i1 = 0 /\ entry M i3 i2 = 0 /\ entry M i3 i3 = 1.

(** Every child points back to the node that lists it. *)
Definition linked (st : list (option Node)) : Prop :=
  forall id n c, deref st id = Some n -> In (Some c) (m_children n) ->
    exists cn, deref st c = Some cn /\ m_parent cn = Some id.

(** [Reaches st root d dn]: the node [d], with object [dn], is [root] or
    lies below it along non-null child pointers. *)
Inductive Reaches (st : list (option Node)) : nat -> nat -> Node -> Prop :=
| Reaches_here (id : nat) (n : Node) :
    deref st id = Some n -> Reaches st id id n
| Reaches_below (id : nat) (n : Node) (c d : nat) (dn : Node) :
    deref st id = Some n -> In (Some c) (m_children n) ->
    Reaches st c d dn -> Reaches st id d dn.

(** The entry [parseNodeForLight] pushes for a node of type [Light]: the
    result of the cast to [LightNode]. *)
Definition lightEntry (d : nat) (dn : Node) : option nat :=
  match derived dn with IsLightNode _ _ => Some d | _ => None end.

(** The origin of a frame taken through [view * total] and divided by its
    [w]. *)
Definition viewPosition (view total : Mat4) : Vec3 :=
  let p := mvmul (mmul view total) (mkVec4 0 0 0 1) in
  mkVec3 (vget p i0 / vget p i3) (vget p i1 / vget p i3) (vget p i2 / vget p i3).

End ExtraSpec.

Module DispatchSpec.
Import port dispatcher.

(** The callback [f], registered under the handle [h], is due the event:
    its filter shares a bit with the event type. *)
Definition delivers {Clbk : Type} (d : EventDispatcher Clbk) (ev : Event)
    (h : Z) (f : Clbk) : Prop :=
  exists filter,
    m_clbkMap d !! h = Some (Some f, filter)
    /\ Z.land (event_type ev) filter <> 0%Z.

(** Every handle in the map was handed out by [createHandle]. *)
Definition handles_below {Clbk : Type} (d : EventDispatcher Clbk) : Prop :=
  forall h, is_Some (m_clbkMap d !! h) -> (h < m_nextHandle d)%Z.

End DispatchSpec.

(** ** More concrete inputs *)

Module MoreExamples.
Import glutils core port dispatcher controller Spec Examples.

(** The scene of the camera and the mesh with a light node at (1,3,2)
    added under the root. *)
Definition light_scene : Scene * list (option Node) :=
  let '(scene, st) := camera_mesh_scene in
  let '(lightNode, st) :=
    value (0%nat, []) (createNode CLightNode scene "lightNode" (m_rootNode scene) st) in
  let st := update lightNode (setLight (Some (mkLight Point))) st in
  let st := update lightNode (setPosition 1 3 2) st in
  (scene, st).

(** The scene with the light, its mesh node moved to (1,2,3) and scaled
    by (2,4,8): the model matrix of the mesh and the inverse of it are not
    symmetric. *)
Definition moved_mesh_scene : Scene * list (option Node) :=
  (fst light_scene,
   update 2%nat (setScaling 2 4 8)
     (update 2%nat (setPosition 1 2 3) (snd light_scene))).

(** The view matrix of that camera, the model matrix of the moved mesh,
    its model-view matrix and its normal matrix, entry by entry. *)
Definition view_5 : Mat4 :=
  Mat4_of_array
    (mkArr (mkVec4 1 0 0 0)
           (mkVec4 0 1 0 0)
           (mkVec4 0 0 1 (-5))
           (mkVec4 0 0 0 1)).

Definition moved_model : Mat4 :=
  Mat4_of_array
    (mkArr (mkVec4 2 0 0 1)
           (mkVec4 0 4 0 2)
           (mkVec4 0 0 8 3)
           (mkVec4 0 0 0 1)).

Definition moved_modelView : Mat4 :=
  Mat4_of_array
    (mkArr (mkVec4 2 0 0 1)
           (mkVec4 0 4 0 2)
           (mkVec4 0 0 8 (-2))
           (mkVec4 0 0 0 1)).

Definition moved_normal : Mat4 :=
  Mat4_of_array
    (mkArr (mkVec4 (1 / 2) 0 0 0)
           (mkVec4 0 (1 / 4) 0 0)
           (mkVec4 0 0 (1 / 8) 0)
           (mkVec4 (- (1 / 2)) (- (1 / 2)) (- (3 / 8)) 1)).

(** A controller for the camera node of that scene, on a dispatcher of
    its own; callbacks are named by numbers. *)
Definition controller0 : FPSCameraController * EventDispatcher nat :=
  value (mkController 0 0 false false false false 0 0 0 0 (mkVec3 0 0 0),
         EventDispatcher_new)
    (FPSCameraController_new 0%nat (Some EventDispatcher_new) (Some 1%nat)).

(** The controller after the pointer went from (0,0) to (30,-20), with W
    down and without a key down. *)
Definition walking : FPSCameraController :=
  with_pointer (with_keys (fst controller0) true false false false) 0 0 30 (-20).

Definition turning : FPSCameraController :=
  with_pointer (fst controller0) 0 0 30 (-20).

Definition after (c : FPSCameraController) : FPSCameraController * list (option Node) :=
  default (c, snd light_scene) (process c (snd light_scene)).

(** A pointer-move event at (30,-20) and a quaternion of norm one. *)
Definition move_event : Event :=
  mkEvent TouchMoveEv (IsTouchEvent TouchInvalid 30 (-20)).

Definition half_turn_z : Vec4 := mkVec4 0 0 1 0.

End MoreExamples.

(** ** Properties of the linear-algebra layer *)

Module LinearAlgebra.
Import glutils Spec Geometry.

Ltac mat_unfold :=
  cbv [invert_det invert_res mmul mmul_assign mvmul transpose identity setIdentity
       Mat4_zero mmk vmk mget vget vdiv accumulate fold_left all_idx idx_eqb entry mset
       andb c0 c1 c2 c3 e0 e1 e2 e3 x3 y3 z3 Mat4_of_array aget row0 row1 row2 row3
       translate translateLocalXZ rotateX rotateY rotateZ rotateXYZ rotateXYZW scale
       translate_array translateLocalXZ_array rotateX_array rotateY_array
       rotateZ_array rotateXYZ_array rotateXYZW_array scale_array
       Translate Rotate Scale TRS
       product of_array det adjugate cofactor minor others position Nat.even Nat.add].

Ltac mat_destruct M :=
  destruct M as [[? ? ? ?] [? ? ? ?] [? ? ? ?] [? ? ? ?]].

Lemma Mat4_ext (A B : Mat4) :
  (forall c r, mget A c r = mget B c r) -> A = B.
Proof.
  intros H. mat_destruct A; mat_destruct B.
  pose proof (H i0 i0); pose proof (H i0 i1); pose proof (H i0 i2); pose proof (H i0 i3).
  pose proof (H i1 i0); pose proof (H i1 i1); pose proof (H i1 i2); pose proof (H i1 i3).
  pose proof (H i2 i0); pose proof (H i2 i1); pose proof (H i2 i2); pose proof (H i2 i3).
  pose proof (H i3 i0); pose proof (H i3 i1); pose proof (H i3 i2); pose proof (H i3 i3).
  cbv [mget vget c0 c1 c2 c3 e0 e1 e2 e3] in *. congruence.
Qed.

Ltac mat_ext := apply Mat4_ext; intros [] []; mat_unfold.
Ltac mat_ring := mat_ext; ring.

Lemma Vec4_ext (u v : Vec4) : (forall i, vget u i = vget v i) -> u = v.
Proof.
  intros H. destruct u, v.
  pose proof (H i0); pose proof (H i1); pose proof (H i2); pose proof (H i3).
  cbv [vget e0 e1 e2 e3] in *. congruence.
Qed.

(** [operator*] computes the row-by-column product of the matrices its
    operands stand for. *)
Lemma mmul_product (A B : Mat4) (r c : idx) :
  entry (mmul A B) r c = product (entry A) (entry B) r c.
Proof. mat_destruct A; mat_destruct B; destruct r, c; mat_unfold; ring. Qed.

Lemma mmul_assign_mmul (A B : Mat4) : mmul_assign A B = mmul A B.
Proof. reflexivity. Qed.

(** The constructor from an array stores the matrix the array denotes. *)
Lemma Mat4_of_array_entry (m : Arr44) (r c : idx) :
  entry (Mat4_of_array m) r c = of_array m r c.
Proof. destruct m as [[] [] [] []], r, c; reflexivity. Qed.

Lemma mmul_assoc (A B C : Mat4) : mmul (mmul A B) C = mmul A (mmul B C).
Proof. mat_destruct A; mat_destruct B; mat_destruct C. mat_ring. Qed.

Lemma mmul_identity_l (A : Mat4) : mmul identity A = A.
Proof. mat_destruct A. mat_ring. Qed.

Lemma mmul_identity_r (A : Mat4) : mmul A identity = A.
Proof. mat_destruct A. mat_ring. Qed.

Lemma mvmul_mmul (A B : Mat4) (v : Vec4) : mvmul (mmul A B) v = mvmul A (mvmul B v).
Proof.
  mat_destruct A; mat_destruct B; destruct v.
  apply Vec4_ext; intros []; mat_unfold; ring.
Qed.

Lemma transpose_entry (A : Mat4) (r c : idx) : entry (transpose A) r c = entry A c r.
Proof. mat_destruct A; destruct r, c; reflexivity. Qed.

(** The determinant [invert] computes is the determinant. *)
Lemma invert_det_det (M : Mat4) : invert_det M = det (entry M).
Proof. mat_destruct M. mat_unfold. ring. Qed.

(** The local [res] of [invert] is the adjugate. *)
Lemma invert_res_adjugate (M : Mat4) (r c : idx) :
  entry (invert_res M) r c = adjugate (entry M) r c.
Proof. mat_destruct M; destruct r, c; mat_unfold; ring. Qed.

Lemma invert_singular (M : Mat4) : invert_det M = 0 -> invert M = M.
Proof.
  intros H. unfold invert. destruct (Req_dec_T _ _); [reflexivity | contradiction].
Qed.

Lemma invert_nonsingular (M : Mat4) :
  invert_det M <> 0 ->
  invert M = mmk (fun c r => mget (invert_res M) c r * (1 / invert_det M)).
Proof.
  intros H. unfold invert. destruct (Req_dec_T _ _); [contradiction | reflexivity].
Qed.

Lemma invert_mmul_r (M : Mat4) : invert_det M <> 0 -> mmul M (invert M) = identity.
Proof.
  intros H. rewrite invert_nonsingular by assumption.
  mat_destruct M. revert H. mat_unfold. intros H.
  mat_ext; field; exact H.
Qed.

Lemma invert_mmul_l (M : Mat4) : invert_det M <> 0 -> mmul (invert M) M = identity.
Proof.
  intros H. rewrite invert_nonsingular by assumption.
  mat_destruct M. revert H. mat_unfold. intros H.
  mat_ext; field; exact H.
Qed.

Lemma invert_det_mmul (A B : Mat4) :
  invert_det (mmul A B) = invert_det A * invert_det B.
Proof. mat_destruct A; mat_destruct B. mat_unfold. ring. Qed.

Lemma invert_det_identity : invert_det identity = 1.
Proof. mat_unfold. ring. Qed.

Lemma invert_det_invert (M : Mat4) :
  invert_det M <> 0 -> invert_det (invert M) <> 0.
Proof.
  intros H Hz.
  pose proof (invert_det_mmul M (invert M)) as E.
  rewrite invert_mmul_r, invert_det_identity, Hz in E by assumption.
  lra.
Qed.

Lemma invert_zero : invert Mat4_zero = Mat4_zero.
Proof. apply invert_singular. mat_unfold. ring. Qed.

(** C3.  [Mat4::invert] is the cofactor (adjugate) inverse, in place and
    without a precondition: when the determinant is exactly zero every
    entry stays as it was (so the all-zero matrix is left unchanged);
    otherwise every entry becomes the corresponding cofactor divided by the
    determinant, and the result is the inverse on both sides. *)
Theorem invert_cofactor_inverse (M : Mat4) :
  (det (entry M) = 0 -> invert M = M)
  /\ (det (entry M) <> 0 ->
      (forall r c, entry (invert M) r c = cofactor (entry M) c r / det (entry M))
      /\ mmul M (invert M) = identity
      /\ mmul (invert M) M = identity)
  /\ invert Mat4_zero = Mat4_zero.
Proof.
  rewrite <- invert_det_det. split; [| split].
  - apply invert_singular.
  - intros H. split; [| split].
    + intros r c. rewrite invert_nonsingular by assumption.
      change (cofactor (entry M) c r) with (adjugate (entry M) r c).
      rewrite <- invert_res_adjugate.
      destruct r, c; cbv [entry mmk vmk mget vget c0 c1 c2 c3 e0 e1 e2 e3];
        field; exact H.
    + apply invert_mmul_r, H.
    + apply invert_mmul_l, H.
  - apply invert_zero.
Qed.

(** C9.  On a matrix with a nonzero determinant, [invert] applied twice
    gives back the matrix, entry for entry. *)
Theorem invert_involutive (M : Mat4) :
  det (entry M) <> 0 -> invert (invert M) = M.
Proof.
  rewrite <- invert_det_det. intros H.
  pose proof (invert_det_invert M H) as H'.
  rewrite <- (mmul_identity_r (invert (invert M))).
  rewrite <- (invert_mmul_l M H).
  rewrite <- mmul_assoc.
  rewrite (invert_mmul_l (invert M) H').
  apply mmul_identity_l.
Qed.

(** What the array literals denote: a translation moves a point, a scale
    stretches it, and the identity quaternion turns nothing. *)
Lemma translate_array_moves (x y z a b c : R) :
  mvmul (Mat4_of_array (translate_array x y z)) (mkVec4 a b c 1)
  = mkVec4 (a + x) (b + y) (c + z) 1.
Proof. apply Vec4_ext; intros []; mat_unfold; ring. Qed.

Lemma scale_array_scales (x y z a b c w : R) :
  mvmul (Mat4_of_array (scale_array x y z)) (mkVec4 a b c w)
  = mkVec4 (x * a) (y * b) (z * c) w.
Proof. apply Vec4_ext; intros []; mat_unfold; ring. Qed.

Lemma rotateXYZW_array_identity : Mat4_of_array (rotateXYZW_array 0 0 0 1) = identity.
Proof. mat_ring. Qed.

(** The side matters: on a scaled matrix, multiplying the translation from
    the left and from the right give different results. *)
Lemma translate_side_matters :
  translate 1 0 0 (scale 2 2 2 identity)
  <> mmul (scale 2 2 2 identity) (Mat4_of_array (translate_array 1 0 0)).
Proof.
  intros H. apply (f_equal (fun M => mget M i3 i0)) in H.
  revert H. mat_unfold. lra.
Qed.

(** Half-angle identities for the quaternion of Euler angles. *)
Lemma half_angle (a : R) :
  cos a = cos (a / 2) * cos (a / 2) - sin (a / 2) * sin (a / 2)
  /\ sin a = 2 * sin (a / 2) * cos (a / 2)
  /\ cos (a / 2) * cos (a / 2) = 1 - sin (a / 2) * sin (a / 2).
Proof.
  pose proof (sin2_cos2 (a / 2)) as H. unfold Rsqr in H.
  pose proof (cos_2a (a / 2)) as C. pose proof (sin_2a (a / 2)) as S.
  assert (2 * (a / 2) = a) as E by lra. rewrite E in C, S.
  repeat split; lra.
Qed.

(** *** The array literals against the maps of space *)

Ltac geo_unfold :=
  cbv [translation_by scaling_by rotation_about rotation_by_quaternion rotation_euler
       homogeneous coordinate axis turn turn_by_quaternion stretch add3 scale3 dot3
       cross3 zero3 vector_part point unit_matrix transposed conjugation hamilton conjugate
       euler_quaternion x3 y3 z3 e0 e1 e2 e3];
  mat_unfold.

Lemma translate_array_translation (x y z : R) (r c : idx) :
  of_array (translate_array x y z) r c = translation_by (mkVec3 x y z) r c.
Proof. destruct r, c; geo_unfold; ring. Qed.

Lemma translateLocalXZ_array_translation (x z : R) (r c : idx) :
  of_array (translateLocalXZ_array x z) r c = translation_by (mkVec3 x 0 z) r c.
Proof. destruct r, c; geo_unfold; ring. Qed.

Lemma scale_array_scaling (x y z : R) (r c : idx) :
  of_array (scale_array x y z) r c = scaling_by (mkVec3 x y z) r c.
Proof. destruct r, c; geo_unfold; ring. Qed.

Lemma rotateX_array_rotation (x : R) (r c : idx) :
  of_array (rotateX_array x) r c = rotation_about (axis i0) x r c.
Proof. destruct r, c; geo_unfold; ring. Qed.

Lemma rotateY_array_rotation (y : R) (r c : idx) :
  of_array (rotateY_array y) r c = rotation_about (axis i1) y r c.
Proof. destruct r, c; geo_unfold; ring. Qed.

Lemma rotateZ_array_rotation (z : R) (r c : idx) :
  of_array (rotateZ_array z) r c = rotation_about (axis i2) z r c.
Proof. destruct r, c; geo_unfold; ring. Qed.

Lemma rotateXYZ_array_rotation (x y z : R) (r c : idx) :
  of_array (rotateXYZ_array x y z) r c = rotation_euler x y z r c.
Proof. destruct r, c; geo_unfold; ring. Qed.

Lemma rotateXYZW_array_rotation (x y z w : R) (r c : idx) :
  of_array (rotateXYZW_array x y z w) r c = rotation_by_quaternion (mkVec4 x y z w) r c.
Proof. destruct r, c; geo_unfold; ring. Qed.

(** Products with equal factors are equal. *)
Lemma product_ext (A A' B B' : Matrix) (r c : idx) :
  (forall i j, A i j = A' i j) -> (forall i j, B i j = B' i j) ->
  product A B r c = product A' B' r c.
Proof. intros HA HB. unfold product. rewrite !HA, !HB. reflexivity. Qed.

Lemma premultiplied (m : Arr44) (M : Mat4) (r c : idx) :
  entry (mmul (Mat4_of_array m) M) r c = product (of_array m) (entry M) r c.
Proof. rewrite mmul_product. apply product_ext; intros; [apply Mat4_of_array_entry | reflexivity]. Qed.

(** For a quaternion of norm one the map [turn_by_quaternion] is the
    conjugation [p |-> q p q*]. *)
Lemma turn_by_quaternion_conjugation (q : Vec4) (p : Vec3) :
  e0 q * e0 q + e1 q * e1 q + e2 q * e2 q + e3 q * e3 q = 1 ->
  turn_by_quaternion q p = conjugation q p.
Proof.
  destruct q as [x y z w], p as [a b c]. simpl. intros H.
  assert (w * w = 1 - x * x - y * y - z * z) as Hw by lra.
  geo_unfold. f_equal; ring [Hw].
Qed.

(** What a matrix of the form [homogeneous L t] does to a point, for the
    linear maps used here. *)
Lemma rotation_by_quaternion_point (q : Vec4) (M : Mat4) (p : Vec3) :
  (forall r c, entry M r c = rotation_by_quaternion q r c) ->
  mvmul M (point p) = point (turn_by_quaternion q p).
Proof.
  intros H. destruct q as [x y z w], p as [a b c].
  apply Vec4_ext; intros i.
  pose proof (H i i0) as H0; pose proof (H i i1) as H1;
    pose proof (H i i2) as H2; pose proof (H i i3) as H3.
  mat_destruct M. destruct i; revert H0 H1 H2 H3; geo_unfold;
    intros -> -> -> ->; ring.
Qed.

(** C8.  [translate], [scale], [rotateX], [rotateY], [rotateZ], [rotateXYZ]
    and [rotateXYZW] replace the matrix by [T * M], where [T] is the matrix
    of the elementary transform: the translation by (x, y, z), the scaling
    by (x, y, z), the rotation by the angle about the X, Y or Z axis, the
    rotations about X, then Y, then Z, and the rotation of the quaternion
    (for a quaternion of norm one, the map [p |-> q p q*]).
    [translateLocalXZ] alone replaces the matrix by [M * T], [T] the
    translation by (x, 0, z), and then puts back the entry of row 1,
    column 3 (the Y translation) the matrix had before. *)
Theorem helpers_multiplication_side (M : Mat4) (r c : idx) :
  (forall x y z,
     entry (translate x y z M) r c
     = product (translation_by (mkVec3 x y z)) (entry M) r c)
  /\ (forall x y z,
     entry (scale x y z M) r c
     = product (scaling_by (mkVec3 x y z)) (entry M) r c)
  /\ (forall x,
     entry (rotateX x M) r c = product (rotation_about (axis i0) x) (entry M) r c)
  /\ (forall y,
     entry (rotateY y M) r c = product (rotation_about (axis i1) y) (entry M) r c)
  /\ (forall z,
     entry (rotateZ z M) r c = product (rotation_about (axis i2) z) (entry M) r c)
  /\ (forall x y z,
     entry (rotateXYZ x y z M) r c
     = product (product (rotation_about (axis i2) z)
                        (product (rotation_about (axis i1) y)
                                 (rotation_about (axis i0) x)))
               (entry M) r c)
  /\ (forall x y z w,
     entry (rotateXYZW x y z w M) r c
     = product (rotation_by_quaternion (mkVec4 x y z w)) (entry M) r c)
  /\ (forall x y z w p,
     x * x + y * y + z * z + w * w = 1 ->
     mvmul (rotateXYZW x y z w identity) (point p)
     = point (conjugation (mkVec4 x y z w) p))
  /\ (forall x z,
     entry (translateLocalXZ x z M) r c
     = if idx_eqb r i1 && idx_eqb c i3 then entry M i1 i3
       else product (entry M) (translation_by (mkVec3 x 0 z)) r c).
Proof.
  split; [| split; [| split; [| split; [| split; [| split; [| split; [| split]]]]]]].
  - intros x y z. unfold translate. rewrite premultiplied.
    apply product_ext; intros; [apply translate_array_translation | reflexivity].
  - intros x y z. unfold scale. rewrite premultiplied.
    apply product_ext; intros; [apply scale_array_scaling | reflexivity].
  - intros x. unfold rotateX. rewrite premultiplied.
    apply product_ext; intros; [apply rotateX_array_rotation | reflexivity].
  - intros y. unfold rotateY. rewrite premultiplied.
    apply product_ext; intros; [apply rotateY_array_rotation | reflexivity].
  - intros z. unfold rotateZ. rewrite premultiplied.
    apply product_ext; intros; [apply rotateZ_array_rotation | reflexivity].
  - intros x y z. unfold rotateXYZ. rewrite premultiplied.
    apply product_ext; intros; [apply rotateXYZ_array_rotation | reflexivity].
  - intros x y z w. unfold rotateXYZW. rewrite premultiplied.
    apply product_ext; intros; [apply rotateXYZW_array_rotation | reflexivity].
  - intros x y z w p H.
    rewrite <- (turn_by_quaternion_conjugation (mkVec4 x y z w) p) by exact H.
    apply rotation_by_quaternion_point. intros i j.
    unfold rotateXYZW. rewrite mmul_identity_r, Mat4_of_array_entry.
    apply rotateXYZW_array_rotation.
  - intros x z.
    assert (entry (translateLocalXZ x z M) r c
            = if idx_eqb r i1 && idx_eqb c i3 then entry M i1 i3
              else product (entry M) (of_array (translateLocalXZ_array x z)) r c) as E
      by (mat_destruct M; destruct r, c; mat_unfold; ring).
    rewrite E. destruct (idx_eqb r i1 && idx_eqb c i3); [reflexivity |].
    apply product_ext; intros; [reflexivity | apply translateLocalXZ_array_translation].
Qed.

End LinearAlgebra.

(** ** Properties of nodes and cameras *)

Module NodeProps.
Import glutils core Spec Geometry NodeSpec ExtraSpec LinearAlgebra.

Lemma updateTransformMatrix_TRS (n : Node) :
  m_transformMatrix (updateTransformMatrix n)
  = TRS (m_position n) (m_rotation n) (m_scaling n).
Proof.
  unfold updateTransformMatrix, TRS, translate, rotateXYZW, scale; simpl.
  fold identity. rewrite mmul_identity_r. reflexivity.
Qed.

Lemma call_TRS (s : Setter) (n : Node) :
  m_transformMatrix (call s n)
  = TRS (m_position (call s n)) (m_rotation (call s n)) (m_scaling (call s n)).
Proof.
  destruct s; cbv [call setPosition setRotationEuler setRotationQuaternion setScaling];
    rewrite updateTransformMatrix_TRS; reflexivity.
Qed.

Lemma eulerToQuaternion_euler_quaternion (x y z : R) :
  eulerToQuaternion (mkVec3 x y z) = euler_quaternion x y z.
Proof. reflexivity. Qed.

Lemma call_stores (s : Setter) (n : Node) : stores s n (call s n).
Proof. destruct s; repeat split. Qed.

(** Every setter is two steps: the component is stored, then
    [updateTransformMatrix] runs. *)
Lemma call_stored_only (s : Setter) (n : Node) :
  exists m, stored_only s n m /\ call s n = updateTransformMatrix m.
Proof.
  destruct s as [x y z | x y z | x y z w | x y z].
  - exists (with_position n (mkVec3 x y z)). repeat split.
  - exists (with_rotation n (eulerToQuaternion (mkVec3 x y z))). repeat split.
  - exists (with_rotation n (mkVec4 x y z w)). repeat split.
  - exists (with_scaling n (mkVec3 x y z)). repeat split.
Qed.

Lemma call_recomputations (s : Setter) (n : Node) :
  recomputations (call s n) = S (recomputations n).
Proof. destruct s; reflexivity. Qed.

Lemma calls_snoc (ss : list Setter) (s : Setter) (n : Node) :
  calls (ss ++ [s]) n = call s (calls ss n).
Proof. unfold calls. rewrite fold_left_app. reflexivity. Qed.

Lemma calls_recomputations (ss : list Setter) (n : Node) :
  recomputations (calls ss n) = (recomputations n + length ss)%nat.
Proof.
  revert n. induction ss as [| s ss IH]; intros n; simpl.
  - lia.
  - unfold calls in IH. rewrite IH, call_recomputations. lia.
Qed.

(** The matrix [updateTransformMatrix] leaves is the product of the
    translation by the position, the rotation of the quaternion and the
    scaling, as maps of space. *)
Lemma updateTransformMatrix_maps (n : Node) (r c : idx) :
  entry (m_transformMatrix (updateTransformMatrix n)) r c
  = product (translation_by (m_position n))
      (product (rotation_by_quaternion (m_rotation n)) (scaling_by (m_scaling n))) r c.
Proof.
  destruct n as [nm ty [px py pz] [qx qy qz qw] [sx sy sz] M pa ch de k].
  destruct r, c; geo_unfold; cbv [updateTransformMatrix m_transformMatrix m_position
    m_rotation m_scaling]; geo_unfold; ring.
Qed.

Lemma product_assoc (A B C : Matrix) (r c : idx) :
  product (product A B) C r c = product A (product B C) r c.
Proof. unfold product. ring. Qed.

Lemma updateTransformMatrix_point (n : Node) (p : Vec3) :
  mvmul (m_transformMatrix (updateTransformMatrix n)) (point p)
  = point (add3 (m_position n)
             (turn_by_quaternion (m_rotation n) (stretch (m_scaling n) p))).
Proof.
  destruct n as [nm ty [px py pz] [qx qy qz qw] [sx sy sz] M pa ch de k].
  destruct p as [a b c].
  apply Vec4_ext; intros []; cbv [updateTransformMatrix m_transformMatrix m_position
    m_rotation m_scaling]; geo_unfold; ring.
Qed.

Lemma euler_quaternion_unit (x y z : R) : unit_quaternion (euler_quaternion x y z).
Proof.
  unfold unit_quaternion, euler_quaternion. simpl.
  destruct (half_angle x) as (_ & _ & Hx).
  destruct (half_angle y) as (_ & _ & Hy).
  destruct (half_angle z) as (_ & _ & Hz).
  ring [Hx Hy Hz].
Qed.

(** The quaternion of three Euler angles turns space as the rotations
    about X, then Y, then Z do. *)
Lemma euler_quaternion_rotation (x y z : R) (r c : idx) :
  rotation_by_quaternion (euler_quaternion x y z) r c = rotation_euler x y z r c.
Proof.
  destruct (half_angle x) as (Cx & Sx & Hx).
  destruct (half_angle y) as (Cy & Sy & Hy).
  destruct (half_angle z) as (Cz & Sz & Hz).
  destruct r, c; geo_unfold;
    rewrite ?Cx, ?Sx, ?Cy, ?Sy, ?Cz, ?Sz; ring [Hx Hy Hz].
Qed.

(** C2.  Whatever calls came before, a call of [setPosition],
    [setRotationEuler], [setRotationQuaternion] or [setScaling] stores its
    component (for Euler angles, their quaternion) and leaves the cached
    matrix equal to the product of the translation by the position, the
    rotation of the rotation quaternion and the scaling, in this order: a
    point is scaled first, then turned, then moved.  The three factors are
    the maps of space, not the program's tables.  After [setRotationEuler]
    the rotation is the one about X, then Y, then Z, and the quaternion has
    norm one; for a quaternion of norm one the rotation is [p |-> q p q*].
    Each call is the store of the component followed by one run of
    [updateTransformMatrix], so [N] calls recompute the matrix [N] times. *)
Theorem setters_recompute_TRS (n : Node) (before : list Setter) (s : Setter) :
  let n0 := calls before n in
  let n' := calls (before ++ [s]) n in
  let T := translation_by (m_position n') in
  let Q := rotation_by_quaternion (m_rotation n') in
  let K := scaling_by (m_scaling n') in
  n' = call s n0
  /\ stores s n0 n'
  /\ (forall r c, entry (m_transformMatrix n') r c = product T (product Q K) r c)
  /\ (forall r c, entry (m_transformMatrix n') r c = product (product T Q) K r c)
  /\ (forall p,
        mvmul (m_transformMatrix n') (point p)
        = point (add3 (m_position n')
                   (turn_by_quaternion (m_rotation n') (stretch (m_scaling n') p))))
  /\ (unit_quaternion (m_rotation n') ->
      forall p, turn_by_quaternion (m_rotation n') p = conjugation (m_rotation n') p)
  /\ (forall x y z,
        s = SetRotationEuler x y z ->
        unit_quaternion (m_rotation n')
        /\ forall r c, Q r c = rotation_euler x y z r c)
  /\ (exists m, stored_only s n0 m /\ n' = updateTransformMatrix m)
  /\ recomputations n' = S (recomputations n0)
  /\ recomputations n' = (recomputations n + length (before ++ [s]))%nat.
Proof.
  intros n0 n' T Q K. subst n0 n' T Q K. rewrite calls_snoc.
  destruct (call_stored_only s (calls before n)) as (m & Hm & E).
  pose proof (call_stores s (calls before n)) as Hs.
  assert (m_position (call s (calls before n)) = m_position m
          /\ m_rotation (call s (calls before n)) = m_rotation m
          /\ m_scaling (call s (calls before n)) = m_scaling m) as (Ep & Eq & Es)
    by (rewrite E; repeat split).
  split; [reflexivity |]. split; [exact Hs |].
  split; [| split; [| split; [| split; [| split; [| split; [| split]]]]]].
  - intros r c. rewrite Ep, Eq, Es, E. apply updateTransformMatrix_maps.
  - intros r c. rewrite product_assoc, Ep, Eq, Es, E. apply updateTransformMatrix_maps.
  - intros p. rewrite Ep, Eq, Es, E. apply updateTransformMatrix_point.
  - intros Hq p. apply turn_by_quaternion_conjugation. exact Hq.
  - intros x y z ->. unfold stores in Hs. destruct Hs as (Hr & _). rewrite Hr.
    split; [apply euler_quaternion_unit | apply euler_quaternion_rotation].
  - exists m. split; [exact Hm | exact E].
  - apply call_recomputations.
  - rewrite call_recomputations, calls_recomputations, length_app. simpl. lia.
Qed.

Lemma TRS_defaults : TRS (mkVec3 0 0 0) (mkVec4 0 0 0 1) (mkVec3 1 1 1) = identity.
Proof. mat_ring. Qed.

Lemma deref_app_new (st : Store) (n : Node) : deref (st ++ [Some n]) (length st) = Some n.
Proof.
  unfold deref. rewrite lookup_app_r by lia.
  replace (length st - length st)%nat with 0%nat by lia. reflexivity.
Qed.

Lemma deref_lt (st : Store) (id : NodeId) (n : Node) :
  deref st id = Some n -> (id < length st)%nat.
Proof.
  unfold deref. destruct (st !! id) as [[m|]|] eqn:E; try discriminate.
  intros _. eapply lookup_lt_Some, E.
Qed.

Lemma deref_app_old (st : Store) (id : NodeId) (n m : Node) :
  deref st id = Some n -> deref (st ++ [Some m]) id = Some n.
Proof.
  intros H. pose proof (deref_lt _ _ _ H). unfold deref in *.
  rewrite lookup_app_l by assumption. exact H.
Qed.

Lemma deref_update_ne (st : Store) (id id' : NodeId) (f : Node -> Node) :
  id <> id' -> deref (update id f st) id' = deref st id'.
Proof.
  intros Hne. unfold update. destruct (deref st id); [| reflexivity].
  unfold deref. rewrite list_lookup_insert_ne by assumption. reflexivity.
Qed.

Lemma deref_update_eq (st : Store) (id : NodeId) (f : Node -> Node) (n : Node) :
  deref st id = Some n -> deref (update id f st) id = Some (f n).
Proof.
  intros H. pose proof (deref_lt _ _ _ H). unfold update. rewrite H.
  unfold deref. rewrite list_lookup_insert_eq by assumption. reflexivity.
Qed.

Lemma createNode_Ok (T : NodeClass) (this : Scene) (name : string)
    (p : option NodeId) (st st' : Store) (id : NodeId) :
  createNode T this name p st = Ok (id, st') ->
  exists p0 pn,
    p = Some p0 /\ deref st p0 = Some pn /\ id = length st
    /\ st' = update p0 (addChild (Some id)) (st ++ [Some (construct T name p)]).
Proof.
  unfold createNode. destruct p as [p0|]; [| discriminate].
  destruct (deref st p0) as [pn|] eqn:E; [| discriminate].
  intros H. inversion H; subst. eauto 10.
Qed.

(** C10.  The node [createNode] hands back has position (0,0,0), rotation
    quaternion (0,0,0,1), scaling (1,1,1), no children and the identity as
    cached matrix, and the matrix composed from these three defaults is that
    same identity: fields and cache agree before any setter runs. *)
Theorem fresh_node_defaults (T : NodeClass) (this : Scene) (name : string)
    (p : option NodeId) (st st' : Store) (id : NodeId) :
  createNode T this name p st = Ok (id, st') ->
  exists n,
    deref st' id = Some n
    /\ m_name n = name
    /\ m_position n = mkVec3 0 0 0
    /\ m_rotation n = mkVec4 0 0 0 1
    /\ m_scaling n = mkVec3 1 1 1
    /\ m_children n = []
    /\ m_transformMatrix n = identity
    /\ recomputations n = 0%nat
    /\ mmul (Translate (m_position n))
            (mmul (Rotate (m_rotation n)) (Scale (m_scaling n)))
       = m_transformMatrix n.
Proof.
  intros H. apply createNode_Ok in H as (p0 & pn & -> & Hp & -> & ->).
  exists (construct T name (Some p0)).
  split.
  - rewrite deref_update_ne.
    + apply deref_app_new.
    + apply deref_lt in Hp. lia.
  - destruct T; repeat split; apply TRS_defaults.
Qed.

(** C4.  The projection matrix of [PerspectiveCamera(aspectRatio, yfov,
    znear, zfar)]: with [zfar > 0] its entries are
    [2,2] = (zfar+znear)/(znear-zfar), [2,3] = 2*zfar*znear/(znear-zfar) and
    [3,2] = -1; with [zfar <= 0] they are [2,2] = -1, [2,3] = -2*znear and
    [3,2] = -1; in both cases [0,0] = 1/(aspectRatio*tan(yfov/2)) and
    [1,1] = 1/tan(yfov/2), which coincide when the aspect ratio is 1. *)
Theorem perspective_projection_entries (aspectRatio yfov znear zfar : R) :
  let P := projectionMatrix (pc_Camera (PerspectiveCamera_new aspectRatio yfov znear zfar)) in
  (zfar > 0 ->
     entry P i2 i2 = (zfar + znear) / (znear - zfar)
     /\ entry P i2 i3 = (2 * zfar * znear) / (znear - zfar)
     /\ entry P i3 i2 = -1)
  /\ (zfar <= 0 ->
     entry P i2 i2 = -1
     /\ entry P i2 i3 = -2 * znear
     /\ entry P i3 i2 = -1)
  /\ entry P i0 i0 = 1 / (aspectRatio * tan (yfov / 2))
  /\ entry P i1 i1 = 1 / tan (yfov / 2)
  /\ (aspectRatio = 1 -> entry P i0 i0 = entry P i1 i1).
Proof.
  intros P. subst P. unfold PerspectiveCamera_new, updateProjectionMatrix. simpl.
  replace (yfov * 0.5) with (yfov / 2) by lra.
  destruct (Rlt_dec 0 zfar) as [Hf | Hf]; simpl;
    (split; [intros H | split; [intros H | ]]); try lra;
    repeat split; try reflexivity.
  all: intros ->; cbv [entry mget vget Mat4_of_array mmk vmk aget c0 c1 e0 e1 row0 row1];
    rewrite Rmult_1_l; reflexivity.
Qed.

End NodeProps.

(** ** Properties of the scene tree *)

Module SceneGraph.
Import glutils core Spec SceneSpec LinearAlgebra NodeProps.

Lemma lock_Some (st : Store) (w : option NodeId) (p : NodeId) :
  lock st w = Some p <-> w = Some p /\ exists pn, deref st p = Some pn.
Proof.
  unfold lock. destruct w as [q|].
  - destruct (deref st q) as [qn|] eqn:E; split.
    + intros [= ->]. eauto.
    + intros [[= ->] _]. reflexivity.
    + discriminate.
    + intros [[= ->] [pn Hpn]]. congruence.
  - split; [discriminate | intros [[=] _]].
Qed.

Lemma deref_update (st : Store) (id id' : NodeId) (f : Node -> Node) :
  deref (update id f st) id'
  = if Nat.eq_dec id id' then option_map f (deref st id') else deref st id'.
Proof.
  destruct (Nat.eq_dec id id') as [<- | Hne].
  - destruct (deref st id) as [n|] eqn:E.
    + rewrite (deref_update_eq _ _ _ _ E). reflexivity.
    + unfold update. rewrite E. simpl. exact E.
  - apply deref_update_ne, Hne.
Qed.

Lemma lock_update (st : Store) (id : NodeId) (f : Node -> Node) (w : option NodeId) :
  lock (update id f st) w = lock st w.
Proof.
  unfold lock. destruct w as [p|]; [| reflexivity].
  rewrite deref_update. destruct (Nat.eq_dec id p); [| reflexivity].
  destruct (deref st p); reflexivity.
Qed.



(** More fuel never changes a result. *)
Lemma totalTransformMatrix_fuel (st : Store) (fuel fuel' : nat) (id : NodeId) (M : Mat4) :
  totalTransformMatrix fuel st id = Some M -> (fuel <= fuel')%nat ->
  totalTransformMatrix fuel' st id = Some M.
Proof.
  revert fuel' id M. induction fuel as [| fuel IH]; intros fuel' id M H Hle.
  - discriminate.
  - destruct fuel' as [| fuel']; [lia |].
    simpl in *. destruct (deref st id) as [this|]; [| discriminate].
    destruct (parent st this) as [p|]; [| exact H].
    destruct (totalTransformMatrix fuel st p) as [Mp|] eqn:E; [| discriminate].
    rewrite (IH fuel' p Mp E) by lia. exact H.
Qed.

(** In a store where parents are older than their children the climb ends:
    a fuel above the handle is enough. *)
Lemma totalTransformMatrix_total (st : Store) :
  parents_older st ->
  forall (id : NodeId) (this : Node),
    deref st id = Some this -> exists M, totalTransformMatrix (S id) st id = Some M.
Proof.
  intros Hold id. induction id as [id IH] using lt_wf_ind. intros this Hthis.
  simpl. rewrite Hthis.
  destruct (parent st this) as [p|] eqn:Hp; [| eauto].
  apply lock_Some in Hp as [Hp [pn Hpn]].
  pose proof (Hold id this p Hthis Hp) as Hlt.
  destruct (IH p Hlt pn Hpn) as [Mp HMp].
  rewrite (totalTransformMatrix_fuel st (S p) id p Mp HMp) by lia. eauto.
Qed.

Lemma totalTransformMatrix_parent (st : Store) (fuel : nat) (id p : NodeId)
    (this : Node) (Mp : Mat4) :
  deref st id = Some this -> parent st this = Some p ->
  totalTransformMatrix fuel st p = Some Mp ->
  totalTransformMatrix (S fuel) st id = Some (mmul Mp (m_transformMatrix this)).
Proof. intros H1 H2 H3. simpl. rewrite H1, H2, H3. reflexivity. Qed.

Lemma totalTransformMatrix_orphan (st : Store) (fuel : nat) (id : NodeId) (this : Node) :
  deref st id = Some this -> parent st this = None ->
  totalTransformMatrix (S fuel) st id = Some (m_transformMatrix this).
Proof. intros H1 H2. simpl. rewrite H1, H2. reflexivity. Qed.



End SceneGraph.

(** ** The factory keeps the store well formed *)

Module Invariant.
Import glutils core Spec SceneSpec LinearAlgebra NodeProps SceneGraph.

Lemma keeps_links_call (s : Setter) : keeps_links (call s).
Proof. intros n. destruct s; simpl; auto. Qed.

Lemma keeps_links_setTransformMatrix (M : Mat4) : keeps_links (setTransformMatrix M).
Proof. intros n. simpl. auto. Qed.

Lemma keeps_links_setMesh (mesh : option MeshId) : keeps_links (setMesh mesh).
Proof.
  intros n. unfold setMesh. destruct (derived n) eqn:E; simpl; rewrite ?E; eauto 6.
Qed.

Lemma keeps_links_setCamera (cam : option Camera) : keeps_links (setCamera cam).
Proof.
  intros n. unfold setCamera.
  destruct (derived n) eqn:E; simpl; rewrite ?E; repeat split; auto;
    intros [mesh [=]].
Qed.

Lemma keeps_links_setLightPosition (p : Vec3) : keeps_links (setLightPosition p).
Proof.
  intros n. unfold setLightPosition.
  destruct (derived n) eqn:E; simpl; rewrite ?E; repeat split; auto;
    intros [mesh [=]].
Qed.

Lemma wf_empty : wf_store [].
Proof. split; intros id n; unfold deref; rewrite lookup_nil; discriminate. Qed.

Lemma wf_update (st : Store) (id : NodeId) (f : Node -> Node) :
  keeps_links f -> wf_store st -> wf_store (update id f st).
Proof.
  intros Hf [Hold Hnew]. split.
  - intros x n p Hx Hp. rewrite deref_update in Hx.
    destruct (Nat.eq_dec id x) as [-> | Hne].
    + destruct (deref st x) as [m|] eqn:Hm; [| discriminate].
      injection Hx as <-. destruct (Hf m) as (Ep & _). rewrite Ep in Hp. eauto.
    + eauto.
  - intros x n Hx.
    assert (exists m, deref st x = Some m
                      /\ m_children n = m_children m /\ m_type n = m_type m
                      /\ ((exists mesh, derived m = IsMeshNode mesh) ->
                          exists mesh, derived n = IsMeshNode mesh))
      as (m & Hm & Ec & Et & Ed).
    { rewrite deref_update in Hx. destruct (Nat.eq_dec id x) as [-> | Hne].
      - destruct (deref st x) as [m|] eqn:Hm; [| discriminate].
        injection Hx as <-. destruct (Hf m) as (_ & Ec & Et & Ed). eauto 6.
      - exists n. auto. }
    destruct (Hnew x m Hm) as [Hch Hcls]. split.
    + intros c Hc. rewrite Ec in Hc. destruct (Hch c Hc) as [Hlt [cn Hcn]].
      split; [exact Hlt |]. rewrite deref_update.
      destruct (Nat.eq_dec id c); rewrite Hcn; simpl; eauto.
    + intros Ht. rewrite Et in Ht. auto.
Qed.

Lemma construct_shape (T : NodeClass) (name : string) (p : option NodeId) :
  m_parent (construct T name p) = p
  /\ m_children (construct T name p) = []
  /\ (m_type (construct T name p) = NodeType.Mesh ->
      exists mesh, derived (construct T name p) = IsMeshNode mesh).
Proof. destruct T; simpl; repeat split; try discriminate; eauto. Qed.

Lemma wf_alloc (st : Store) (n : Node) :
  wf_store st ->
  (forall p, m_parent n = Some p -> (p < length st)%nat) ->
  m_children n = [] ->
  (m_type n = NodeType.Mesh -> exists mesh, derived n = IsMeshNode mesh) ->
  wf_store (st ++ [Some n]).
Proof.
  intros [Hold Hnew] Hp Hc Hcls.
  assert (forall x m, deref (st ++ [Some n]) x = Some m ->
            deref st x = Some m \/ (x = length st /\ m = n)) as Hcases.
  { intros x m Hx. unfold deref in *.
    destruct (decide (x < length st)%nat) as [Hlt | Hge].
    - rewrite lookup_app_l in Hx by assumption. auto.
    - rewrite lookup_app_r in Hx by lia.
      destruct (x - length st)%nat as [| k] eqn:Ek; simpl in Hx.
      + right. split; [lia | congruence].
      + destruct k; discriminate. }
  split.
  - intros x m p Hx Hm. destruct (Hcases x m Hx) as [Hx' | [-> ->]]; eauto.
  - intros x m Hx. destruct (Hcases x m Hx) as [Hx' | [-> ->]].
    + destruct (Hnew x m Hx') as [Hch Hcl]. split; [| exact Hcl].
      intros c Hin. destruct (Hch c Hin) as [Hlt [cn Hcn]].
      split; [exact Hlt |]. exists cn. eapply deref_app_old, Hcn.
    + split; [| exact Hcls]. rewrite Hc. intros c [].
Qed.

Lemma wf_addChild (st : Store) (p c : NodeId) (cn : Node) :
  wf_store st -> (p < c)%nat -> deref st c = Some cn ->
  wf_store (update p (addChild (Some c)) st).
Proof.
  intros [Hold Hnew] Hlt Hc. split.
  - intros x n q Hx Hq. rewrite deref_update in Hx.
    destruct (Nat.eq_dec p x) as [-> | Hne]; [| eauto].
    destruct (deref st x) as [m|] eqn:Hm; [| discriminate].
    injection Hx as <-. simpl in Hq. eauto.
  - intros x n Hx.
    assert (forall y yn, deref st y = Some yn ->
              exists yn', deref (update p (addChild (Some c)) st) y = Some yn') as Hlive.
    { intros y yn Hy. rewrite deref_update.
      destruct (Nat.eq_dec p y); rewrite Hy; simpl; eauto. }
    rewrite deref_update in Hx. destruct (Nat.eq_dec p x) as [-> | Hne].
    + destruct (deref st x) as [m|] eqn:Hm; [| discriminate].
      injection Hx as <-. destruct (Hnew x m Hm) as [Hch Hcl]. split; [| exact Hcl].
      intros d Hd. simpl in Hd. apply in_app_iff in Hd as [Hd | [[= <-] | []]].
      * destruct (Hch d Hd) as [Hxd [dn Hdn]]. split; [exact Hxd | eauto].
      * split; [exact Hlt | eauto].
    + destruct (Hnew x n Hx) as [Hch Hcl]. split; [| exact Hcl].
      intros d Hd. destruct (Hch d Hd) as [Hxd [dn Hdn]]. split; [exact Hxd | eauto].
Qed.

(** [createNode] keeps the store well formed. *)
Lemma wf_createNode (T : NodeClass) (this : Scene) (name : string)
    (p : option NodeId) (st st' : Store) (id : NodeId) :
  wf_store st -> createNode T this name p st = Ok (id, st') -> wf_store st'.
Proof.
  intros Hwf H. apply createNode_Ok in H as (p0 & pn & -> & Hp & -> & ->).
  pose proof (deref_lt _ _ _ Hp) as Hlt.
  destruct (construct_shape T name (Some p0)) as (Ep & Ec & Ecls).
  eapply wf_addChild; [| exact Hlt | apply deref_app_new].
  apply wf_alloc; auto. intros q Hq. rewrite Ep in Hq. injection Hq as <-. exact Hlt.
Qed.

(** So does the construction of a scene. *)
Lemma wf_Scene_new (name : string) (dc : option DrawingContext)
    (st st' : Store) (s : Scene) :
  wf_store st -> Scene_new name dc st = Ok (s, st') -> wf_store st'.
Proof.
  intros Hwf. unfold Scene_new. destruct dc; [| discriminate].
  intros [= <- <-]. apply wf_alloc; auto; simpl; discriminate.
Qed.

End Invariant.

(** ** Properties of the render traversal *)

Module Rendering.
Import glutils core Spec SceneSpec LinearAlgebra NodeProps SceneGraph.

Lemma andThen_Ok (m : Trace) (k : unit -> Trace) (evs : list Event) :
  andThen m k = (evs, Ok tt) ->
  exists e1 e2, m = (e1, Ok tt) /\ k tt = (e2, Ok tt) /\ evs = e1 ++ e2.
Proof.
  destruct m as [e1 [[] | what |]]; simpl; [| discriminate | discriminate].
  destruct (k tt) as [e2 r]. intros [= <- ->]. eauto.
Qed.

Lemma forEach_Ok {A : Type} (xs : list A) (body : A -> Trace) (evs : list Event) :
  forEach xs body = (evs, Ok tt) ->
  (forall x, In x xs -> exists ex, body x = (ex, Ok tt))
  /\ (forall e, In e evs <-> exists x ex, In x xs /\ body x = (ex, Ok tt) /\ In e ex).
Proof.
  revert evs. induction xs as [| x xs IH]; intros evs H; simpl in H.
  - injection H as <-. split.
    + intros x [].
    + intros e. split; [intros [] | intros (x & ex & [] & _)].
  - apply andThen_Ok in H as (e1 & e2 & Hx & Hxs & ->).
    destruct (IH e2 Hxs) as [IHa IHb]. split.
    + intros y [<- | Hy]; eauto.
    + intros e. rewrite in_app_iff, IHb. split.
      * intros [He | (y & ey & Hy & Hb & He)].
        -- exists x, e1. simpl. auto.
        -- exists y, ey. simpl. auto.
      * intros (y & ey & [<- | Hy] & Hb & He).
        -- left. congruence.
        -- right. eauto.
Qed.

Lemma NodeType_eqb_eq (a b : NodeType.t) : NodeType.eqb a b = true <-> a = b.
Proof. destruct a, b; simpl; split; congruence. Qed.

Lemma drawMesh_Ok (this : Renderer) (n : Node) (M : Mat4)
    (lightVec : list (option NodeId)) (evs : list Event) :
  drawMesh this n M lightVec = (evs, Ok tt) ->
  forall e, In e evs <->
    exists mesh,
      m_type n = NodeType.Mesh /\ derived n = IsMeshNode (Some mesh)
      /\ e = EvDraw mesh (mmul (m_viewMatrix this) M) (m_projectionMatrix this)
               (transpose (invert M)) lightVec.
Proof.
  unfold drawMesh. destruct (NodeType.eqb NodeType.Mesh (m_type n)) eqn:Et.
  - apply NodeType_eqb_eq in Et.
    destruct (derived n) as [| [mesh |] | |] eqn:Ed; try discriminate.
    + intros [= <-] e. simpl. split.
      * intros [<- | []]. exists mesh. auto.
      * intros (mesh' & _ & [= <-] & ->). auto.
    + intros [= <-] e. simpl. split; [intros [] | intros (mesh' & _ & [=] & _)].
  - intros [= <-] e. simpl. split; [intros [] |].
    intros (mesh & Ht & _). symmetry in Ht. apply NodeType_eqb_eq in Ht. congruence.
Qed.

(** The events of a traversal that returned are the draws of the mesh
    nodes it visits, each with the matrices of its own visit; and no
    visited node has a null child. *)
Lemma renderNode_Ok (st : Store) (this : Renderer) (lightVec : list (option NodeId)) :
  forall (fuel : nat) (id : NodeId) (P : Mat4) (evs : list Event),
    renderNode fuel st this (Some id) P lightVec = (evs, Ok tt) ->
    (forall e, In e evs <->
       exists d dn Md mesh,
         Visits st id P d dn Md
         /\ m_type dn = NodeType.Mesh /\ derived dn = IsMeshNode (Some mesh)
         /\ e = EvDraw mesh (mmul (m_viewMatrix this) Md) (m_projectionMatrix this)
                  (transpose (invert Md)) lightVec)
    /\ (forall d dn Md, Visits st id P d dn Md -> ~ In None (m_children dn)).
Proof.
  induction fuel as [| fuel IH]; intros id P evs H; simpl in H; [discriminate |].
  destruct (deref st id) as [n|] eqn:Hn; [| discriminate].
  apply andThen_Ok in H as (e1 & e2 & Hdraw & Hloop & ->).
  pose proof (drawMesh_Ok _ _ _ _ _ Hdraw) as Hd.
  apply forEach_Ok in Hloop as [Hall Hev].
  assert (forall c, In c (m_children n) -> exists c', c = Some c') as Hnonnull.
  { intros [c'|] Hc; [eauto |]. destruct (Hall None Hc) as [ex Hex].
    destruct fuel; discriminate. }
  split.
  - intros e. rewrite in_app_iff, Hd, Hev. split.
    + intros [(mesh & Ht & Hm & ->) | (c & ex & Hc & Hex & He)].
      * exists id, n, (mmul P (m_transformMatrix n)), mesh.
        repeat split; auto. constructor. exact Hn.
      * destruct (Hnonnull c Hc) as [c' ->].
        apply (proj1 (IH c' _ ex Hex)) in He as (d & dn & Md & mesh & Hv & Hrest).
        exists d, dn, Md, mesh. split; [| exact Hrest].
        econstructor; eassumption.
    + intros (d & dn & Md & mesh & Hv & Ht & Hm & ->).
      inversion Hv; subst.
      * left. exists mesh. replace n with dn by congruence. auto.
      * right. replace n0 with n in * by congruence.
        destruct (Hall (Some c) ltac:(assumption)) as [ex Hex].
        exists (Some c), ex. repeat split; auto.
        apply (proj1 (IH c _ ex Hex)). exists d, dn, Md, mesh. auto.
  - intros d dn Md Hv. inversion Hv; subst.
    + replace dn with n by congruence.
      intros Hin. destruct (Hnonnull None Hin) as [c' [=]].
    + replace n0 with n in * by congruence.
      destruct (Hall (Some c) ltac:(assumption)) as [ex Hex].
      eapply (proj2 (IH c _ ex Hex)); eassumption.
Qed.

Lemma forEach_behaves {A : Type} (xs : list A) (body : A -> Trace) :
  (forall x, In x xs -> snd (body x) <> NoBehaviour) ->
  snd (forEach xs body) <> NoBehaviour.
Proof.
  induction xs as [| x xs IH]; intros H; simpl; [discriminate |].
  pose proof (H x (or_introl eq_refl)) as Hx.
  destruct (body x) as [e1 [[] | what |]]; simpl in *; try congruence.
  pose proof (IH (fun y Hy => H y (or_intror Hy))) as Hxs.
  destruct (forEach xs body) as [e2 r]. exact Hxs.
Qed.

(** In a store the factory can build the traversal ends: it returns or it
    throws, given fuel for the handles that remain above the node. *)
Lemma renderNode_behaves (st : Store) (this : Renderer) (lightVec : list (option NodeId)) :
  children_newer st ->
  forall (fuel : nat) (id : NodeId) (n : Node) (P : Mat4),
    deref st id = Some n -> (length st - id < fuel)%nat ->
    snd (renderNode fuel st this (Some id) P lightVec) <> NoBehaviour.
Proof.
  intros Hwf. induction fuel as [| fuel IH]; intros id n P Hn Hfuel; [lia |].
  simpl. rewrite Hn. destruct (Hwf id n Hn) as [Hch Hcls].
  pose proof (deref_lt _ _ _ Hn) as Hlt.
  assert (snd (forEach (m_children n) (fun childNode =>
            renderNode fuel st this childNode (mmul P (m_transformMatrix n)) lightVec))
          <> NoBehaviour) as Hloop.
  { apply forEach_behaves. intros [c|] Hc.
    - destruct (Hch c Hc) as [Hidc [cn Hcn]]. apply (IH c cn); [assumption | lia].
    - destruct fuel; [lia | simpl; discriminate]. }
  unfold drawMesh. destruct (NodeType.eqb NodeType.Mesh (m_type n)) eqn:Et.
  - apply NodeType_eqb_eq in Et. symmetry in Et. destruct (Hcls Et) as [mesh ->].
    destruct mesh; simpl;
      destruct (forEach (m_children n) _) as [e2 r]; exact Hloop.
  - simpl. destruct (forEach (m_children n) _) as [e2 r]. exact Hloop.
Qed.

Lemma renderNode_null (fuel : nat) (st : Store) (this : Renderer) (P : Mat4)
    (lightVec : list (option NodeId)) :
  renderNode (S fuel) st this None P lightVec
  = ([], Throw "Found null node during rendering").
Proof. reflexivity. Qed.

Lemma andThen_Throw (m : Trace) (k : unit -> Trace) (evs : list Event) (what : string) :
  andThen m k = (evs, Throw what) ->
  (exists e1, m = (e1, Throw what))
  \/ (exists e1 e2, m = (e1, Ok tt) /\ k tt = (e2, Throw what)).
Proof.
  destruct m as [e1 [[] | what' |]]; simpl; [| | discriminate].
  - destruct (k tt) as [e2 r]. intros [= <- ->]. eauto.
  - intros [= <- <-]. eauto.
Qed.

Lemma forEach_Throw {A : Type} (xs : list A) (body : A -> Trace) (evs : list Event)
    (what : string) :
  forEach xs body = (evs, Throw what) ->
  exists x ex, In x xs /\ body x = (ex, Throw what).
Proof.
  revert evs. induction xs as [| x xs IH]; intros evs H; simpl in H; [discriminate |].
  apply andThen_Throw in H as [[e1 H] | (e1 & e2 & _ & H)].
  - exists x, e1. simpl. auto.
  - destruct (IH e2 H) as (y & ey & Hy & Hb). exists y, ey. simpl. auto.
Qed.

(** The one exception the traversal raises is the one for a null node. *)
Lemma renderNode_Throw (st : Store) (this : Renderer) (lightVec : list (option NodeId)) :
  forall (fuel : nat) (node : option NodeId) (P : Mat4) (evs : list Event) (what : string),
    renderNode fuel st this node P lightVec = (evs, Throw what) ->
    what = "Found null node during rendering"%string.
Proof.
  induction fuel as [| fuel IH]; intros node P evs what H; simpl in H; [discriminate |].
  destruct node as [id|]; [| congruence].
  destruct (deref st id) as [n|]; [| discriminate].
  apply andThen_Throw in H as [[e1 H] | (e1 & e2 & _ & H)].
  - unfold drawMesh in H. destruct (NodeType.eqb _ _); [| discriminate].
    destruct (derived n) as [| [|] | |]; discriminate.
  - apply forEach_Throw in H as (c & ex & _ & H). eapply IH, H.
Qed.

(** What a call of [render] that returned has done. *)
Lemma render_Ok (fuel : nat) (this : Renderer) (s : Scene) (st : Store) :
  let fr := render fuel this (Some s) st in
  f_result fr = Ok tt ->
  exists dc,
    m_drawingContext s = Some dc
    /\ (isDeviceOpen dc = false -> fr = mkFrame this st [] (Ok tt))
    /\ (isDeviceOpen dc = true ->
        exists cameraNode total cam lightVec ds,
          m_activeCameraNode s = Some cameraNode
          /\ totalTransformMatrix fuel st cameraNode = Some total
          /\ camera st cameraNode = Ok (Some cam)
          /\ f_renderer fr = mkRenderer (invert total) (projectionMatrix cam) (m_bgColor this)
          /\ getLightNodes fuel st s = Some lightVec
          /\ placeLights fuel (f_renderer fr) lightVec st = Some (f_store fr)
          /\ renderNode fuel (f_store fr) (f_renderer fr) (m_rootNode s) identity lightVec
             = (ds, Ok tt)
          /\ f_events fr
             = [EvActivate; EvGlState; EvClear (m_bgColor this)] ++ ds ++ [EvPresent]).
Proof.
  unfold render. simpl.
  destruct (m_drawingContext s) as [dc|]; [| discriminate].
  intros H. exists dc. split; [reflexivity |].
  destruct (isDeviceOpen dc); simpl in *; [| split; [reflexivity | discriminate]].
  split; [discriminate | intros _].
  destruct (m_activeCameraNode s) as [cameraNode|]; [| discriminate].
  destruct (totalTransformMatrix fuel st cameraNode) as [total|] eqn:Ht; [| discriminate].
  destruct (camera st cameraNode) as [[cam|] | |] eqn:Hc; try discriminate.
  destruct (getLightNodes fuel st s) as [lightVec|] eqn:Hg; [| discriminate].
  simpl in *.
  destruct (placeLights fuel _ lightVec st) as [st'|] eqn:Hl; [| discriminate].
  destruct (renderNode fuel st' _ (m_rootNode s) _ lightVec) as [ds [[] | |]] eqn:Hr;
    try discriminate.
  exists cameraNode, total, cam, lightVec, ds. simpl.
  repeat split; try reflexivity; assumption.
Qed.

Lemma draws_app (xs ys : list Event) : draws (xs ++ ys) = draws xs ++ draws ys.
Proof. apply List.filter_app. Qed.

End Rendering.

(** ** The renderer on whole scenes *)

Module Frames.
Import glutils core Spec SceneSpec LinearAlgebra NodeProps SceneGraph Invariant
       Rendering Examples.

Ltac calc :=
  cbv -[IZR Rplus Rmult Rminus Ropp Rdiv Rinv cos sin tan PI Req_dec_T Rlt_dec
        invert mmul mmul_assign transpose translate rotateXYZW scale setIdentity
        identity Mat4_zero mvmul vdiv PerspectiveCamera_new theCamera].

Ltac fold_identity :=
  repeat match goal with
         | |- context [setIdentity ?X] => change (setIdentity X) with identity
         end.

Lemma invert_translate (x y z : R) :
  invert (Mat4_of_array (translate_array x y z))
  = Mat4_of_array (translate_array (- x) (- y) (- z)).
Proof.
  assert (invert_det (Mat4_of_array (translate_array x y z)) = 1) as E
    by (mat_unfold; ring).
  rewrite invert_nonsingular by (rewrite E; lra).
  rewrite E. mat_ext; unfold Rdiv; rewrite ?Rinv_1; ring.
Qed.

Lemma invert_identity : invert identity = identity.
Proof.
  rewrite invert_nonsingular; rewrite invert_det_identity; [| lra].
  mat_ext; unfold Rdiv; rewrite ?Rinv_1; ring.
Qed.

Lemma transpose_identity : transpose identity = identity.
Proof. reflexivity. Qed.

Lemma translate_only (x y z : R) :
  translate x y z (rotateXYZW 0 0 0 1 (scale 1 1 1 identity))
  = Mat4_of_array (translate_array x y z).
Proof. mat_ring. Qed.

(** The scene of a camera at (0,0,5) and a mesh node with the identity as
    local transform, both under the root: the view matrix translates by
    (0,0,-5) and the one draw call gets that matrix as model-view. *)
Lemma camera_mesh_frame :
  let fr := render 3 Renderer_new (Some (fst camera_mesh_scene)) (snd camera_mesh_scene) in
  f_result fr = Ok tt
  /\ m_viewMatrix (f_renderer fr) = Mat4_of_array (translate_array 0 0 (-5))
  /\ draws (f_events fr)
     = [EvDraw theMesh (m_viewMatrix (f_renderer fr)) (projectionMatrix theCamera)
               identity []].
Proof.
  calc. fold_identity.
  rewrite !mmul_identity_l, translate_only, invert_translate, Ropp_0.
  repeat split.
  rewrite mmul_assign_mmul, mmul_identity_r, invert_identity, transpose_identity.
  reflexivity.
Qed.

Lemma wf_camera_mesh_scene : wf_store (snd camera_mesh_scene).
Proof.
  unfold camera_mesh_scene, empty_scene.
  destruct (Scene_new "scene" (Some openContext) []) as [[s0 st0] | |] eqn:E0;
    [| discriminate E0 | discriminate E0].
  pose proof (wf_Scene_new _ _ _ _ _ wf_empty E0) as W0.
  cbv beta iota zeta delta [value].
  destruct (createNode CCameraNode s0 "cameraNode" (m_rootNode s0) st0)
    as [[c st1] | |] eqn:E1.
  2, 3: (injection E0 as <- <-; discriminate E1).
  pose proof (wf_createNode _ _ _ _ _ _ _ W0 E1) as W1.
  cbv beta iota zeta delta [value].
  set (st2 := update c (setCamera (Some theCamera)) (update c (setPosition 0 0 5) st1)).
  assert (wf_store st2) as W2.
  { apply wf_update; [apply keeps_links_setCamera |].
    apply wf_update; [apply (keeps_links_call (SetPosition 0 0 5)) | exact W1]. }
  destruct (createNode CMeshNode s0 "meshNode" (m_rootNode s0) st2)
    as [[m st3] | |] eqn:E3.
  2, 3: (injection E0 as <- <-; injection E1 as <- <-; discriminate E3).
  cbv beta iota zeta delta [value snd]. apply wf_update; [apply keeps_links_setMesh |].
  eapply wf_createNode; eassumption.
Qed.

(** C6, as the code has it.  [render] throws when the scene is null and
    when the scene has no drawing context.  Otherwise, when the device is
    not open, it returns at once: no error, no event, renderer and store
    untouched, whatever the camera.  Otherwise it throws when no active
    camera node is set and when the active camera node has no camera, in
    both cases before any draw call.  Every exception it raises is one of
    these four or the one of a null node met by the traversal. *)
Theorem render_failures (fuel : nat) (this : Renderer) (scene : option Scene) (st : Store) :
  let fr := render fuel this scene st in
  (scene = None -> f_result fr = Throw "Invalid scene" /\ f_events fr = [])
  /\ (forall s,
     scene = Some s -> m_drawingContext s = None ->
     f_result fr = Throw "Invalid drawing context" /\ f_events fr = [])
  /\ (forall s dc,
     scene = Some s -> m_drawingContext s = Some dc -> isDeviceOpen dc = false ->
     fr = mkFrame this st [] (Ok tt))
  /\ (forall s dc,
     scene = Some s -> m_drawingContext s = Some dc -> isDeviceOpen dc = true ->
     (m_activeCameraNode s = None ->
      f_result fr = Throw "Invalid camera node" /\ draws (f_events fr) = [])
     /\ (forall c total,
         m_activeCameraNode s = Some c ->
         totalTransformMatrix fuel st c = Some total ->
         camera st c = Ok None ->
         f_result fr = Throw "Invalid camera" /\ draws (f_events fr) = []))
  /\ (forall what,
     f_result fr = Throw what ->
     (scene = None /\ what = "Invalid scene"%string)
     \/ exists s,
         scene = Some s
         /\ ((m_drawingContext s = None /\ what = "Invalid drawing context"%string)
             \/ exists dc,
                 m_drawingContext s = Some dc /\ isDeviceOpen dc = true
                 /\ ((m_activeCameraNode s = None /\ what = "Invalid camera node"%string)
                     \/ (exists c,
                           m_activeCameraNode s = Some c /\ camera st c = Ok None
                           /\ what = "Invalid camera"%string)
                     \/ what = "Found null node during rendering"%string))).
Proof.
  intros fr. subst fr. unfold render.
  split; [| split; [| split; [| split]]].
  - intros ->. split; reflexivity.
  - intros s -> ->. split; reflexivity.
  - intros s dc -> -> ->. reflexivity.
  - intros s dc -> -> ->. simpl. split.
    + intros ->. split; reflexivity.
    + intros c total -> -> ->. split; reflexivity.
  - intros what. destruct scene as [s|]; [| intros [= <-]; left; auto].
    intros H. right. exists s. split; [reflexivity |].
    destruct (m_drawingContext s) as [dc|]; [| injection H as <-; left; auto].
    right. exists dc. split; [reflexivity |].
    destruct (isDeviceOpen dc); simpl in H; [| discriminate].
    split; [reflexivity |].
    destruct (m_activeCameraNode s) as [c|]; [| injection H as <-; left; auto].
    right.
    destruct (totalTransformMatrix fuel st c) as [total|]; [| discriminate].
    destruct (camera st c) as [[cam|] | |] eqn:Hc; try discriminate.
    2: { injection H as <-. left. exists c. auto. }
    right.
    destruct (getLightNodes fuel st s) as [lightVec|]; [| discriminate].
    simpl in H.
    destruct (placeLights fuel _ lightVec st) as [st'|]; [| discriminate].
    destruct (renderNode fuel st' _ (m_rootNode s) _ lightVec) as [ds [[] | w |]] eqn:Hr;
      try discriminate.
    injection H as <-. eapply renderNode_Throw, Hr.
Qed.

(** C6, as stated, fails where the device is not open and no camera is
    set: a listed reason for a fatal error holds, yet [render] returns without
    one. *)
Lemma render_closed_device_no_camera :
  let scene := Some (fst closed_scene) in
  let st := snd closed_scene in
  listed_failure scene st
  /\ f_result (render 1 Renderer_new scene st) = Ok tt
  /\ ~ throws (render 1 Renderer_new scene st).
Proof.
  simpl. split; [| split].
  - right. left. reflexivity.
  - reflexivity.
  - intros [what H]. discriminate H.
Qed.

End Frames.

(** ** The node factory *)

Module Factory.
Import glutils core Spec SceneSpec LinearAlgebra NodeProps SceneGraph Examples.

Lemma createNode_null_parent (T : NodeClass) (this : Scene) (name : string) (st : Store) :
  createNode T this name None st = Throw "Invalid node parent".
Proof. reflexivity. Qed.

(** On a parent that is alive the factory succeeds, whatever the name and
    whichever scene the parent belongs to: the new node is the last child of
    the parent, points back to it and carries the name. *)
Lemma createNode_succeeds (T : NodeClass) (this : Scene) (name : string)
    (p : NodeId) (pn : Node) (st : Store) :
  deref st p = Some pn ->
  exists st',
    createNode T this name (Some p) st = Ok (length st, st')
    /\ deref st' (length st) = Some (construct T name (Some p))
    /\ deref st' p = Some (addChild (Some (length st)) pn)
    /\ m_parent (construct T name (Some p)) = Some p
    /\ m_name (construct T name (Some p)) = name.
Proof.
  intros Hp. pose proof (deref_lt _ _ _ Hp) as Hlt.
  unfold createNode. rewrite Hp. eexists. split; [reflexivity |].
  split; [| split; [| split]].
  - rewrite deref_update_ne by lia. apply deref_app_new.
  - apply deref_update_eq. eapply deref_app_old, Hp.
  - destruct T; reflexivity.
  - destruct T; reflexivity.
Qed.

(** C7 at its failing input: on a scene with only its root, [createNode]
    is called twice with the name "a" and the root as parent.  The second
    call returns as the first did, and the root then has two children
    named "a". *)
Theorem createNode_duplicate_name :
  exists st1 st2 root n1 n2,
    twice_a_1 = Ok (1%nat, st1)
    /\ twice_a_2 = Ok (2%nat, st2)
    /\ deref st2 0 = Some root
    /\ m_children root = [Some 1%nat; Some 2%nat]
    /\ deref st2 1 = Some n1 /\ m_name n1 = "a"%string
    /\ deref st2 2 = Some n2 /\ m_name n2 = "a"%string.
Proof.
  unfold twice_a_2, twice_a_1. cbv -[setIdentity Mat4_zero IZR].
  do 5 eexists. repeat split.
Qed.

End Factory.

(** ** The theorems at concrete inputs *)

Module Witness.
Import glutils core Spec Geometry SceneSpec LinearAlgebra NodeProps SceneGraph Invariant
       Rendering Frames Factory Examples.

Lemma sample_det : det (entry sample) = 6.
Proof. unfold sample. mat_unfold. ring. Defined.

Lemma all_ones_det : det (entry all_ones) = 0.
Proof. unfold all_ones. mat_unfold. ring. Defined.


(** C3 on a matrix with determinant 6 and on one with determinant 0. *)
Lemma invert_cofactor_inverse_witness :
  mmul sample (invert sample) = identity
  /\ entry (invert sample) i0 i0 = cofactor (entry sample) i0 i0 / det (entry sample)
  /\ invert all_ones = all_ones.
Proof.
  destruct (invert_cofactor_inverse sample) as (_ & H & _).
  destruct (invert_cofactor_inverse all_ones) as (H0 & _ & _).
  assert (det (entry sample) <> 0) as Hd by (rewrite sample_det; lra).
  destruct (H Hd) as (He & Hr & _).
  split; [exact Hr | split; [apply He | exact (H0 all_ones_det)]].
Defined.

(** C9 on the same matrix. *)
Lemma invert_involutive_witness : invert (invert sample) = sample.
Proof.
  apply invert_involutive. rewrite sample_det. lra.
Defined.

(** C4 on the camera of the perspective sanity check and on one with an
    infinite far plane. *)
Lemma perspective_projection_entries_witness :
  let P := projectionMatrix (pc_Camera (PerspectiveCamera_new 1 (PI / 2) 0.1 100)) in
  let Q := projectionMatrix (pc_Camera (PerspectiveCamera_new 1 (PI / 2) 0.1 0)) in
  entry P i0 i0 = entry P i1 i1
  /\ entry P i3 i2 = -1
  /\ entry P i2 i2 = (100 + 0.1) / (0.1 - 100)
  /\ entry Q i2 i2 = -1
  /\ entry Q i2 i3 = -2 * 0.1.
Proof.
  intros P Q.
  destruct (perspective_projection_entries 1 (PI / 2) 0.1 100) as (Hf & _ & _ & _ & Ha).
  destruct (perspective_projection_entries 1 (PI / 2) 0.1 0) as (_ & Hi & _).
  assert (100 > 0) as H100 by lra.
  assert (0 <= 0) as H0 by lra.
  destruct (Hf H100) as (H22 & _ & H32).
  destruct (Hi H0) as (I22 & I23 & _).
  split; [exact (Ha eq_refl) |].
  split; [exact H32 |].
  split; [exact H22 |].
  split; [exact I22 | exact I23].
Defined.

(** C10 on the first node created under the root of a scene. *)
Lemma fresh_node_defaults_witness :
  exists n,
    deref (snd (value (0%nat, []) twice_a_1)) 1 = Some n
    /\ m_name n = "a"%string
    /\ m_position n = mkVec3 0 0 0
    /\ m_rotation n = mkVec4 0 0 0 1
    /\ m_scaling n = mkVec3 1 1 1
    /\ m_children n = []
    /\ m_transformMatrix n = identity
    /\ recomputations n = 0%nat
    /\ mmul (Translate (m_position n))
            (mmul (Rotate (m_rotation n)) (Scale (m_scaling n)))
       = m_transformMatrix n.
Proof.
  apply (fresh_node_defaults CNode (fst empty_scene) "a" (m_rootNode (fst empty_scene))
           (snd empty_scene)).
  reflexivity.
Defined.

(** C2 on a node that is scaled by (2,3,4), turned by half a turn about
    Z and moved to (1,2,3): the point (1,0,0) goes to (2,0,0), then to
    (-2,0,0), then to (-1,2,3). *)
Lemma setters_recompute_TRS_witness :
  let n' := calls ([SetScaling 2 3 4; SetRotationQuaternion 0 0 1 0]
                   ++ [SetPosition 1 2 3]) (Node_new "n" None) in
  mvmul (m_transformMatrix n') (point (mkVec3 1 0 0)) = point (mkVec3 (-1) 2 3)
  /\ entry (m_transformMatrix n') i1 i1 = -3
  /\ recomputations n' = 3%nat.
Proof.
  intros n'.
  destruct (setters_recompute_TRS (Node_new "n" None)
              [SetScaling 2 3 4; SetRotationQuaternion 0 0 1 0] (SetPosition 1 2 3))
    as (_ & _ & He & _ & Hp & _ & _ & _ & _ & Hc).
  split; [| split].
  - subst n'. rewrite (Hp (mkVec3 1 0 0)).
    change (point (add3 (mkVec3 1 2 3)
                     (turn_by_quaternion (mkVec4 0 0 1 0)
                        (stretch (mkVec3 2 3 4) (mkVec3 1 0 0))))
            = point (mkVec3 (-1) 2 3)).
    geo_unfold. f_equal; ring.
  - subst n'. rewrite (He i1 i1).
    change (product (translation_by (mkVec3 1 2 3))
              (product (rotation_by_quaternion (mkVec4 0 0 1 0))
                       (scaling_by (mkVec3 2 3 4))) i1 i1 = -3).
    geo_unfold. ring.
  - exact Hc.
Defined.

(** C8 on the matrix with determinant 6: scaling, a quarter turn about Z,
    the local translation, and the half turn about Z of a quaternion. *)
Lemma helpers_multiplication_side_witness :
  entry (scale 2 3 4 sample) i1 i3 = 6
  /\ entry (rotateZ (PI / 2) sample) i0 i3 = -2
  /\ entry (translateLocalXZ 1 1 sample) i1 i3 = 2
  /\ entry (translateLocalXZ 1 1 sample) i0 i3 = 3
  /\ mvmul (rotateXYZW 0 0 1 0 identity) (point (mkVec3 1 0 0)) = point (mkVec3 (-1) 0 0).
Proof.
  destruct (helpers_multiplication_side sample i1 i3)
    as (_ & Hs & _ & _ & _ & _ & _ & Hq & Hl).
  destruct (helpers_multiplication_side sample i0 i3)
    as (_ & _ & _ & _ & Hz & _ & _ & _ & Hl0).
  split; [| split; [| split; [| split]]].
  - rewrite Hs. unfold sample. geo_unfold. ring.
  - rewrite Hz. unfold sample. geo_unfold. rewrite cos_PI2, sin_PI2. ring.
  - rewrite Hl. unfold sample. geo_unfold. ring.
  - rewrite Hl0. unfold sample. geo_unfold. ring.
  - rewrite (Hq 0 0 1 0 (mkVec3 1 0 0)) by ring. geo_unfold. f_equal; ring.
Defined.

(** C6 on a closed device without a camera and on an open device without
    a camera. *)
Lemma render_failures_witness :
  render 1 Renderer_new (Some (fst closed_scene)) (snd closed_scene)
  = mkFrame Renderer_new (snd closed_scene) [] (Ok tt)
  /\ f_result (render 1 Renderer_new (Some (fst empty_scene)) (snd empty_scene))
     = Throw "Invalid camera node"
  /\ f_result (render 1 Renderer_new None []) = Throw "Invalid scene".
Proof.
  destruct (render_failures 1 Renderer_new (Some (fst closed_scene)) (snd closed_scene))
    as (_ & _ & Hclosed & _).
  destruct (render_failures 1 Renderer_new (Some (fst empty_scene)) (snd empty_scene))
    as (_ & _ & _ & Hopen & _).
  destruct (render_failures 1 Renderer_new None []) as (Hnull & _).
  split; [exact (Hclosed (fst closed_scene) closedContext eq_refl eq_refl eq_refl) |].
  split.
  - exact (proj1 (proj1 (Hopen (fst empty_scene) openContext eq_refl eq_refl eq_refl)
                    eq_refl)).
  - exact (proj1 (Hnull eq_refl)).
Defined.

End Witness.

(** ** More about the linear-algebra layer *)

Module MoreLinearAlgebra.
Import glutils core Spec ExtraSpec LinearAlgebra.

Ltac vec_ext := apply Vec4_ext; intros []; mat_unfold.

Lemma transpose_product (A B : Mat4) :
  transpose (mmul A B) = mmul (transpose B) (transpose A).
Proof. mat_destruct A; mat_destruct B. mat_ring. Qed.

(** X1.  Transposing twice gives the matrix back, and the transpose of a
    product is the product of the transposes in the opposite order. *)
Theorem transpose_mmul (A B : Mat4) :
  transpose (transpose A) = A
  /\ transpose (mmul A B) = mmul (transpose B) (transpose A).
Proof.
  split; [mat_destruct A; reflexivity | apply transpose_product].
Qed.

Lemma invert_left_unique (M X : Mat4) :
  invert_det M <> 0 -> mmul X M = identity -> X = invert M.
Proof.
  intros H E.
  rewrite <- (mmul_identity_r X), <- (invert_mmul_r M H), <- mmul_assoc, E.
  apply mmul_identity_l.
Qed.

(** X2.  For two matrices with nonzero determinant, [invert] of the
    product is the product of the inverted matrices in the opposite order. *)
Theorem invert_mmul (A B : Mat4) :
  det (entry A) <> 0 -> det (entry B) <> 0 ->
  invert (mmul A B) = mmul (invert B) (invert A).
Proof.
  rewrite <- !invert_det_det. intros HA HB. symmetry.
  apply invert_left_unique.
  - rewrite invert_det_mmul. apply Rmult_integral_contrapositive. auto.
  - rewrite mmul_assoc, <- (mmul_assoc (invert A)), (invert_mmul_l A HA).
    rewrite mmul_identity_l. apply invert_mmul_l, HB.
Qed.

Lemma invert_det_transpose (M : Mat4) : invert_det (transpose M) = invert_det M.
Proof. mat_destruct M. mat_unfold. ring. Qed.

(** X3.  [invert] and [transpose] commute on every matrix, singular ones
    included; on a matrix with nonzero determinant the determinant of the
    inverted matrix is the reciprocal. *)
Theorem invert_transpose (M : Mat4) :
  invert (transpose M) = transpose (invert M)
  /\ (det (entry M) <> 0 -> det (entry (invert M)) = / det (entry M)).
Proof.
  rewrite <- !invert_det_det. split.
  - destruct (Req_dec_T (invert_det M) 0) as [Hz | Hnz].
    + rewrite (invert_singular M Hz).
      apply invert_singular. rewrite invert_det_transpose. exact Hz.
    + symmetry. apply invert_left_unique.
      * rewrite invert_det_transpose. exact Hnz.
      * rewrite <- transpose_product, (invert_mmul_r M Hnz). reflexivity.
  - intros H.
    pose proof (invert_det_mmul M (invert M)) as E.
    rewrite (invert_mmul_r M H), invert_det_identity in E.
    apply (Rmult_eq_reg_l (invert_det M)); [| exact H].
    rewrite <- E. field. exact H.
Qed.

(** X4.  [rotateXYZ(x, y, z)] is [rotateX(x)], then [rotateY(y)], then
    [rotateZ(z)]. *)
Theorem rotateXYZ_compose (x y z : R) (M : Mat4) :
  rotateXYZ x y z M = rotateZ z (rotateY y (rotateX x M)).
Proof. mat_destruct M. mat_ring. Qed.

(** X5.  The quaternion [eulerToQuaternion] returns has norm one. *)
Theorem eulerToQuaternion_unit (euler : Vec3) :
  unit_quaternion (eulerToQuaternion euler).
Proof.
  destruct euler as [x y z]. unfold unit_quaternion, eulerToQuaternion. simpl.
  destruct (half_angle x) as (_ & _ & Hx).
  destruct (half_angle y) as (_ & _ & Hy).
  destruct (half_angle z) as (_ & _ & Hz).
  ring [Hx Hy Hz].
Qed.

(** X6.  The rotation [rotateXYZW] builds from [eulerToQuaternion(x, y, z)]
    is the rotation [rotateXYZ(x, y, z)] builds: the two ways of setting a
    rotation from Euler angles agree. *)
Theorem rotateXYZW_eulerToQuaternion (x y z : R) (M : Mat4) :
  let q := eulerToQuaternion (mkVec3 x y z) in
  rotateXYZW (e0 q) (e1 q) (e2 q) (e3 q) M = rotateXYZ x y z M.
Proof.
  intros q. subst q.
  assert (Mat4_of_array
            (rotateXYZW_array
               (e0 (eulerToQuaternion (mkVec3 x y z)))
               (e1 (eulerToQuaternion (mkVec3 x y z)))
               (e2 (eulerToQuaternion (mkVec3 x y z)))
               (e3 (eulerToQuaternion (mkVec3 x y z))))
          = Mat4_of_array (rotateXYZ_array x y z)) as E.
  { destruct (half_angle x) as (Cx & Sx & Hx).
    destruct (half_angle y) as (Cy & Sy & Hy).
    destruct (half_angle z) as (Cz & Sz & Hz).
    unfold eulerToQuaternion. simpl x3. simpl y3. simpl z3.
    apply Mat4_ext; intros [] []; mat_unfold;
      rewrite ?Cx, ?Sx, ?Cy, ?Sy, ?Cz, ?Sz; ring [Hx Hy Hz]. }
  unfold rotateXYZW, rotateXYZ. rewrite E. reflexivity.
Qed.

(** X7.  For a quaternion of norm one the matrix of [rotateXYZW] is a
    rotation: its transpose times itself is the identity, its determinant
    is one, and [invert] returns its transpose. *)
Theorem rotateXYZW_unit_rotation (q : Vec4) :
  unit_quaternion q ->
  mmul (transpose (Rotate q)) (Rotate q) = identity
  /\ det (entry (Rotate q)) = 1
  /\ invert (Rotate q) = transpose (Rotate q).
Proof.
  destruct q as [x y z w]. unfold unit_quaternion. simpl. intros H.
  assert (w * w = 1 - x * x - y * y - z * z) as Hw by lra.
  assert (mmul (transpose (Rotate (mkVec4 x y z w))) (Rotate (mkVec4 x y z w)) = identity)
    as Ho by (mat_ext; ring [Hw]).
  assert (invert_det (Rotate (mkVec4 x y z w)) = 1) as Hd by (mat_unfold; ring [Hw]).
  split; [exact Ho | split].
  - rewrite <- invert_det_det. exact Hd.
  - symmetry. apply invert_left_unique; [rewrite Hd; lra | exact Ho].
Qed.

Lemma dot_nonneg (v : Vec4) : 0 <= dot v v.
Proof.
  destruct v as [a b c d]. mat_unfold. unfold dot, accumulate. simpl.
  nra.
Qed.

(** X8.  [normalize] turns a vector with a nonzero component into one of
    length one. *)
Theorem normalize_length (v : Vec4) :
  dot v v <> 0 -> Vec_length (normalize v) = 1.
Proof.
  intros H. pose proof (dot_nonneg v) as Hpos.
  assert (Vec_length v * Vec_length v = dot v v) as Hsq
    by (unfold Vec_length; apply sqrt_sqrt, Hpos).
  assert (Vec_length v <> 0) as Hlen.
  { intros Hz. rewrite Hz in Hsq. lra. }
  assert (dot (normalize v) (normalize v) = 1) as Hone.
  { unfold normalize. set (len := Vec_length v) in *.
    assert (dot (vmk (fun i => vget v i / len)) (vmk (fun i => vget v i / len))
            = dot v v / (len * len)) as E.
    { destruct v as [a b c d]. unfold dot, accumulate. simpl. field.
      repeat split; try exact Hlen. apply Rmult_integral_contrapositive. auto. }
    rewrite E, Hsq. field. exact H. }
  unfold Vec_length at 1. rewrite Hone. apply sqrt_1.
Qed.

Lemma dot_transpose (A : Mat4) (u v : Vec4) :
  dot (mvmul (transpose A) u) v = dot u (mvmul A v).
Proof.
  mat_destruct A; destruct u, v. unfold dot. mat_unfold. ring.
Qed.

Lemma mvmul_identity (v : Vec4) : mvmul identity v = v.
Proof. destruct v. vec_ext; ring. Qed.

(** X9.  The normal matrix the renderer computes, [transpose(invert(M))],
    keeps the pairing with transformed vectors: for a model matrix with
    nonzero determinant, a normal [n] and a vector [t] have the same dot
    product after [n] went through the normal matrix and [t] through [M]. *)
Theorem normal_matrix_dot (M : Mat4) (n t : Vec4) :
  det (entry M) <> 0 ->
  dot (mvmul (transpose (invert M)) n) (mvmul M t) = dot n t.
Proof.
  rewrite <- invert_det_det. intros H.
  rewrite dot_transpose, <- mvmul_mmul, (invert_mmul_l M H), mvmul_identity.
  reflexivity.
Qed.

(** X10.  The translation read back from the composed matrix is the
    translation that went in, whatever the rotation and the scale; so after
    any setter call [translation()] of a node's matrix is its position. *)
Theorem translation_TRS (p : Vec3) (q : Vec4) (s : Vec3) (n : Node) (c : Setter) :
  translation (TRS p q s) = p
  /\ translation (m_transformMatrix (call c n)) = m_position (call c n).
Proof.
  assert (forall p q s, translation (TRS p q s) = p) as E.
  { intros [px py pz] [qx qy qz qw] [sx sy sz].
    unfold translation. mat_unfold. f_equal; ring. }
  split; [apply E |].
  destruct c; cbv [call setPosition setRotationEuler setRotationQuaternion setScaling];
    rewrite NodeProps.updateTransformMatrix_TRS; apply E.
Qed.

(** X11.  The perspective matrix sends the near plane to [z = -w] and,
    when [zfar > 0], the far plane to [z = w] in clip space (depth -1 and 1
    after the divide), and the clip [w] of a point is its distance in front
    of the camera. *)
Theorem perspective_planes (aspectRatio yfov znear zfar x y z : R) :
  let P := projectionMatrix (pc_Camera (PerspectiveCamera_new aspectRatio yfov znear zfar)) in
  let clip (px py pz : R) := mvmul P (mkVec4 px py pz 1) in
  znear <> zfar ->
  vget (clip x y z) i3 = - z
  /\ vget (clip x y (- znear)) i2 = - vget (clip x y (- znear)) i3
  /\ (zfar > 0 -> vget (clip x y (- zfar)) i2 = vget (clip x y (- zfar)) i3).
Proof.
  intros P clip Hne. subst P clip.
  unfold PerspectiveCamera_new, updateProjectionMatrix. simpl.
  destruct (Rlt_dec 0 zfar) as [Hf | Hf]; simpl; mat_unfold.
  - repeat split; try intros _; field; lra.
  - repeat split; try (intros Hpos; lra); ring.
Qed.

End MoreLinearAlgebra.

(** ** More about the scene graph and the renderer *)

Module MoreScene.
Import glutils core Spec SceneSpec ExtraSpec LinearAlgebra NodeProps SceneGraph
       Invariant Rendering.

(** X12.  [setTransformMatrix] replaces the cached matrix and nothing
    else: position, rotation and scaling keep the values they had, and the
    next setter call recomputes the matrix from them, so the matrix set
    directly is gone. *)
Theorem setTransformMatrix_then_setter (M : Mat4) (n : Node) (s : Setter) :
  m_transformMatrix (setTransformMatrix M n) = M
  /\ m_position (setTransformMatrix M n) = m_position n
  /\ m_rotation (setTransformMatrix M n) = m_rotation n
  /\ m_scaling (setTransformMatrix M n) = m_scaling n
  /\ m_transformMatrix (call s (setTransformMatrix M n)) = m_transformMatrix (call s n)
  /\ m_transformMatrix (call s (setTransformMatrix M n))
     = TRS (m_position (call s n)) (m_rotation (call s n)) (m_scaling (call s n)).
Proof.
  assert (m_transformMatrix (call s (setTransformMatrix M n)) = m_transformMatrix (call s n))
    as E by (destruct s; reflexivity).
  split; [reflexivity |]. split; [reflexivity |]. split; [reflexivity |].
  split; [reflexivity |]. split; [exact E |].
  rewrite E. apply call_TRS.
Qed.

Lemma linked_update (st : list (option Node)) (id : nat) (f : Node -> Node) :
  keeps_links f -> linked st -> linked (update id f st).
Proof.
  intros Hf Hl x n c Hx Hc.
  assert (exists m, deref st x = Some m /\ m_children n = m_children m) as (m & Hm & Ec).
  { rewrite deref_update in Hx. destruct (Nat.eq_dec id x) as [-> | Hne].
    - destruct (deref st x) as [m|] eqn:Hm; [| discriminate].
      injection Hx as <-. destruct (Hf m) as (_ & Ec & _). eauto.
    - eauto. }
  rewrite Ec in Hc. destruct (Hl x m c Hm Hc) as (cn & Hcn & Hp).
  rewrite deref_update. destruct (Nat.eq_dec id c) as [-> | Hne].
  - rewrite Hcn. simpl. eexists. split; [reflexivity |].
    destruct (Hf cn) as (Ep & _). congruence.
  - eauto.
Qed.

Lemma deref_app_cases (st : list (option Node)) (n m : Node) (x : nat) :
  deref (st ++ [Some n]) x = Some m ->
  deref st x = Some m \/ (x = length st /\ m = n).
Proof.
  intros Hx. unfold deref in *.
  destruct (decide (x < length st)%nat) as [Hlt | Hge].
  - rewrite lookup_app_l in Hx by assumption. auto.
  - rewrite lookup_app_r in Hx by lia.
    destruct (x - length st)%nat as [| k] eqn:Ek; simpl in Hx.
    + right. split; [lia | congruence].
    + destruct k; discriminate.
Qed.

Lemma linked_createNode (T : NodeClass) (this : Scene) (name : string)
    (p : option nat) (st st' : list (option Node)) (id : nat) :
  linked st -> createNode T this name p st = Ok (id, st') -> linked st'.
Proof.
  intros Hl H. apply createNode_Ok in H as (p0 & pn & -> & Hp & -> & ->).
  pose proof (deref_lt _ _ _ Hp) as Hlt.
  set (new := construct T name (Some p0)).
  assert (deref (st ++ [Some new]) p0 = Some pn) as Hp' by (eapply deref_app_old, Hp).
  intros x n c Hx Hc. rewrite deref_update in Hx.
  assert (forall y yn, deref (st ++ [Some new]) y = Some yn -> m_parent yn = Some x ->
            exists cn, deref (update p0 (addChild (Some (length st))) (st ++ [Some new])) y
                       = Some cn /\ m_parent cn = Some x) as Hkeep.
  { intros y yn Hy Hpar. rewrite deref_update.
    destruct (Nat.eq_dec p0 y); rewrite Hy; simpl; eauto. }
  destruct (Nat.eq_dec p0 x) as [-> | Hne].
  - rewrite Hp' in Hx. injection Hx as <-. simpl in Hc.
    apply in_app_iff in Hc as [Hc | [[= <-] | []]].
    + destruct (Hl x pn c Hp Hc) as (cn & Hcn & Hpar).
      apply (Hkeep c cn); [eapply deref_app_old, Hcn | exact Hpar].
    + apply (Hkeep (length st) new); [apply deref_app_new |].
      unfold new. destruct T; reflexivity.
  - apply deref_app_cases in Hx as [Hx | [-> ->]].
    + destruct (Hl x n c Hx Hc) as (cn & Hcn & Hpar).
      apply (Hkeep c cn); [eapply deref_app_old, Hcn | exact Hpar].
    + unfold new in Hc. destruct T; destruct Hc.
Qed.

Lemma linked_Scene_new (name : string) (dc : option DrawingContext)
    (st st' : list (option Node)) (s : Scene) :
  linked st -> Scene_new name dc st = Ok (s, st') -> linked st'.
Proof.
  intros Hl. unfold Scene_new. destruct dc; [| discriminate].
  intros [= <- <-]. intros x n c Hx Hc.
  apply deref_app_cases in Hx as [Hx | [-> ->]].
  - destruct (Hl x n c Hx Hc) as (cn & Hcn & Hp). exists cn.
    split; [eapply deref_app_old, Hcn | exact Hp].
  - destruct Hc.
Qed.

Lemma linked_empty : linked [].
Proof. intros x n c Hx. unfold deref in Hx. rewrite lookup_nil in Hx. discriminate. Qed.

(** X13.  [createNode] keeps the tree a tree.  If parents are older than
    their children, children are alive and every child points back to the
    node listing it, the same holds afterwards; the new node gets the next
    free handle, is the last child of its parent and points back to it; all
    other nodes are as they were. *)
Theorem createNode_keeps_tree (T : NodeClass) (this : Scene) (name : string)
    (p : option nat) (st st' : list (option Node)) (id : nat) :
  wf_store st -> linked st ->
  createNode T this name p st = Ok (id, st') ->
  wf_store st' /\ linked st'
  /\ id = length st /\ length st' = S (length st)
  /\ (exists p0 pn,
        p = Some p0 /\ deref st p0 = Some pn
        /\ deref st' p0 = Some (addChild (Some id) pn)
        /\ deref st' id = Some (construct T name (Some p0))
        /\ forall x n, x <> p0 -> deref st x = Some n -> deref st' x = Some n).
Proof.
  intros Hwf Hl H. pose proof (wf_createNode _ _ _ _ _ _ _ Hwf H) as Hwf'.
  pose proof (linked_createNode _ _ _ _ _ _ _ Hl H) as Hl'.
  apply createNode_Ok in H as (p0 & pn & -> & Hp & -> & ->).
  pose proof (deref_lt _ _ _ Hp) as Hlt.
  set (new := construct T name (Some p0)).
  assert (deref (st ++ [Some new]) p0 = Some pn) as Hp' by (eapply deref_app_old, Hp).
  split; [exact Hwf' |]. split; [exact Hl' |]. split; [reflexivity | split].
  - unfold update. rewrite Hp'. rewrite length_insert, length_app. simpl. lia.
  - exists p0, pn. split; [reflexivity |]. split; [exact Hp |].
    split; [apply deref_update_eq, Hp' |].
    split; [rewrite deref_update_ne by lia; apply deref_app_new |].
    intros x n Hne Hx. rewrite deref_update_ne by auto. eapply deref_app_old, Hx.
Qed.

Lemma fold_parse_app (fuel : nat) (st : list (option Node))
    (P : nat -> nat -> Node -> Prop) :
  (forall node acc out,
     parseNodeForLight fuel st node acc = Some out ->
     forall l, In l out <->
       In l acc \/ exists c d dn, node = Some c /\ P c d dn /\ l = lightEntry d dn) ->
  forall children acc out,
    fold_left
      (fun acc child =>
         match acc with
         | Some lightVec => parseNodeForLight fuel st child lightVec
         | None => None
         end) children (Some acc) = Some out ->
    forall l, In l out <->
      In l acc \/ exists c d dn, In (Some c) children /\ P c d dn /\ l = lightEntry d dn.
Proof.
  intros IH children. induction children as [| child children IHc]; intros acc out H l.
  - simpl in H. injection H as <-. split; [auto |].
    intros [? | (c & d & dn & [] & _)]. assumption.
  - simpl in H.
    destruct (parseNodeForLight fuel st child acc) as [acc'|] eqn:E.
    + rewrite (IHc acc' out H l), (IH child acc acc' E l). split.
      * intros [[? | (c & d & dn & -> & Hr & ->)] | (c & d & dn & Hc & Hr & ->)]; auto.
        -- right. exists c, d, dn. simpl. auto.
        -- right. exists c, d, dn. simpl. auto.
      * intros [? | (c & d & dn & [-> | Hc] & Hr & ->)]; auto.
        -- left. right. exists c, d, dn. auto.
        -- right. exists c, d, dn. auto.
    + exfalso. clear -H. induction children; simpl in H; [discriminate | auto].
Qed.

Lemma parseNodeForLight_spec (st : list (option Node)) :
  forall fuel node acc out,
    parseNodeForLight fuel st node acc = Some out ->
    forall l, In l out <->
      In l acc
      \/ exists c d dn,
          node = Some c /\ (Reaches st c d dn /\ m_type dn = NodeType.Light)
          /\ l = lightEntry d dn.
Proof.
  induction fuel as [| fuel IH]; intros node acc out H l; simpl in H; [discriminate |].
  destruct node as [id|].
  2: { injection H as <-. split; [auto | intros [? | (c & d & dn & [=] & _)]; auto]. }
  destruct (deref st id) as [n|] eqn:Hn; [| discriminate].
  change (match m_type n with NodeType.Light => true | _ => false end)
    with (NodeType.eqb NodeType.Light (m_type n)) in H.
  destruct (NodeType.eqb NodeType.Light (m_type n)) eqn:Et;
    rewrite (fold_parse_app fuel st
               (fun c d dn => Reaches st c d dn /\ m_type dn = NodeType.Light)
               IH _ _ _ H l).
  - apply NodeType_eqb_eq in Et. rewrite in_app_iff. simpl. split.
    + intros [[? | [<- | []]] | (c & d & dn & Hc & [Hr Ht] & ->)]; auto.
      * right. exists id, id, n. split; [reflexivity |].
        split; [split; [constructor; exact Hn | auto] | reflexivity].
      * right. exists id, d, dn. split; [reflexivity |].
        split; [split; [econstructor; eassumption | exact Ht] | reflexivity].
    + intros [? | (c & d & dn & [= <-] & [Hr Ht] & ->)]; auto.
      inversion Hr; subst.
      * left. right. left. replace n with dn by congruence. reflexivity.
      * right. replace n0 with n in * by congruence. eauto 8.
  - split.
    + intros [? | (c & d & dn & Hc & [Hr Ht] & ->)]; auto.
      right. exists id, d, dn. split; [reflexivity |].
      split; [split; [econstructor; eassumption | exact Ht] | reflexivity].
    + intros [? | (c & d & dn & [= <-] & [Hr Ht] & ->)]; auto.
      inversion Hr; subst.
      * replace n with dn in * by congruence.
        symmetry in Ht. apply NodeType_eqb_eq in Ht. congruence.
      * right. replace n0 with n in * by congruence. eauto 8.
Qed.

Lemma fold_parse_behaves (fuel : nat) (st : list (option Node)) (children : list (option nat)) :
  (forall child acc, In child children ->
     exists out, parseNodeForLight fuel st child acc = Some out) ->
  forall acc, exists out,
    fold_left
      (fun acc child =>
         match acc with
         | Some lightVec => parseNodeForLight fuel st child lightVec
         | None => None
         end) children (Some acc) = Some out.
Proof.
  induction children as [| child children IH]; intros H acc; simpl; [eauto |].
  destruct (H child acc (or_introl eq_refl)) as [acc' ->].
  apply IH. intros c a Hc. apply H. right. exact Hc.
Qed.

Lemma parseNodeForLight_behaves (st : list (option Node)) :
  children_newer st ->
  forall fuel node acc,
    (match node with
     | Some id => (exists n, deref st id = Some n) /\ (length st - id < fuel)%nat
     | None => (0 < fuel)%nat
     end) ->
    exists out, parseNodeForLight fuel st node acc = Some out.
Proof.
  intros Hwf. induction fuel as [| fuel IH]; intros node acc Hn.
  - destruct node as [id|]; [destruct Hn; lia | lia].
  - simpl. destruct node as [id|]; [| eauto].
    destruct Hn as [[n Hn] Hfuel]. rewrite Hn.
    pose proof (deref_lt _ _ _ Hn) as Hlt.
    destruct (Hwf id n Hn) as [Hch _].
    apply fold_parse_behaves. intros [c|] a Hc.
    + destruct (Hch c Hc) as [Hidc Hcn]. apply IH. split; [exact Hcn | lia].
    + apply IH. lia.
Qed.

(** X14.  [getLightNodes] returns, for the nodes of type [Light] that are
    the root or lie below it, their handles (cast to [LightNode]) and nothing
    else.  A null child is passed over without an error, and on a store the
    factory built the search ends. *)
Theorem getLightNodes_spec (fuel : nat) (st : list (option Node)) (this : Scene)
    (root : nat) :
  m_rootNode this = Some root ->
  (forall lightVec,
     getLightNodes fuel st this = Some lightVec ->
     forall l, In l lightVec <->
       exists d dn,
         Reaches st root d dn /\ m_type dn = NodeType.Light /\ l = lightEntry d dn)
  /\ (forall acc, parseNodeForLight (S fuel) st None acc = Some acc)
  /\ (children_newer st -> (exists n, deref st root = Some n) ->
      (length st - root < fuel)%nat ->
      exists lightVec, getLightNodes fuel st this = Some lightVec).
Proof.
  intros Hroot. unfold getLightNodes. rewrite Hroot. split; [| split].
  - intros lightVec H l. rewrite (parseNodeForLight_spec st _ _ _ _ H l). split.
    + intros [[] | (c & d & dn & [= <-] & [Hr Ht] & ->)]. eauto.
    + intros (d & dn & Hr & Ht & ->). right. exists root, d, dn. auto.
  - reflexivity.
  - intros Hwf Hn Hfuel. apply parseNodeForLight_behaves; auto.
Qed.

(** X15.  The model matrix the traversal reaches a node with is the
    node's [totalTransformMatrix]: when every child points back to the node
    listing it and the root has no parent, a traversal from the root with the
    identity visits each node with exactly the matrix [totalTransformMatrix]
    returns for it. *)
Theorem model_matrix_is_total (st : list (option Node)) (root : nat) (rn : Node)
    (d : nat) (dn : Node) (modelMatrix : Mat4) :
  linked st -> deref st root = Some rn -> parent st rn = None ->
  Visits st root identity d dn modelMatrix ->
  exists fuel, totalTransformMatrix fuel st d = Some modelMatrix.
Proof.
  intros Hl Hroot Hpar Hv.
  assert (forall r P d dn Md,
            Visits st r P d dn Md ->
            forall rn fuel,
              deref st r = Some rn ->
              totalTransformMatrix fuel st r = Some (mmul P (m_transformMatrix rn)) ->
              exists fuel', totalTransformMatrix fuel' st d = Some Md) as Hgen.
  { clear - Hl. intros r P d dn Md Hv.
    induction Hv as [id P n Hn | id P n c d dn Md Hn Hc Hv IH]; intros rn fuel Hr Ht.
    - exists fuel. replace n with rn by congruence. exact Ht.
    - replace rn with n in * by congruence.
      destruct (Hl id n c Hn Hc) as (cn & Hcn & Hp).
      apply (IH cn (S fuel) Hcn).
      apply (totalTransformMatrix_parent st fuel c id cn _ Hcn); [| exact Ht].
      unfold parent, lock. rewrite Hp, Hn. reflexivity. }
  apply (Hgen root identity d dn modelMatrix Hv rn 1%nat Hroot).
  rewrite mmul_identity_l. apply totalTransformMatrix_orphan; assumption.
Qed.

Lemma totalTransformMatrix_update (st : list (option Node)) (id : nat) (f : Node -> Node) :
  (forall n, m_parent (f n) = m_parent n /\ m_transformMatrix (f n) = m_transformMatrix n) ->
  forall fuel x,
    totalTransformMatrix fuel (update id f st) x = totalTransformMatrix fuel st x.
Proof.
  intros Hf. induction fuel as [| fuel IH]; intros x; [reflexivity |].
  simpl. rewrite deref_update.
  destruct (Nat.eq_dec id x) as [-> | Hne].
  - destruct (deref st x) as [n|]; [| reflexivity]. simpl.
    destruct (Hf n) as [Ep Em]. unfold parent. rewrite lock_update, Ep, Em.
    destruct (lock st (m_parent n)); [rewrite IH |]; reflexivity.
  - destruct (deref st x) as [n|]; [| reflexivity].
    unfold parent. rewrite lock_update.
    destruct (lock st (m_parent n)); [rewrite IH |]; reflexivity.
Qed.

Lemma setLightPosition_keeps (p : Vec3) (n : Node) :
  m_parent (setLightPosition p n) = m_parent n
  /\ m_transformMatrix (setLightPosition p n) = m_transformMatrix n.
Proof. unfold setLightPosition. destruct (derived n); auto. Qed.

Lemma setLightPosition_twice (p q : Vec3) (n : Node) :
  setLightPosition p (setLightPosition q n) = setLightPosition p n.
Proof.
  unfold setLightPosition. destruct n as [? ? ? ? ? ? ? ? d ?].
  destruct d; reflexivity.
Qed.

Lemma placeLight_Some (fuel : nat) (this : Renderer) (st st' : list (option Node))
    (lightNode : option nat) :
  placeLight fuel this st lightNode = Some st' ->
  exists id total,
    lightNode = Some id /\ totalTransformMatrix fuel st id = Some total
    /\ st' = update id (setLightPosition (viewPosition (m_viewMatrix this) total)) st.
Proof.
  unfold placeLight. destruct lightNode as [id|]; [| discriminate].
  destruct (totalTransformMatrix fuel st id) as [total|] eqn:Ht; [| discriminate].
  intros [= <-]. exists id, total. split; [reflexivity |]. split; [exact Ht | reflexivity].
Qed.

Lemma placeLights_None (fuel : nat) (this : Renderer) (lightVec : list (option nat)) :
  fold_left
    (fun acc lightNode =>
       match acc with
       | Some st => placeLight fuel this st lightNode
       | None => None
       end) lightVec None = None.
Proof. induction lightVec; simpl; auto. Qed.

Lemma placeLights_spec (fuel : nat) (this : Renderer) (lightVec : list (option nat)) :
  forall st st',
    placeLights fuel this lightVec st = Some st' ->
    forall x,
      match deref st x with
      | None => deref st' x = None
      | Some n =>
        (In (Some x) lightVec ->
         exists total,
           totalTransformMatrix fuel st x = Some total
           /\ deref st' x
              = Some (setLightPosition (viewPosition (m_viewMatrix this) total) n))
        /\ (~ In (Some x) lightVec -> deref st' x = Some n)
      end.
Proof.
  unfold placeLights.
  induction lightVec as [| l lightVec IH]; intros st st' H x.
  - simpl in H. injection H as <-. destruct (deref st x); [| reflexivity].
    split; [intros [] | reflexivity].
  - simpl in H. destruct (placeLight fuel this st l) as [st1|] eqn:E.
    2: { rewrite placeLights_None in H. discriminate. }
    apply placeLight_Some in E as (id & total & -> & Ht & ->).
    set (v := viewPosition (m_viewMatrix this) total) in *.
    specialize (IH _ _ H x). rewrite deref_update in IH.
    rewrite (totalTransformMatrix_update st id _ (setLightPosition_keeps v)) in IH.
    destruct (Nat.eq_dec id x) as [-> | Hne].
    + destruct (deref st x) as [n|]; simpl in IH; [| exact IH].
      destruct IH as [IHin IHout].
      assert (deref st' x = Some (setLightPosition v n)) as Hx.
      { destruct (in_dec (fun a b : option nat => decide (a = b)) (Some x) lightVec)
          as [Hin | Hnin].
        - destruct (IHin Hin) as (total' & Ht' & ->).
          rewrite Ht in Ht'. injection Ht' as <-.
          rewrite setLightPosition_twice. reflexivity.
        - apply IHout, Hnin. }
      split.
      * intros _. exists total. auto.
      * intros Hnin. exfalso. apply Hnin. left. reflexivity.
    + destruct (deref st x) as [n|]; [| exact IH].
      destruct IH as [IHin IHout]. split.
      * intros [[= ->] | Hin]; [congruence | auto].
      * intros Hnin. apply IHout. intros Hin. apply Hnin. right. exact Hin.
Qed.

(** X16.  A frame that [render] completes has written, into every light
    node [getLightNodes] found, the origin of that node taken through
    [view * totalTransformMatrix] and divided by [w]; every other node of the
    store, and everything else in the light nodes, is as it was before. *)
Theorem render_places_lights (fuel : nat) (this : Renderer) (s : Scene)
    (st : list (option Node)) (dc : DrawingContext) :
  let fr := render fuel this (Some s) st in
  f_result fr = Ok tt -> m_drawingContext s = Some dc -> isDeviceOpen dc = true ->
  exists lightVec,
    getLightNodes fuel st s = Some lightVec
    /\ forall x n,
        deref st x = Some n ->
        (In (Some x) lightVec ->
         exists total,
           totalTransformMatrix fuel st x = Some total
           /\ deref (f_store fr) x
              = Some (setLightPosition
                        (viewPosition (m_viewMatrix (f_renderer fr)) total) n))
        /\ (~ In (Some x) lightVec -> deref (f_store fr) x = Some n).
Proof.
  intros fr Hok Hdc Hopen.
  destruct (render_Ok fuel this s st Hok) as (dc' & Hdc' & _ & H).
  rewrite Hdc in Hdc'. injection Hdc' as <-.
  destruct (H Hopen) as (c & total & cam & lightVec & ds & _ & _ & _ & _ & Hg & Hp & _).
  exists lightVec. split; [exact Hg |].
  intros x n Hx. pose proof (placeLights_spec _ _ _ _ _ Hp x) as Hs.
  rewrite Hx in Hs. exact Hs.
Qed.

End MoreScene.

(** ** The event dispatcher *)

Module Dispatch.
Import port dispatcher DispatchSpec.

Lemma wants_Some {Clbk : Type} (evType : Z) (entry : option Clbk * Z) (f : Clbk) :
  wants evType entry = Some f <-> fst entry = Some f /\ Z.land evType (snd entry) <> 0%Z.
Proof.
  unfold wants. destruct entry as [[g|] filter]; simpl.
  - destruct (Z.eqb_spec (Z.land evType filter) 0); simpl; split.
    + discriminate.
    + intros [_ H]. contradiction.
    + intros [= ->]. auto.
    + intros [[= ->] _]. reflexivity.
  - split; [discriminate | intros [[=] _]].
Qed.

Lemma dispatchEvent_In {Clbk : Type} (d : EventDispatcher Clbk) (ev e : Event) (f : Clbk) :
  In (f, e) (dispatchEvent (Some ev) d) <-> e = ev /\ exists h, delivers d ev h f.
Proof.
  unfold dispatchEvent, delivers. rewrite <- list_elem_of_In, list_elem_of_omap. split.
  - intros ([h entry] & Hin & Hw). apply elem_of_map_to_list in Hin.
    destruct (wants (event_type ev) entry) as [g|] eqn:E; [| discriminate].
    injection Hw as -> ->. apply wants_Some in E as [E1 E2].
    split; [reflexivity |]. exists h, (snd entry). split; [| exact E2].
    rewrite Hin. destruct entry as [c flt]. simpl in *. congruence.
  - intros [-> (h & filter & Hl & Hz)]. exists (h, (Some f, filter)). split.
    + apply elem_of_map_to_list, Hl.
    + replace (wants (event_type ev) (Some f, filter)) with (Some f); [reflexivity |].
      symmetry. apply wants_Some. auto.
Qed.

(** X17.  [dispatchEvent] calls a callback with the event exactly when
    the callback is registered under some handle with a filter that shares
    a bit with the event type.  A null event calls nobody, and so does an
    event of type [NoEvent], whatever the filters. *)
Theorem dispatchEvent_calls {Clbk : Type} (d : EventDispatcher Clbk) (ev : Event) :
  (forall f e,
     In (f, e) (dispatchEvent (Some ev) d) <-> e = ev /\ exists h, delivers d ev h f)
  /\ dispatchEvent None d = []
  /\ (event_type ev = NoEvent -> dispatchEvent (Some ev) d = []).
Proof.
  split; [| split].
  - intros f e. apply dispatchEvent_In.
  - reflexivity.
  - intros Hno. destruct (dispatchEvent (Some ev) d) as [| [f e] l] eqn:E; [reflexivity |].
    assert (In (f, e) (dispatchEvent (Some ev) d)) as Hin by (rewrite E; left; reflexivity).
    apply dispatchEvent_In in Hin as [_ (h & filter & _ & Hz)].
    rewrite Hno in Hz. simpl in Hz. contradiction.
Qed.

Lemma land_lor_nonzero (a b f : Z) :
  Z.land (Z.lor a b) f <> 0%Z <-> Z.land a f <> 0%Z \/ Z.land b f <> 0%Z.
Proof.
  rewrite Z.land_lor_distr_l, Z.lor_eq_0_iff.
  destruct (Z.eq_dec (Z.land a f) 0%Z), (Z.eq_dec (Z.land b f) 0%Z); intuition.
Qed.

(** X18.  The event types are not one bit each.  [TouchMoveEv] is
    [TouchPressEv | TouchReleaseEv], so a handler gets pointer-move events
    exactly when its filter lets press or release events through, and a
    filter made of [TouchMoveEv] alone lets press and release events through
    as well.  A handler registered for [AllEvents] gets every event type the
    enumeration names, except [NoEvent]. *)
Theorem event_types_overlap {Clbk : Type} (f : Clbk) (filter : Z) :
  (wants TouchMoveEv (Some f, filter) = Some f <->
   wants TouchPressEv (Some f, filter) = Some f
   \/ wants TouchReleaseEv (Some f, filter) = Some f)
  /\ wants TouchPressEv (Some f, TouchMoveEv) = Some f
  /\ wants TouchReleaseEv (Some f, TouchMoveEv) = Some f
  /\ (forall t, In t single_events -> wants t (Some f, AllEvents) = Some f)
  /\ wants NoEvent (Some f, filter) = None.
Proof.
  split; [| split; [| split; [| split]]].
  - rewrite !wants_Some. simpl fst. simpl snd.
    change TouchMoveEv with (Z.lor TouchPressEv TouchReleaseEv).
    rewrite land_lor_nonzero. intuition.
  - reflexivity.
  - reflexivity.
  - intros t Ht. simpl in Ht.
    repeat (destruct Ht as [<- | Ht]; [reflexivity |]). destruct Ht.
  - reflexivity.
Qed.

Lemma createHandle_Some {Clbk : Type} (d d' : EventDispatcher Clbk) (h : Z) :
  createHandle d = Some (h, d') ->
  h = m_nextHandle d /\ m_nextHandle d' = (h + 1)%Z
  /\ m_clbkMap d'
     = match m_clbkMap d !! h with
       | Some _ => m_clbkMap d
       | None => <[h := (None, NoEvent)]> (m_clbkMap d)
       end.
Proof.
  unfold createHandle. destruct (in_int32 (m_nextHandle d + 1)); [| discriminate].
  intros [= <- <-]. auto.
Qed.

(** X19.  [createHandle] never takes a registration away: every entry of
    the map stays as it was and every event reaches the same callbacks as
    before.  When all handles in the map came from [createHandle], the
    handle it returns was not in the map, is in it afterwards with an empty
    callback, and this stays true for the next call. *)
Theorem createHandle_fresh {Clbk : Type} (d d' : EventDispatcher Clbk) (h : Z) :
  createHandle d = Some (h, d') ->
  (forall h' entry, m_clbkMap d !! h' = Some entry -> m_clbkMap d' !! h' = Some entry)
  /\ (forall ev f e,
        In (f, e) (dispatchEvent ev d') <-> In (f, e) (dispatchEvent ev d))
  /\ (handles_below d ->
      m_clbkMap d !! h = None
      /\ m_clbkMap d' !! h = Some (None, NoEvent)
      /\ handles_below d').
Proof.
  intros H. apply createHandle_Some in H as (-> & Hn & Hm).
  set (h := m_nextHandle d) in *.
  assert (forall h' entry, m_clbkMap d !! h' = Some entry -> m_clbkMap d' !! h' = Some entry)
    as Hkeep.
  { intros h' entry Hl. rewrite Hm. destruct (m_clbkMap d !! h) eqn:E; [exact Hl |].
    rewrite lookup_insert_ne; [exact Hl | congruence]. }
  split; [exact Hkeep | split].
  - intros [ev|] f e; [| reflexivity]. rewrite !dispatchEvent_In.
    split; intros [-> (h' & filter & Hl & Hz)]; (split; [reflexivity |]);
      exists h', filter; (split; [| exact Hz]).
    + rewrite Hm in Hl. destruct (m_clbkMap d !! h) eqn:E; [exact Hl |].
      rewrite lookup_insert in Hl. destruct (decide (h = h')); [discriminate | exact Hl].
    + apply Hkeep, Hl.
  - intros Hb.
    assert (m_clbkMap d !! h = None) as Hnone.
    { destruct (m_clbkMap d !! h) eqn:E; [| reflexivity].
      assert (h < h)%Z by (apply Hb; rewrite E; eauto). lia. }
    split; [exact Hnone | split].
    + rewrite Hm, Hnone. apply lookup_insert_eq.
    + intros h' [entry Hl]. rewrite Hn. rewrite Hm, Hnone in Hl.
      rewrite lookup_insert in Hl. destruct (decide (h = h')) as [<- | Hne]; [lia |].
      assert (h' < h)%Z by (apply Hb; rewrite Hl; eauto). lia.
Qed.

Lemma destroyHandle_lookup {Clbk : Type} (d : EventDispatcher Clbk) (h : Z) :
  m_clbkMap (destroyHandle h d) !! h = None.
Proof.
  unfold destroyHandle. destruct (m_clbkMap d !! h) eqn:E; simpl.
  - apply lookup_delete_eq.
  - exact E.
Qed.

Lemma destroyHandle_lookup_ne {Clbk : Type} (d : EventDispatcher Clbk) (h h' : Z) :
  h' <> h -> m_clbkMap (destroyHandle h d) !! h' = m_clbkMap d !! h'.
Proof.
  intros Hne. unfold destroyHandle. destruct (m_clbkMap d !! h) eqn:E; simpl.
  - apply lookup_delete_ne. congruence.
  - reflexivity.
Qed.

Lemma registerHandler_delivers {Clbk : Type} (d : EventDispatcher Clbk) (h : Z)
    (clbk : Clbk) (filter : Z) (ev : Event) (f : Clbk) :
  delivers (registerHandler h (Some clbk) filter d) ev h f <->
  f = clbk /\ Z.land (event_type ev) filter <> 0%Z.
Proof.
  unfold delivers. simpl. rewrite lookup_insert_eq. split.
  - intros (flt & [= -> ->] & Hz). auto.
  - intros [-> Hz]. eauto.
Qed.

(** X20.  After [registerHandler] the callback is due every event its
    filter shares a bit with, and replaces what the handle held.  After
    [unregisterHandler] or [destroyHandle] nothing is delivered through the
    handle again.  The other handles are not touched by any of the three.
    [destroyHandle] removes the entry (and does nothing for an unknown
    handle), while [unregisterHandler] leaves an entry with an empty
    callback, and creates one when the handle was unknown. *)
Theorem handler_lifecycle {Clbk : Type} (d : EventDispatcher Clbk) (h : Z)
    (clbk : Clbk) (filter : Z) (ev : Event) (f : Clbk) :
  (delivers (registerHandler h (Some clbk) filter d) ev h f <->
   f = clbk /\ Z.land (event_type ev) filter <> 0%Z)
  /\ ~ delivers (unregisterHandler h d) ev h f
  /\ ~ delivers (destroyHandle h d) ev h f
  /\ (forall h', h' <> h ->
        (delivers (registerHandler h (Some clbk) filter d) ev h' f <-> delivers d ev h' f)
        /\ (delivers (unregisterHandler h d) ev h' f <-> delivers d ev h' f)
        /\ (delivers (destroyHandle h d) ev h' f <-> delivers d ev h' f))
  /\ m_clbkMap (destroyHandle h d) !! h = None
  /\ (m_clbkMap d !! h = None -> destroyHandle h d = d)
  /\ m_clbkMap (unregisterHandler h d) !! h = Some (None, NoEvent)
  /\ m_clbkMap (destroyHandle h (unregisterHandler h d)) !! h = None.
Proof.
  split; [apply registerHandler_delivers |].
  unfold delivers.
  split; [| split; [| split; [| split; [| split; [| split]]]]].
  - simpl. rewrite lookup_insert_eq. intros (flt & [=] & _).
  - rewrite destroyHandle_lookup. intros (flt & [=] & _).
  - intros h' Hne. simpl. rewrite !lookup_insert_ne by congruence.
    rewrite (destroyHandle_lookup_ne d h h' Hne). repeat split; auto.
  - apply destroyHandle_lookup.
  - intros Hnone. unfold destroyHandle. rewrite Hnone. reflexivity.
  - simpl. apply lookup_insert_eq.
  - apply destroyHandle_lookup.
Qed.

End Dispatch.

(** ** The first-person camera controller *)

Module Controller.
Import glutils core port dispatcher controller Spec ExtraSpec DispatchSpec
       LinearAlgebra NodeProps SceneGraph Dispatch.

Lemma controller_filter : Z.lor AllKeyEvents AllTouchEvents = 0xFF0%Z.
Proof. reflexivity. Qed.

(** X21.  The constructor throws on a null dispatcher or a null camera
    node.  Otherwise the controller's callback is registered under a handle
    of its own for key and pointer events and no others: press, release and
    move come through, a close event does not.  The destructor removes the
    handle from the map. *)
Theorem controller_registration {Clbk : Type} (self : Clbk)
    (d : EventDispatcher Clbk) (node : nat) (c : FPSCameraController)
    (d' : EventDispatcher Clbk) :
  FPSCameraController_new self (Some d) (Some node) = Ok (c, d') ->
  FPSCameraController_new self None (Some node) = Throw "Invalid dispatcher or node"
  /\ FPSCameraController_new self (Some d) None = Throw "Invalid dispatcher or node"
  /\ m_cameraNode c = node
  /\ (forall ev f,
        delivers d' ev (m_handle c) f <->
        f = self /\ Z.land (event_type ev) 0xFF0 <> 0%Z)
  /\ (forall ev,
        In (event_type ev)
           [KeyPressEv; KeyReleaseEv; TouchPressEv; TouchReleaseEv; TouchMoveEv] ->
        In (self, ev) (dispatchEvent (Some ev) d'))
  /\ (forall ev, event_type ev = CloseEv -> ~ delivers d' ev (m_handle c) self)
  /\ m_clbkMap (FPSCameraController_delete c d') !! m_handle c = None.
Proof.
  unfold FPSCameraController_new.
  destruct (createHandle d) as [[h d1]|] eqn:E; [| discriminate].
  intros [= <- <-]. simpl m_handle. simpl m_cameraNode.
  rewrite controller_filter.
  assert (forall ev f,
            delivers (registerHandler h (Some self) 0xFF0 d1) ev h f <->
            f = self /\ Z.land (event_type ev) 0xFF0 <> 0%Z) as Hd.
  { intros ev f. apply registerHandler_delivers. }
  split; [reflexivity |]. split; [reflexivity |]. split; [reflexivity |].
  split; [exact Hd |]. split; [| split].
  - intros ev Hin. apply dispatchEvent_In. split; [reflexivity |].
    exists h. apply Hd. split; [reflexivity |].
    simpl in Hin.
    repeat (destruct Hin as [<- | Hin]; [discriminate |]). destruct Hin.
  - intros ev Ht Hdel. apply Hd in Hdel as [_ Hz]. rewrite Ht in Hz.
    apply Hz. reflexivity.
  - unfold FPSCameraController_delete. simpl m_handle.
    apply destroyHandle_lookup.
Qed.

Lemma clamp_range (v lo hi : R) : lo <= hi -> lo <= clamp v lo hi <= hi.
Proof.
  intros H. unfold clamp, Rmin, Rmax.
  destruct (Rle_dec v lo); destruct (Rle_dec _ hi); lra.
Qed.

Lemma clamp_inside (v lo hi : R) : lo <= v <= hi -> clamp v lo hi = v.
Proof.
  intros H. unfold clamp, Rmin, Rmax.
  destruct (Rle_dec v lo); destruct (Rle_dec _ hi); lra.
Qed.

(** The matrix [process] builds from the pitch [r0], the yaw [r1], the
    translation it read and the step of the keys. *)
Lemma process_Some (c c' : FPSCameraController) (st st' : list (option Node)) :
  process c st = Some (c', st') ->
  exists node r0 r1 mx mz,
    deref st (m_cameraNode c) = Some node
    /\ r0 = clamp (x3 (m_rotation c) - IZR (m_nextY c - m_lastY c) / 400 * PI)
              (- (PI / 2)) (PI / 2)
    /\ r1 = y3 (m_rotation c) - IZR (m_nextX c - m_lastX c) / 1000 * PI
    /\ mz = 0 + (if m_fwdPressed c then - 0.05 else 0)
              + (if m_backPressed c then 0.05 else 0)
    /\ mx = 0 + (if m_leftPressed c then - 0.05 else 0)
              + (if m_rightPressed c then 0.05 else 0)
    /\ c' = mkController (m_cameraNode c) (m_handle c)
              (m_fwdPressed c) (m_backPressed c) (m_leftPressed c) (m_rightPressed c)
              (m_nextX c) (m_nextY c) (m_nextX c) (m_nextY c)
              (mkVec3 r0 r1 (z3 (m_rotation c)))
    /\ st' = update (m_cameraNode c)
               (setTransformMatrix
                  (translateLocalXZ mx mz
                     (translate (x3 (translation (m_transformMatrix node)))
                                (y3 (translation (m_transformMatrix node)))
                                (z3 (translation (m_transformMatrix node)))
                        (rotateY r1 (rotateX r0 identity)))))
               st.
Proof.
  unfold process. destruct (deref st (m_cameraNode c)) as [node|]; [| discriminate].
  destruct (negb _); [discriminate |].
  intros [= <- <-]. exists node. do 4 eexists. repeat split.
Qed.

Lemma sin_cos_sq (a : R) : cos a * cos a = 1 - sin a * sin a.
Proof. pose proof (sin2_cos2 a) as H. unfold Rsqr in H. lra. Qed.

Lemma translateLocalXZ_affine (x z : R) (M : Mat4) :
  affine M ->
  affine (translateLocalXZ x z M) /\ invert_det (translateLocalXZ x z M) = invert_det M.
Proof.
  mat_destruct M. unfold affine. mat_unfold. intros (-> & -> & -> & ->).
  repeat split; ring.
Qed.

Lemma camera_matrix (r0 r1 tx ty tz mx mz : R) :
  let X := translateLocalXZ mx mz (translate tx ty tz (rotateY r1 (rotateX r0 identity))) in
  affine X /\ invert_det X = 1 /\ y3 (translation X) = ty
  /\ (mx = 0 -> mz = 0 -> translation X = mkVec3 tx ty tz).
Proof.
  intros X. subst X.
  pose proof (sin_cos_sq r0) as H0. pose proof (sin_cos_sq r1) as H1.
  assert (affine (translate tx ty tz (rotateY r1 (rotateX r0 identity)))) as Ha
    by (unfold affine; repeat split; mat_unfold; ring).
  destruct (translateLocalXZ_affine mx mz _ Ha) as [Ha' Hd].
  split; [exact Ha' | split; [| split]].
  - rewrite Hd. mat_unfold. ring [H0 H1].
  - unfold translation. simpl y3. mat_unfold. ring.
  - intros -> ->. unfold translation. mat_unfold. f_equal; ring.
Qed.

(** X22.  After [process] the pitch lies between -PI/2 and PI/2, whatever
    the pointer did; the yaw is not bounded, it moves by the pointer's
    horizontal travel times PI/1000. *)
Theorem process_clamps_pitch (c c' : FPSCameraController) (st st' : list (option Node)) :
  process c st = Some (c', st') ->
  - (PI / 2) <= x3 (m_rotation c') <= PI / 2
  /\ y3 (m_rotation c') = y3 (m_rotation c) - IZR (m_nextX c - m_lastX c) * PI / 1000
  /\ m_lastX c' = m_nextX c /\ m_lastY c' = m_nextY c.
Proof.
  intros H. apply process_Some in H as (node & r0 & r1 & mx & mz & _ & -> & -> & _ & _ & -> & _).
  simpl. split; [| split; [lra | auto]].
  apply clamp_range. pose proof PI_RGT_0. lra.
Qed.

(** X23.  After [process] the camera node's matrix has last row (0,0,0,1)
    and determinant one, so [invert] turns it into a view matrix that is its
    true inverse; its Y translation is the one the node had, whichever keys
    are down; and with no key down, or with opposite keys down together, the
    whole translation is the one the node had. *)
Theorem process_camera_matrix (c c' : FPSCameraController) (st st' : list (option Node))
    (old : Node) :
  process c st = Some (c', st') -> deref st (m_cameraNode c) = Some old ->
  exists new,
    deref st' (m_cameraNode c) = Some new
    /\ affine (m_transformMatrix new)
    /\ det (entry (m_transformMatrix new)) = 1
    /\ mmul (invert (m_transformMatrix new)) (m_transformMatrix new) = identity
    /\ y3 (translation (m_transformMatrix new)) = y3 (translation (m_transformMatrix old))
    /\ (m_fwdPressed c = m_backPressed c -> m_leftPressed c = m_rightPressed c ->
        translation (m_transformMatrix new) = translation (m_transformMatrix old))
    /\ m_position new = m_position old /\ m_children new = m_children old.
Proof.
  intros H Hold.
  apply process_Some in H as (node & r0 & r1 & mx & mz & Hn & _ & _ & Hz & Hx & _ & ->).
  rewrite Hold in Hn. injection Hn as <-.
  destruct (camera_matrix r0 r1 (x3 (translation (m_transformMatrix old)))
              (y3 (translation (m_transformMatrix old)))
              (z3 (translation (m_transformMatrix old))) mx mz) as (Ha & Hd & Hy & Ht).
  match type of Hd with invert_det ?M = 1 => set (X := M) in * end.
  exists (setTransformMatrix X old).
  split; [apply deref_update_eq, Hold |].
  change (m_transformMatrix (setTransformMatrix X old)) with X.
  split; [exact Ha |]. split; [rewrite <- invert_det_det; exact Hd |].
  split; [apply invert_mmul_l; rewrite Hd; lra |].
  split; [exact Hy |]. split; [| split; reflexivity].
  intros Hfb Hlr. rewrite Ht.
  - destruct (translation (m_transformMatrix old)). reflexivity.
  - rewrite Hx, Hlr. destruct (m_rightPressed c); lra.
  - rewrite Hz, Hfb. destruct (m_backPressed c); lra.
Qed.

Lemma translateLocalXZ_zero (x z : R) (M : Mat4) :
  x = 0 -> z = 0 -> translateLocalXZ x z M = M.
Proof. intros -> ->. mat_destruct M. mat_ring. Qed.

Lemma update_update_same (st : list (option Node)) (id : nat) (M : Mat4) :
  update id (setTransformMatrix M) (update id (setTransformMatrix M) st)
  = update id (setTransformMatrix M) st.
Proof.
  destruct (deref st id) as [n|] eqn:E.
  - unfold update at 1. rewrite (deref_update_eq _ _ _ _ E).
    unfold update. rewrite E. rewrite list_insert_insert_eq. reflexivity.
  - unfold update. rewrite E, E. reflexivity.
Qed.

(** X24.  Without new pointer events, and with no key down or opposite
    keys down together, a second [process] changes nothing: the controller
    and the store are left exactly as the first call left them. *)
Theorem process_idempotent (c c1 : FPSCameraController) (st st1 : list (option Node)) :
  process c st = Some (c1, st1) ->
  m_fwdPressed c = m_backPressed c -> m_leftPressed c = m_rightPressed c ->
  process c1 st1 = Some (c1, st1).
Proof.
  intros H Hfb Hlr.
  apply process_Some in H as (node & r0 & r1 & mx & mz & Hn & Hr0 & Hr1 & Hz & Hx & -> & ->).
  assert (- (PI / 2) <= r0 <= PI / 2) as Hrange.
  { rewrite Hr0. apply clamp_range. pose proof PI_RGT_0. lra. }
  assert (mx = 0) as Hmx by (rewrite Hx, Hlr; destruct (m_rightPressed c); lra).
  assert (mz = 0) as Hmz by (rewrite Hz, Hfb; destruct (m_backPressed c); lra).
  rewrite (translateLocalXZ_zero mx mz) by assumption.
  set (t := translation (m_transformMatrix node)).
  set (X := translate (x3 t) (y3 t) (z3 t) (rotateY r1 (rotateX r0 identity))).
  assert (translation X = t) as Ht.
  { destruct (camera_matrix r0 r1 (x3 t) (y3 t) (z3 t) 0 0) as (_ & _ & _ & E).
    rewrite translateLocalXZ_zero in E by reflexivity.
    unfold X. rewrite E by reflexivity. destruct t; reflexivity. }
  unfold process. simpl m_cameraNode.
  rewrite (deref_update_eq _ _ _ _ Hn). simpl m_transformMatrix. rewrite Ht.
  simpl. rewrite !Z.sub_diag. simpl.
  replace (clamp (r0 - 0 / 400 * PI) (- (PI / 2)) (PI / 2)) with r0.
  2: { symmetry. replace (r0 - 0 / 400 * PI) with r0 by lra. apply clamp_inside, Hrange. }
  replace (r1 - 0 / 1000 * PI) with r1 by lra.
  rewrite translateLocalXZ_zero by (rewrite <- ?Hx, <- ?Hz; assumption).
  f_equal. f_equal. exact (update_update_same st (m_cameraNode c) X).
Qed.

Lemma camera_step (r0 r1 tx ty tz mx mz : R) :
  translation
    (translateLocalXZ mx mz (translate tx ty tz (rotateY r1 (rotateX r0 identity))))
  = mkVec3 (tx + cos r1 * mx + sin r1 * cos r0 * mz)
           ty
           (tz - sin r1 * mx + cos r1 * cos r0 * mz).
Proof. unfold translation. mat_unfold. f_equal; ring. Qed.

(** X25.  One [process] moves the camera in its own horizontal plane: with
    the new yaw and pitch and the step [(moveX, moveZ)] of the keys, the X
    and Z of the translation change by the step turned by the yaw, the
    forward part shortened by the cosine of the pitch, and Y stays. *)
Theorem process_step (c c' : FPSCameraController) (st st' : list (option Node))
    (old : Node) :
  process c st = Some (c', st') -> deref st (m_cameraNode c) = Some old ->
  let moveZ := (if m_fwdPressed c then - 0.05 else 0)
               + (if m_backPressed c then 0.05 else 0) in
  let moveX := (if m_leftPressed c then - 0.05 else 0)
               + (if m_rightPressed c then 0.05 else 0) in
  let pitch := x3 (m_rotation c') in
  let yaw := y3 (m_rotation c') in
  let t := translation (m_transformMatrix old) in
  exists new,
    deref st' (m_cameraNode c) = Some new
    /\ translation (m_transformMatrix new)
       = mkVec3 (x3 t + cos yaw * moveX + sin yaw * cos pitch * moveZ)
                (y3 t)
                (z3 t - sin yaw * moveX + cos yaw * cos pitch * moveZ).
Proof.
  intros H Hold moveZ moveX pitch yaw t.
  apply process_Some in H as (node & r0 & r1 & mx & mz & Hn & _ & _ & Hz & Hx & -> & ->).
  rewrite Hold in Hn. injection Hn as <-.
  eexists. split; [apply deref_update_eq, Hold |].
  simpl m_transformMatrix. rewrite camera_step.
  subst pitch yaw moveX moveZ t. simpl m_rotation. simpl x3. simpl y3.
  rewrite Hx, Hz. unfold translation, mget, vget. simpl. f_equal; ring.
Qed.

(** X26.  The first pointer-move event the program sees sets the previous
    position to the event's own, so the next [process] turns the camera by
    nothing; every later move event, for this controller or another one,
    leaves the previous position alone, and the next [process] turns the yaw
    by the travel from it. *)
Theorem first_move (c c1 c2 : FPSCameraController) (s_first s' : bool)
    (touchType : TouchType) (x y : Z) (st st2 : list (option Node)) :
  eventCallback (Some (mkEvent TouchMoveEv (IsTouchEvent touchType x y))) (s_first, c)
  = Some (s', c1) ->
  process c1 st = Some (c2, st2) ->
  s' = false
  /\ (s_first = true ->
      y3 (m_rotation c2) = y3 (m_rotation c)
      /\ x3 (m_rotation c2) = clamp (x3 (m_rotation c)) (- (PI / 2)) (PI / 2))
  /\ (s_first = false ->
      y3 (m_rotation c2) = y3 (m_rotation c) - IZR (x - m_lastX c) * PI / 1000
      /\ x3 (m_rotation c2)
         = clamp (x3 (m_rotation c) - IZR (y - m_lastY c) * PI / 400)
             (- (PI / 2)) (PI / 2)).
Proof.
  simpl. intros [= <- <-] H.
  apply process_Some in H as (node & r0 & r1 & mx & mz & _ & -> & -> & _ & _ & -> & _).
  simpl. split; [reflexivity |]. split; intros ->; simpl.
  - rewrite !Z.sub_diag. simpl. split; [lra | f_equal; lra].
  - split; [lra | f_equal; lra].
Qed.

(** X27.  [eventCallback] changes a movement flag only on a key event for
    W, A, S or D: a press sets the key's flag, a release clears it, and the
    other three flags, the pointer positions and the rotation stay.  Any
    other key, any event that is neither a key nor a pointer-move event, and
    a null event leave the controller as it is. *)
Theorem key_events (s_first : bool) (c : FPSCameraController) :
  (forall pressed : bool,
     let type := if pressed then KeyPressEv else KeyReleaseEv in
     eventCallback (Some (mkEvent type (IsKeyEvent KeyW))) (s_first, c)
     = Some (s_first, with_keys c pressed (m_backPressed c)
                        (m_leftPressed c) (m_rightPressed c))
     /\ eventCallback (Some (mkEvent type (IsKeyEvent KeyS))) (s_first, c)
        = Some (s_first, with_keys c (m_fwdPressed c) pressed
                           (m_leftPressed c) (m_rightPressed c))
     /\ eventCallback (Some (mkEvent type (IsKeyEvent KeyA))) (s_first, c)
        = Some (s_first, with_keys c (m_fwdPressed c) (m_backPressed c)
                           pressed (m_rightPressed c))
     /\ eventCallback (Some (mkEvent type (IsKeyEvent KeyD))) (s_first, c)
        = Some (s_first, with_keys c (m_fwdPressed c) (m_backPressed c)
                           (m_leftPressed c) pressed)
     /\ forall key,
          key <> KeyW -> key <> KeyA -> key <> KeyS -> key <> KeyD ->
          eventCallback (Some (mkEvent type (IsKeyEvent key))) (s_first, c)
          = Some (s_first, c))
  /\ (forall ev,
        event_type ev <> KeyPressEv -> event_type ev <> KeyReleaseEv ->
        event_type ev <> TouchMoveEv ->
        eventCallback (Some ev) (s_first, c) = Some (s_first, c))
  /\ eventCallback None (s_first, c) = Some (s_first, c).
Proof.
  split; [| split].
  - intros pressed type. subst type.
    repeat split; try (destruct pressed; reflexivity).
    intros key H1 H2 H3 H4. destruct pressed; destruct key; try reflexivity; congruence.
  - intros ev H1 H2 H3. unfold eventCallback.
    destruct (Z.eqb_spec (event_type ev) KeyPressEv); [contradiction |].
    destruct (Z.eqb_spec (event_type ev) KeyReleaseEv); [contradiction |].
    destruct (Z.eqb_spec (event_type ev) TouchMoveEv); [contradiction |].
    reflexivity.
  - reflexivity.
Qed.

End Controller.

(** ** The render traversal, frame by frame *)

Module Traversal.
Import glutils core Spec Geometry SceneSpec RenderSpec ExtraSpec LinearAlgebra
       NodeProps SceneGraph Invariant Rendering Frames MoreLinearAlgebra MoreScene
       Examples.

(** *** The matrices of a draw call *)

Lemma product_of_mmul (A B C : Mat4) : product_of A B C <-> C = mmul A B.
Proof.
  unfold product_of. split.
  - intros H. apply Mat4_ext. intros c r.
    change (entry C r c = entry (mmul A B) r c). rewrite mmul_product. apply H.
  - intros -> r c. apply mmul_product.
Qed.

Lemma transpose_of_transpose (M N : Mat4) : transpose_of M N <-> N = transpose M.
Proof.
  unfold transpose_of. split.
  - intros H. apply Mat4_ext. intros c r.
    change (entry N r c = entry (transpose M) r c). rewrite transpose_entry. apply H.
  - intros -> r c. apply transpose_entry.
Qed.

Lemma transpose_involutive (M : Mat4) : transpose (transpose M) = M.
Proof. mat_destruct M. reflexivity. Qed.

Lemma identity_entry (r c : idx) : entry identity r c = unit_matrix r c.
Proof. destruct r, c; reflexivity. Qed.

(** The transpose of the inverse is what [invert], then [transpose] give
    on a matrix with an inverse. *)
Lemma transposed_inverse_invert (M N : Mat4) :
  transposed_inverse M N <-> det (entry M) <> 0 /\ N = transpose (invert M).
Proof.
  unfold transposed_inverse, inverse_of. rewrite <- invert_det_det. split.
  - intros [Hd H]. split; [exact Hd |].
    assert (transpose N = invert M) as E.
    { apply invert_left_unique; [exact Hd |].
      apply Mat4_ext. intros c r.
      change (entry (mmul (transpose N) M) r c = entry identity r c).
      rewrite mmul_product, identity_entry. rewrite <- (proj1 (H r c)).
      apply product_ext; intros; [apply transpose_entry | reflexivity]. }
    rewrite <- E, transpose_involutive. reflexivity.
  - intros [Hd ->]. split; [exact Hd |]. intros r c.
    assert (forall i j, transposed (entry (transpose (invert M))) i j = entry (invert M) i j)
      as Et by (intros; unfold transposed; apply transpose_entry).
    split.
    + rewrite (product_ext _ (entry (invert M)) _ (entry M) r c Et (fun _ _ => eq_refl)).
      rewrite <- mmul_product, (invert_mmul_l M Hd). apply identity_entry.
    + rewrite (product_ext _ (entry M) _ (entry (invert M)) r c (fun _ _ => eq_refl) Et).
      rewrite <- mmul_product, (invert_mmul_r M Hd). apply identity_entry.
Qed.

(** The event [drawMesh] issues is the draw call of the reference. *)
Lemma draw_of_EvDraw (view proj : Mat4) (lightVec : list (option NodeId))
    (mesh : MeshId) (model : Mat4) (e : Event) :
  draw_of view proj lightVec mesh model e
  <-> e = EvDraw mesh (mmul view model) proj (transpose (invert model)) lightVec.
Proof.
  unfold draw_of. split.
  - intros (mv & nm & -> & Hmv & Hinv & Hsing).
    apply product_of_mmul in Hmv as ->. f_equal.
    destruct (Req_dec_T (det (entry model)) 0) as [Hz | Hnz].
    + pose proof (Hsing Hz) as Hs. apply transpose_of_transpose in Hs as ->.
      rewrite invert_singular; [reflexivity | rewrite invert_det_det; exact Hz].
    + pose proof (Hinv Hnz) as Hi. apply transposed_inverse_invert in Hi as [_ ->].
      reflexivity.
  - intros ->. exists (mmul view model), (transpose (invert model)).
    split; [reflexivity |]. split; [apply product_of_mmul; reflexivity |]. split.
    + intros Hnz. apply transposed_inverse_invert. auto.
    + intros Hz. apply transpose_of_transpose.
      rewrite invert_singular; [reflexivity | rewrite invert_det_det; exact Hz].
Qed.

(** *** The traversal returns *)

Lemma forEach_all_Ok {A : Type} (xs : list A) (body : A -> Trace) :
  (forall x, In x xs -> exists ex, body x = (ex, Ok tt)) ->
  exists evs, forEach xs body = (evs, Ok tt).
Proof.
  induction xs as [| x xs IH]; intros H; simpl; [eauto |].
  destruct (H x (or_introl eq_refl)) as [ex Hx]. rewrite Hx.
  destruct (IH (fun y Hy => H y (or_intror Hy))) as [evs Hxs].
  simpl. rewrite Hxs. eauto.
Qed.

Lemma renderNode_returns (st : Store) (this : Renderer) (lightVec : list (option NodeId)) :
  children_newer st -> no_null_children st ->
  forall (fuel : nat) (id : NodeId) (n : Node) (P : Mat4),
    deref st id = Some n -> (length st - id < fuel)%nat ->
    exists evs, renderNode fuel st this (Some id) P lightVec = (evs, Ok tt).
Proof.
  intros Hwf Hnn. induction fuel as [| fuel IH]; intros id n P Hn Hfuel; [lia |].
  simpl. rewrite Hn. destruct (Hwf id n Hn) as [Hch Hcls].
  pose proof (deref_lt _ _ _ Hn) as Hlt.
  destruct (forEach_all_Ok (m_children n)
              (fun childNode =>
                 renderNode fuel st this childNode (mmul P (m_transformMatrix n)) lightVec))
    as [e2 Hloop].
  { intros [c|] Hc.
    - destruct (Hch c Hc) as [Hidc [cn Hcn]]. apply (IH c cn); [assumption | lia].
    - destruct (Hnn id n Hn Hc). }
  unfold drawMesh. destruct (NodeType.eqb NodeType.Mesh (m_type n)) eqn:Et.
  - apply NodeType_eqb_eq in Et. symmetry in Et. destruct (Hcls Et) as [mesh ->].
    destruct mesh; simpl; rewrite Hloop; eauto.
  - simpl. rewrite Hloop. eauto.
Qed.

(** *** The light loop *)

Lemma placeLights_cons (fuel : nat) (this : Renderer) (l : option NodeId)
    (ls : list (option NodeId)) (st : Store) :
  placeLights fuel this (l :: ls) st
  = match placeLight fuel this st l with
    | Some st1 => placeLights fuel this ls st1
    | None => None
    end.
Proof.
  unfold placeLights. simpl. destruct (placeLight fuel this st l); [reflexivity |].
  apply placeLights_None.
Qed.

(** What holds of the store before the light loop and is kept by
    [setLightPosition] holds after it. *)
Lemma placeLights_keeps (P : Store -> Prop) (fuel : nat) (this : Renderer) :
  (forall id p st, P st -> P (update id (setLightPosition p) st)) ->
  forall lightVec st st',
    P st -> placeLights fuel this lightVec st = Some st' -> P st'.
Proof.
  intros Hkeep. induction lightVec as [| l ls IH]; intros st st' HP H.
  - injection H as <-. exact HP.
  - rewrite placeLights_cons in H.
    destruct (placeLight fuel this st l) as [st1|] eqn:E; [| discriminate].
    apply placeLight_Some in E as (id & total & _ & _ & ->).
    eapply IH; [| exact H]. apply Hkeep, HP.
Qed.

Lemma placeLights_succeeds (fuel : nat) (this : Renderer) :
  forall lightVec st,
    (forall l, In l lightVec ->
       exists id total, l = Some id /\ totalTransformMatrix fuel st id = Some total) ->
    exists st', placeLights fuel this lightVec st = Some st'.
Proof.
  induction lightVec as [| l ls IH]; intros st H.
  - exists st. reflexivity.
  - rewrite placeLights_cons.
    destruct (H l (or_introl eq_refl)) as (id & total & -> & Ht).
    unfold placeLight. rewrite Ht. apply IH.
    intros l Hl. destruct (H l (or_intror Hl)) as (id' & total' & -> & Ht').
    exists id', total'. split; [reflexivity |].
    rewrite totalTransformMatrix_update; [exact Ht' |].
    intros n. apply setLightPosition_keeps.
Qed.

Lemma Reaches_deref (st : Store) (root d : NodeId) (dn : Node) :
  Reaches st root d dn -> deref st d = Some dn.
Proof. induction 1; assumption. Qed.

Lemma update_length (st : Store) (id : NodeId) (f : Node -> Node) :
  length (update id f st) = length st.
Proof. unfold update. destruct (deref st id); [apply length_insert | reflexivity]. Qed.

Lemma no_null_update (st : Store) (id : NodeId) (f : Node -> Node) :
  keeps_links f -> no_null_children st -> no_null_children (update id f st).
Proof.
  intros Hf H x n Hx. rewrite deref_update in Hx.
  destruct (Nat.eq_dec id x) as [-> | Hne]; [| eauto].
  destruct (deref st x) as [m|] eqn:Hm; [| discriminate].
  injection Hx as <-. destruct (Hf m) as (_ & Ec & _). rewrite Ec. eauto.
Qed.

Lemma alive_update (st : Store) (id x : NodeId) (f : Node -> Node) :
  (exists n, deref st x = Some n) -> exists n, deref (update id f st) x = Some n.
Proof.
  intros [n Hn]. rewrite deref_update.
  destruct (Nat.eq_dec id x); rewrite Hn; simpl; eauto.
Qed.

Lemma totalTransformMatrix_enough (st : Store) (fuel : nat) (id : NodeId) (n : Node) :
  parents_older st -> deref st id = Some n -> (length st <= fuel)%nat ->
  exists M, totalTransformMatrix fuel st id = Some M.
Proof.
  intros Hold Hn Hfuel. destruct (totalTransformMatrix_total st Hold id n Hn) as [M HM].
  exists M. eapply totalTransformMatrix_fuel; [exact HM |].
  pose proof (deref_lt _ _ _ Hn). lia.
Qed.

(** *** A whole frame *)

(** On a scene as the factory builds it, with an open device and an active
    camera, [render] ends; it returns unless the traversal meets a null
    child. *)
Lemma render_completes (fuel : nat) (this : Renderer) (s : Scene) (st : Store) :
  renderable s st -> (length st < fuel)%nat ->
  f_result (render fuel this (Some s) st) <> NoBehaviour
  /\ (no_null_children st -> f_result (render fuel this (Some s) st) = Ok tt).
Proof.
  intros ((dc & Hdc & Hopen) & (root & rn & Hroot & Hrn) & (c & cam & Hc & Hcam)
          & [Hold Hnew] & Hlights) Hfuel.
  assert (exists cn, deref st c = Some cn) as [cn Hcn].
  { unfold camera in Hcam. destruct (deref st c); [eauto | discriminate]. }
  destruct (totalTransformMatrix_enough st fuel c cn Hold Hcn ltac:(lia)) as [total Ht].
  destruct (parseNodeForLight_behaves st Hnew fuel (Some root) [])
    as [lightVec Hlv]; [split; [eauto | lia] |].
  set (this' := mkRenderer (invert total) (projectionMatrix cam) (m_bgColor this)).
  destruct (placeLights_succeeds fuel this' lightVec st) as [st' Hst'].
  { intros l Hl.
    apply (parseNodeForLight_spec st fuel (Some root) [] lightVec Hlv) in Hl
      as [[] | (r & d & dn & _ & [Hreach Htype] & ->)].
    apply Reaches_deref in Hreach.
    destruct (Hlights d dn Hreach Htype) as (light & p & Hd).
    destruct (totalTransformMatrix_enough st fuel d dn Hold Hreach ltac:(lia)) as [M HM].
    exists d, M. unfold lightEntry. rewrite Hd. auto. }
  assert (children_newer st') as Hnew'.
  { apply (placeLights_keeps wf_store fuel this') with (lightVec := lightVec) (st := st);
      [| split; assumption | exact Hst'].
    intros id p st0. apply wf_update, keeps_links_setLightPosition. }
  assert (length st' = length st) as Hlen.
  { apply (placeLights_keeps (fun x => length x = length st) fuel this')
      with (lightVec := lightVec) (st := st); [| reflexivity | exact Hst'].
    intros id p st0 E. rewrite update_length. exact E. }
  assert (exists rn', deref st' root = Some rn') as [rn' Hrn'].
  { apply (placeLights_keeps (fun x => exists n, deref x root = Some n) fuel this')
      with (lightVec := lightVec) (st := st); [| eauto | exact Hst'].
    intros id p st0. apply alive_update. }
  assert (render fuel this (Some s) st
          = match renderNode fuel st' this' (Some root) identity lightVec with
            | (ds, Ok tt) =>
              mkFrame this' st'
                (([EvActivate] ++ [EvGlState; EvClear (m_bgColor this')]) ++ ds ++ [EvPresent])
                (Ok tt)
            | (ds, r) =>
              mkFrame this' st' (([EvActivate] ++ [EvGlState; EvClear (m_bgColor this')]) ++ ds) r
            end) as E.
  { unfold render. rewrite Hdc, Hopen, Hc, Ht, Hcam. simpl negb. cbv iota zeta.
    unfold getLightNodes. rewrite Hroot, Hlv.
    cbn [m_viewMatrix m_bgColor m_projectionMatrix]. fold this'. rewrite Hst'. reflexivity. }
  rewrite E. split.
  - pose proof (renderNode_behaves st' this' lightVec Hnew' fuel root rn' identity Hrn'
                  ltac:(lia)) as Hb.
    destruct (renderNode fuel st' this' (Some root) identity lightVec) as [ds [[] | w |]];
      simpl in *; congruence.
  - intros Hnn.
    assert (no_null_children st') as Hnn'.
    { apply (placeLights_keeps no_null_children fuel this')
        with (lightVec := lightVec) (st := st); [| exact Hnn | exact Hst'].
      intros id p st0. apply no_null_update, keeps_links_setLightPosition. }
    destruct (renderNode_returns st' this' lightVec Hnew' Hnn' fuel root rn' identity Hrn'
                ltac:(lia)) as [ds Hds].
    rewrite Hds. reflexivity.
Qed.

(** *** The scene of the camera and the mesh *)

Lemma view_5_translation (r c : idx) :
  entry (Mat4_of_array (translate_array 0 0 (-5))) r c
  = translation_by (mkVec3 0 0 (-5)) r c.
Proof. rewrite Mat4_of_array_entry. apply translate_array_translation. Qed.

(** C5.  [render] starts the traversal at the root with the identity as
    accumulated transform, and on a scene as the factory builds it, with an
    open device and an active camera, the frame ends: it returns, unless a
    node has a null child, which makes the traversal throw.  At every node
    the model matrix is the accumulated transform times the local
    transform, and the children are traversed with the model matrix as
    accumulated transform, after the node itself.  The draw calls of a
    traversal that returns are exactly those of the visited mesh nodes that
    have a mesh, each with the row-by-column product [view * model] as
    model-view matrix and, as normal matrix, the transpose of the inverse of
    the model matrix (the matrix whose transpose times the model matrix is
    the identity); where the model matrix has determinant zero and no
    inverse, the normal matrix is the transpose of the model matrix itself.
    With the camera at (0,0,5) and a mesh node with identity transform under
    the root, the view matrix is the translation by (0,0,-5) and the
    model-view matrix of the mesh is the view matrix. *)
Theorem render_traversal_spec :
  (forall fuel this s st dc,
     let fr := render fuel this (Some s) st in
     f_result fr = Ok tt -> m_drawingContext s = Some dc -> isDeviceOpen dc = true ->
     exists lightVec ds,
       renderNode fuel (f_store fr) (f_renderer fr) (m_rootNode s) identity lightVec
       = (ds, Ok tt)
       /\ f_events fr
          = [EvActivate; EvGlState; EvClear (m_bgColor this)] ++ ds ++ [EvPresent])
  /\ (forall fuel this s st,
     renderable s st -> (length st < fuel)%nat ->
     f_result (render fuel this (Some s) st) <> NoBehaviour
     /\ (no_null_children st -> f_result (render fuel this (Some s) st) = Ok tt))
  /\ (forall fuel st this id n P lightVec,
     deref st id = Some n ->
     let modelMatrix := mmul P (m_transformMatrix n) in
     product_of P (m_transformMatrix n) modelMatrix
     /\ renderNode (S fuel) st this (Some id) P lightVec
        = andThen (drawMesh this n modelMatrix lightVec)
            (fun _ => forEach (m_children n)
                        (fun childNode =>
                           renderNode fuel st this childNode modelMatrix lightVec)))
  /\ (forall fuel st this id P lightVec evs,
     renderNode fuel st this (Some id) P lightVec = (evs, Ok tt) ->
     (forall e, In e evs <->
        exists d dn modelMatrix mesh,
          Visits st id P d dn modelMatrix
          /\ m_type dn = NodeType.Mesh /\ derived dn = IsMeshNode (Some mesh)
          /\ draw_of (m_viewMatrix this) (m_projectionMatrix this) lightVec mesh
               modelMatrix e)
     /\ (forall d dn modelMatrix,
           Visits st id P d dn modelMatrix -> ~ In None (m_children dn)))
  /\ (forall fuel st this P lightVec,
     renderNode (S fuel) st this None P lightVec
     = ([], Throw "Found null node during rendering"))
  /\ (forall fuel st this id n P lightVec,
     wf_store st -> deref st id = Some n -> (length st - id < fuel)%nat ->
     snd (renderNode fuel st this (Some id) P lightVec) <> NoBehaviour
     /\ (no_null_children st ->
         exists evs, renderNode fuel st this (Some id) P lightVec = (evs, Ok tt)))
  /\ (let fr := render 3 Renderer_new (Some (fst camera_mesh_scene))
                  (snd camera_mesh_scene) in
      f_result fr = Ok tt
      /\ (forall r c,
            entry (m_viewMatrix (f_renderer fr)) r c
            = translation_by (mkVec3 0 0 (-5)) r c)
      /\ draws (f_events fr)
         = [EvDraw theMesh (m_viewMatrix (f_renderer fr)) (projectionMatrix theCamera)
                   identity []]).
Proof.
  split; [| split; [| split; [| split; [| split; [| split]]]]].
  - intros fuel this s st dc fr Hok Hdc Hopen.
    destruct (render_Ok fuel this s st Hok) as (dc' & Hdc' & _ & H).
    rewrite Hdc in Hdc'. injection Hdc' as <-.
    destruct (H Hopen) as (c & total & cam & lightVec & ds & _ & _ & _ & _ & _ & _ & Hr & He).
    exists lightVec, ds. split; assumption.
  - intros fuel this s st. apply render_completes.
  - intros fuel st this id n P lightVec Hn modelMatrix. split.
    + apply product_of_mmul. reflexivity.
    + simpl. rewrite Hn. reflexivity.
  - intros fuel st this id P lightVec evs H.
    destruct (renderNode_Ok st this lightVec fuel id P evs H) as [Hev Hnn].
    split; [| exact Hnn].
    intros e. rewrite Hev. split.
    + intros (d & dn & Md & mesh & Hv & Ht & Hm & He).
      exists d, dn, Md, mesh. rewrite draw_of_EvDraw. auto.
    + intros (d & dn & Md & mesh & Hv & Ht & Hm & He).
      exists d, dn, Md, mesh. rewrite draw_of_EvDraw in He. auto.
  - reflexivity.
  - intros fuel st this id n P lightVec [_ Hwf] Hn Hfuel. split.
    + eapply renderNode_behaves; eassumption.
    + intros Hnn. eapply renderNode_returns; eassumption.
  - destruct camera_mesh_frame as (Hok & Hview & Hdraws).
    split; [exact Hok |]. split; [| exact Hdraws].
    intros r c. rewrite Hview. apply view_5_translation.
Qed.

End Traversal.

(** ** The further theorems at concrete inputs *)

Module MoreWitness.
Import glutils core port dispatcher controller Spec SceneSpec ExtraSpec DispatchSpec
       LinearAlgebra NodeProps SceneGraph Invariant Rendering Frames Examples
       MoreExamples MoreLinearAlgebra MoreScene Dispatch Controller.

Lemma sample_invert_det : invert_det sample = 6.
Proof. unfold sample. mat_unfold. ring. Qed.

Lemma shift_det : det (entry (Mat4_of_array (translate_array 1 2 3))) = 1.
Proof. mat_unfold. ring. Qed.

Lemma tree_value (r : Res (nat * list (option Node))) :
  (forall id st, r = Ok (id, st) -> wf_store st /\ linked st) ->
  wf_store (snd (value (0%nat, []) r)) /\ linked (snd (value (0%nat, []) r)).
Proof.
  intros H. destruct r as [[id st] | |]; simpl.
  - eauto.
  - split; [apply wf_empty | apply linked_empty].
  - split; [apply wf_empty | apply linked_empty].
Qed.

Lemma tree_update (st : list (option Node)) (id : nat) (f : Node -> Node) :
  keeps_links f -> wf_store st /\ linked st ->
  wf_store (update id f st) /\ linked (update id f st).
Proof.
  intros Hf [Hwf Hl]. split; [apply wf_update | apply linked_update]; assumption.
Qed.

Lemma tree_createNode (T : NodeClass) (s : Scene) (name : string) (p : option nat)
    (st : list (option Node)) :
  wf_store st /\ linked st ->
  wf_store (snd (value (0%nat, []) (createNode T s name p st)))
  /\ linked (snd (value (0%nat, []) (createNode T s name p st))).
Proof.
  intros [Hwf Hl]. apply tree_value. intros id st' H.
  split; [eapply wf_createNode | eapply linked_createNode]; eassumption.
Qed.

Lemma keeps_links_setLight (l : option Light) : keeps_links (setLight l).
Proof.
  intros n. unfold setLight.
  destruct (derived n) eqn:E; simpl; rewrite ?E; repeat split; auto;
    intros [mesh [=]].
Qed.

Lemma empty_scene_tree : wf_store (snd empty_scene) /\ linked (snd empty_scene).
Proof.
  split.
  - eapply (wf_Scene_new "scene" (Some openContext) [] _ (fst empty_scene));
      [apply wf_empty | reflexivity].
  - eapply (linked_Scene_new "scene" (Some openContext) [] _ (fst empty_scene));
      [apply linked_empty | reflexivity].
Qed.

Lemma camera_mesh_scene_tree :
  wf_store (snd camera_mesh_scene) /\ linked (snd camera_mesh_scene).
Proof.
  unfold camera_mesh_scene.
  destruct empty_scene as [s0 st0] eqn:E0.
  pose proof empty_scene_tree as T0. rewrite E0 in T0. simpl snd in T0.
  pose proof (tree_createNode CCameraNode s0 "cameraNode" (m_rootNode s0) st0 T0) as T1.
  destruct (value (0%nat, []) (createNode CCameraNode s0 "cameraNode" (m_rootNode s0) st0))
    as [c st1]. simpl snd in T1.
  pose proof (tree_update _ c _ (keeps_links_call (SetPosition 0 0 5)) T1) as T2.
  pose proof (tree_update _ c _ (keeps_links_setCamera (Some theCamera)) T2) as T3.
  pose proof (tree_createNode CMeshNode s0 "meshNode" (m_rootNode s0) _ T3) as T4.
  simpl call in T4.
  destruct (value (0%nat, []) (createNode CMeshNode s0 "meshNode" (m_rootNode s0) _))
    as [m st4]. simpl snd in T4.
  exact (tree_update _ m _ (keeps_links_setMesh (Some theMesh)) T4).
Qed.

Lemma light_scene_tree : wf_store (snd light_scene) /\ linked (snd light_scene).
Proof.
  unfold light_scene.
  destruct camera_mesh_scene as [s st] eqn:E.
  pose proof camera_mesh_scene_tree as T0. rewrite E in T0. simpl snd in T0.
  pose proof (tree_createNode CLightNode s "lightNode" (m_rootNode s) st T0) as T1.
  destruct (value (0%nat, []) (createNode CLightNode s "lightNode" (m_rootNode s) st))
    as [l st1]. simpl snd in T1.
  pose proof (tree_update _ l _ (keeps_links_setLight (Some (mkLight Point))) T1) as T2.
  exact (tree_update _ l _ (keeps_links_call (SetPosition 1 3 2)) T2).
Qed.

(** X2 on two matrices with determinants 6 and 1. *)
Lemma invert_mmul_witness :
  invert (mmul sample (Mat4_of_array (translate_array 1 2 3)))
  = mmul (invert (Mat4_of_array (translate_array 1 2 3))) (invert sample).
Proof.
  apply invert_mmul.
  - rewrite <- invert_det_det, sample_invert_det. lra.
  - rewrite shift_det. lra.
Defined.

(** X3 on the matrix with determinant 6. *)
Lemma invert_transpose_witness :
  invert (transpose sample) = transpose (invert sample)
  /\ det (entry (invert sample)) = / det (entry sample).
Proof.
  destruct (invert_transpose sample) as [H1 H2].
  split; [exact H1 |]. apply H2. rewrite <- invert_det_det, sample_invert_det. lra.
Defined.

(** X7 on the half turn about Z. *)
Lemma rotateXYZW_unit_rotation_witness :
  mmul (transpose (Rotate half_turn_z)) (Rotate half_turn_z) = identity
  /\ det (entry (Rotate half_turn_z)) = 1
  /\ invert (Rotate half_turn_z) = transpose (Rotate half_turn_z).
Proof.
  apply rotateXYZW_unit_rotation. unfold unit_quaternion, half_turn_z. simpl. lra.
Defined.

(** X8 on the vector (3, 0, 4, 0). *)
Lemma normalize_length_witness : Vec_length (normalize (mkVec4 3 0 4 0)) = 1.
Proof.
  apply normalize_length. unfold dot, accumulate. simpl. lra.
Defined.

(** X9 on the matrix with determinant 6. *)
Lemma normal_matrix_dot_witness :
  dot (mvmul (transpose (invert sample)) (mkVec4 0 1 0 0)) (mvmul sample (mkVec4 1 0 0 0))
  = dot (mkVec4 0 1 0 0) (mkVec4 1 0 0 0).
Proof.
  apply normal_matrix_dot. rewrite <- invert_det_det, sample_invert_det. lra.
Defined.

(** X11 on the camera of the perspective sanity check. *)
Lemma perspective_planes_witness :
  let znear := 0.1 in
  let zfar := 100 in
  let z := -5 in
  let P := projectionMatrix (pc_Camera (PerspectiveCamera_new 1 (PI / 2) znear zfar)) in
  let clip (px py pz : R) := mvmul P (mkVec4 px py pz 1) in
  vget (clip 0 0 z) i3 = - z
  /\ vget (clip 0 0 (- znear)) i2 = - vget (clip 0 0 (- znear)) i3
  /\ (zfar > 0 -> vget (clip 0 0 (- zfar)) i2 = vget (clip 0 0 (- zfar)) i3).
Proof.
  intros znear zfar z.
  assert (znear <> zfar) as Hne by (unfold znear, zfar; lra).
  exact (perspective_planes 1 (PI / 2) znear zfar 0 0 z Hne).
Defined.

(** X13 on the first node created under the root of a scene. *)
Lemma createNode_keeps_tree_witness :
  let st' := snd (value (0%nat, []) twice_a_1) in
  wf_store st' /\ linked st'
  /\ 1%nat = length (snd empty_scene) /\ length st' = S (length (snd empty_scene))
  /\ (exists p0 pn,
        m_rootNode (fst empty_scene) = Some p0 /\ deref (snd empty_scene) p0 = Some pn
        /\ deref st' p0 = Some (addChild (Some 1%nat) pn)
        /\ deref st' 1 = Some (construct CNode "a" (Some p0))
        /\ forall x n, x <> p0 -> deref (snd empty_scene) x = Some n ->
                       deref st' x = Some n).
Proof.
  apply (createNode_keeps_tree CNode (fst empty_scene) "a" (m_rootNode (fst empty_scene))
           (snd empty_scene)).
  - exact (proj1 empty_scene_tree).
  - exact (proj2 empty_scene_tree).
  - reflexivity.
Defined.

(** X14 on the scene with the light: the light node, handle 3, is found. *)
Lemma getLightNodes_spec_witness :
  getLightNodes 5 (snd light_scene) (fst light_scene) = Some [Some 3%nat]
  /\ exists d dn,
       Reaches (snd light_scene) 0 d dn /\ m_type dn = NodeType.Light
       /\ Some 3%nat = lightEntry d dn.
Proof.
  assert (getLightNodes 5 (snd light_scene) (fst light_scene) = Some [Some 3%nat]) as E
    by reflexivity.
  split; [exact E |].
  destruct (getLightNodes_spec 5 (snd light_scene) (fst light_scene) 0 eq_refl)
    as (H & _ & _).
  apply (H [Some 3%nat] E (Some 3%nat)). left. reflexivity.
Defined.

(** X15 on the same scene: the mesh node, handle 2, is visited with its
    total transform. *)
Lemma model_matrix_is_total_witness :
  exists fuel,
    totalTransformMatrix fuel (snd light_scene) 2
    = Some (mmul (mmul identity identity) identity).
Proof.
  apply (model_matrix_is_total (snd light_scene) 0 (node_at (snd light_scene) 0)
           2 (node_at (snd light_scene) 2)).
  - exact (proj2 light_scene_tree).
  - reflexivity.
  - reflexivity.
  - apply (Visits_below _ 0 identity (node_at (snd light_scene) 0) 2 2
             (node_at (snd light_scene) 2)).
    + reflexivity.
    + simpl. auto.
    + apply (Visits_here _ 2 (mmul identity identity) (node_at (snd light_scene) 2)).
      reflexivity.
Defined.

(** X16 on the same scene: a frame is completed and the light found. *)
Lemma render_places_lights_witness :
  let fr := render 5 Renderer_new (Some (fst light_scene)) (snd light_scene) in
  exists lightVec,
    getLightNodes 5 (snd light_scene) (fst light_scene) = Some lightVec
    /\ forall x n,
        deref (snd light_scene) x = Some n ->
        (In (Some x) lightVec ->
         exists total,
           totalTransformMatrix 5 (snd light_scene) x = Some total
           /\ deref (f_store fr) x
              = Some (setLightPosition
                        (viewPosition (m_viewMatrix (f_renderer fr)) total) n))
        /\ (~ In (Some x) lightVec -> deref (f_store fr) x = Some n).
Proof.
  apply (render_places_lights 5 Renderer_new (fst light_scene) (snd light_scene)
           openContext); reflexivity.
Defined.

(** X19 on a new dispatcher. *)
Lemma createHandle_fresh_witness :
  let d := @EventDispatcher_new nat in
  let d' := mkDispatcher 1 (<[0%Z := (None, NoEvent)]> ∅) in
  (forall h' entry, m_clbkMap d !! h' = Some entry -> m_clbkMap d' !! h' = Some entry)
  /\ (forall ev f e, In (f, e) (dispatchEvent ev d') <-> In (f, e) (dispatchEvent ev d))
  /\ (handles_below d ->
      m_clbkMap d !! 0%Z = None
      /\ m_clbkMap d' !! 0%Z = Some (None, NoEvent)
      /\ handles_below d').
Proof.
  intros d d'. apply (createHandle_fresh d d' 0%Z). reflexivity.
Defined.

(** X21 on a new dispatcher and the camera node of the scene. *)
Lemma controller_registration_witness :
  m_cameraNode (fst controller0) = 1%nat
  /\ In (0%nat, move_event) (dispatchEvent (Some move_event) (snd controller0))
  /\ m_clbkMap (FPSCameraController_delete (fst controller0) (snd controller0))
       !! m_handle (fst controller0) = None.
Proof.
  destruct (controller_registration 0%nat EventDispatcher_new 1%nat
              (fst controller0) (snd controller0) eq_refl)
    as (_ & _ & Hn & _ & Hin & _ & Hdel).
  split; [exact Hn |]. split; [| exact Hdel].
  apply Hin. simpl. auto 6.
Defined.

(** X22 to X25 on the controller after the pointer went to (30,-20). *)
Lemma process_clamps_pitch_witness :
  - (PI / 2) <= x3 (m_rotation (fst (after walking))) <= PI / 2
  /\ y3 (m_rotation (fst (after walking)))
     = y3 (m_rotation walking) - IZR (m_nextX walking - m_lastX walking) * PI / 1000
  /\ m_lastX (fst (after walking)) = m_nextX walking
  /\ m_lastY (fst (after walking)) = m_nextY walking.
Proof.
  apply (process_clamps_pitch walking (fst (after walking)) (snd light_scene)
           (snd (after walking))).
  reflexivity.
Defined.

Lemma process_camera_matrix_witness :
  exists new,
    deref (snd (after walking)) 1 = Some new
    /\ affine (m_transformMatrix new)
    /\ det (entry (m_transformMatrix new)) = 1
    /\ mmul (invert (m_transformMatrix new)) (m_transformMatrix new) = identity
    /\ y3 (translation (m_transformMatrix new))
       = y3 (translation (m_transformMatrix (node_at (snd light_scene) 1)))
    /\ (m_fwdPressed walking = m_backPressed walking ->
        m_leftPressed walking = m_rightPressed walking ->
        translation (m_transformMatrix new)
        = translation (m_transformMatrix (node_at (snd light_scene) 1)))
    /\ m_position new = m_position (node_at (snd light_scene) 1)
    /\ m_children new = m_children (node_at (snd light_scene) 1).
Proof.
  apply (process_camera_matrix walking (fst (after walking)) (snd light_scene)
           (snd (after walking)) (node_at (snd light_scene) 1)); reflexivity.
Defined.

Lemma process_idempotent_witness :
  process (fst (after turning)) (snd (after turning))
  = Some (fst (after turning), snd (after turning)).
Proof.
  apply (process_idempotent turning (fst (after turning)) (snd light_scene)
           (snd (after turning))); reflexivity.
Defined.

Lemma process_step_witness :
  let c' := fst (after walking) in
  let t := translation (m_transformMatrix (node_at (snd light_scene) 1)) in
  let moveZ := (if m_fwdPressed walking then - 0.05 else 0)
               + (if m_backPressed walking then 0.05 else 0) in
  let moveX := (if m_leftPressed walking then - 0.05 else 0)
               + (if m_rightPressed walking then 0.05 else 0) in
  exists new,
    deref (snd (after walking)) 1 = Some new
    /\ translation (m_transformMatrix new)
       = mkVec3 (x3 t + cos (y3 (m_rotation c')) * moveX
                 + sin (y3 (m_rotation c')) * cos (x3 (m_rotation c')) * moveZ)
                (y3 t)
                (z3 t - sin (y3 (m_rotation c')) * moveX
                 + cos (y3 (m_rotation c')) * cos (x3 (m_rotation c')) * moveZ).
Proof.
  apply (process_step walking (fst (after walking)) (snd light_scene)
           (snd (after walking)) (node_at (snd light_scene) 1)); reflexivity.
Defined.

(** X26 on the first pointer-move event of the program. *)
Lemma first_move_witness :
  let c1 := with_pointer (fst controller0) 30 (-20) 30 (-20) in
  false = false
  /\ (true = true ->
      y3 (m_rotation (fst (after c1))) = y3 (m_rotation (fst controller0))
      /\ x3 (m_rotation (fst (after c1)))
         = clamp (x3 (m_rotation (fst controller0))) (- (PI / 2)) (PI / 2))
  /\ (true = false ->
      y3 (m_rotation (fst (after c1)))
      = y3 (m_rotation (fst controller0))
        - IZR (30 - m_lastX (fst controller0)) * PI / 1000
      /\ x3 (m_rotation (fst (after c1)))
         = clamp (x3 (m_rotation (fst controller0))
                  - IZR (-20 - m_lastY (fst controller0)) * PI / 400)
             (- (PI / 2)) (PI / 2)).
Proof.
  intros c1.
  apply (first_move (fst controller0) c1 (fst (after c1)) true false TouchInvalid
           30 (-20) (snd light_scene) (snd (after c1))); reflexivity.
Defined.

End MoreWitness.

(** ** The traversal on the scene with the moved mesh *)

Module TraversalWitness.
Import glutils core Spec Geometry SceneSpec RenderSpec LinearAlgebra NodeProps
       SceneGraph Invariant Rendering Frames Traversal Examples MoreExamples MoreWitness.

Lemma moved_length : length (snd moved_mesh_scene) = 4%nat.
Proof. reflexivity. Qed.

Lemma moved_wf : wf_store (snd moved_mesh_scene).
Proof.
  apply (wf_update _ 2 _ (keeps_links_call (SetScaling 2 4 8))).
  apply (wf_update _ 2 _ (keeps_links_call (SetPosition 1 2 3))).
  exact (proj1 light_scene_tree).
Qed.

Lemma moved_nodes (id : NodeId) (n : Node) :
  deref (snd moved_mesh_scene) id = Some n ->
  (id = 0 \/ id = 1 \/ id = 2 \/ id = 3)%nat /\ n = node_at (snd moved_mesh_scene) id.
Proof.
  intros H. pose proof (deref_lt _ _ _ H) as Hlt. rewrite moved_length in Hlt.
  split; [lia |]. unfold node_at. rewrite H. reflexivity.
Qed.

Lemma moved_lights : lights_are_LightNodes (snd moved_mesh_scene).
Proof.
  intros id n H. apply moved_nodes in H as [[-> | [-> | [-> | ->]]] ->]; intros Ht;
    try discriminate Ht.
  do 2 eexists. reflexivity.
Qed.

Lemma moved_no_null : no_null_children (snd moved_mesh_scene).
Proof.
  intros id n H. apply moved_nodes in H as [[-> | [-> | [-> | ->]]] ->].
  - change (~ In None [Some 1%nat; Some 2%nat; Some 3%nat]).
    intros [H | [H | [H | []]]]; discriminate H.
  - intros [].
  - intros [].
  - intros [].
Qed.

Lemma moved_renderable : renderable (fst moved_mesh_scene) (snd moved_mesh_scene).
Proof.
  split; [exists openContext; split; reflexivity |].
  split; [exists 0%nat, (node_at (snd moved_mesh_scene) 0); split; reflexivity |].
  split; [exists 1%nat, theCamera; split; reflexivity |].
  split; [exact moved_wf | exact moved_lights].
Qed.

Lemma moved_model_matrix :
  mmul (mmul identity (m_transformMatrix (node_at (snd moved_mesh_scene) 0)))
       (m_transformMatrix (node_at (snd moved_mesh_scene) 2))
  = moved_model.
Proof.
  change (m_transformMatrix (node_at (snd moved_mesh_scene) 0)) with identity.
  change (m_transformMatrix (node_at (snd moved_mesh_scene) 2))
    with (translate 1 2 3 (rotateXYZW 0 0 0 1 (scale 2 4 8 identity))).
  unfold moved_model. mat_ring.
Qed.

Lemma moved_model_det : det (entry moved_model) = 64.
Proof. unfold moved_model. mat_unfold. ring. Qed.

(** C5 on the scene with the light and the moved mesh: the frame
    returns, and the traversal draws the mesh with the model-view matrix
    [view * model] and with the transpose of the inverse of the model
    matrix, which has the translation in its last row and not in its last
    column. *)
Lemma render_traversal_spec_witness :
  let s := fst moved_mesh_scene in
  let st := snd moved_mesh_scene in
  let this := mkRenderer view_5 (projectionMatrix theCamera) RGBAColor_new in
  f_result (render 5 Renderer_new (Some s) st) = Ok tt
  /\ exists evs,
       renderNode 5 st this (Some 0%nat) identity [Some 3%nat] = (evs, Ok tt)
       /\ In (EvDraw theMesh moved_modelView (projectionMatrix theCamera) moved_normal
                [Some 3%nat])
             evs
       /\ entry moved_normal i3 i0 = - (1 / 2)
       /\ entry moved_normal i0 i3 = 0.
Proof.
  intros s st this.
  destruct render_traversal_spec as (_ & Hcompletes & _ & Hdraws & _ & Hreturns & _).
  split.
  - apply (Hcompletes 5%nat Renderer_new s st moved_renderable).
    + change (4 < 5)%nat. lia.
    + exact moved_no_null.
  - destruct (proj2 (Hreturns 5%nat st this 0%nat (node_at st 0) identity [Some 3%nat]
                       moved_wf eq_refl ltac:(change (4 - 0 < 5)%nat; lia))
                    moved_no_null) as [evs Hevs].
    exists evs. split; [exact Hevs |]. split; [| split; reflexivity].
    apply (proj1 (Hdraws 5%nat st this 0%nat identity [Some 3%nat] evs Hevs)).
    exists 2%nat, (node_at st 2), moved_model, theMesh.
    split; [| split; [reflexivity | split; [reflexivity |]]].
    + rewrite <- moved_model_matrix.
      apply (Visits_below st 0 identity (node_at st 0) 2 2 (node_at st 2)).
      * reflexivity.
      * simpl. auto.
      * apply (Visits_here st 2 (mmul identity (m_transformMatrix (node_at st 0)))
                 (node_at st 2)).
        reflexivity.
    + exists moved_modelView, moved_normal.
      split; [reflexivity |]. split; [| split].
      * intros r c. change (m_viewMatrix this) with view_5. destruct r, c;
          unfold moved_modelView, moved_model, view_5; mat_unfold; ring.
      * intros _. split; [rewrite moved_model_det; lra |].
        intros r c. split; destruct r, c;
          unfold moved_normal, moved_model; geo_unfold; lra.
      * rewrite moved_model_det. intros H. lra.
Defined.

End TraversalWitness.
